(** * SLIDEM / lit-html templating engine: a shallow embedding

    The development follows [src/index.nomodule.js]:
    - the tagged-template engine ([html], [render], [Template],
      [TemplateInstance], [AttributePart], [NodePart]);
    - the keybinding registry ([handleKeydown], [GluonKeybinding]);
    - the slide deck's hash getters and the slide's [step] clamp.

    JavaScript objects live in explicit heaps indexed by [nat] references,
    so that identity ([===]) and aliasing are those of the program.
    Exceptions, and loops that the model cuts off, are results of type
    [res]. The definitions come first, then what is specified of them and
    the examples, then the proofs. *)

From stdpp Require Import gmap strings list pretty.
From Stdlib Require Import ZArith QArith Ascii.

Close Scope Q_scope.

Set Warnings "-register-all".

(** ** Results of effectful code *)

Inductive jserror :=
  | TypeError
  | NotFoundError
  | HierarchyRequestError
  | UnknownPartType (type : string).

(** A computation returns, throws, or is cut off for lack of fuel; the
    state an exception leaves behind is not kept. *)
Inductive res (A : Type) :=
  | Ok (a : A)
  | Throw (e : jserror)
  | Diverge.
Arguments Ok {A} a.
Arguments Throw {A} e.
Arguments Diverge {A}.

Global Instance res_ret : MRet res := fun A a => Ok a.
Global Instance res_bind : MBind res := fun A B f m =>
  match m with
  | Ok a => f a
  | Throw e => Throw e
  | Diverge => Diverge
  end.

(** Dereferencing [null] or [undefined] raises a TypeError. *)
Definition deref {A} (o : option A) : res A :=
  match o with
  | Some a => Ok a
  | None => Throw TypeError
  end.

(** ** JavaScript values *)

(** The values an expression slot can receive. Numbers are the
    integer-valued ones: [VNum z] is the Number [z], for an integer [z]
    that is a double, as every integer up to [2 ^ 53] is. An object other than an array or a TemplateResult
    comes with [repr], the string it converts to: [VIterable] is a
    non-string, non-array object with a [Symbol.iterator] method yielding
    finitely many items; [VNode] is a DOM node and [VThenable] an object
    with a [then] method that keeps its callback for later, as a promise
    does, each given by its reference; [VObject] is any
    other object or function; [VDirective] is a function tagged
    [__litDirective], with its result as a function of the part (a
    reference) it is called with. *)
Inductive value :=
  | VUndefined
  | VNull
  | VBool (b : bool)
  | VNum (z : Z)
  | VStr (s : string)
  | VArray (items : list value)
  | VIterable (repr : string) (items : list value)
  | VTemplateResult (template : nat) (values : list value)
  | VNode (repr : string) (n : nat)
  | VThenable (repr : string) (t : nat)
  | VObject (repr : string)
  | VDirective (repr : string) (f : nat -> value).

Module JS.

(** The integer [x] rounds to the double [z], for [z] above [2 ^ 53]: [z]
    is [m * 2 ^ e] with a significand [m] of 53 bits; the next double is
    [2 ^ e] above, the one before [2 ^ e] below, or half of that when [m]
    is [2 ^ 52]; halfway between two doubles the even significand wins. *)
Definition rounds_to (z x : Z) : bool :=
  let e := (Z.log2 z - 52)%Z in
  let m := (z / 2 ^ e)%Z in
  let below := (if m =? 2 ^ 52 then 2 ^ (e - 1) else 2 ^ e)%Z in
  if Z.even m
  then ((2 * z - below <=? 2 * x) && (2 * x <=? 2 * z + 2 ^ e))%Z
  else ((2 * z - below <? 2 * x) && (2 * x <? 2 * z + 2 ^ e))%Z.

(** The number of decimal digits of a positive integer. *)
Definition digits (z : Z) : Z := Z.of_nat (String.length (pretty z)).

(** Of two candidates [s * 10 ^ p], the one nearer to [z], the even [s]
    when they are as near. *)
Definition nearer (z : Z) (a b : Z * Z) : Z * Z :=
  let da := Z.abs (a.1 * 10 ^ a.2 - z) in
  let db := Z.abs (b.1 * 10 ^ b.2 - z) in
  if (da <? db)%Z then a
  else if (db <? da)%Z then b
  else if Z.even a.1 then a else b.

(** The [s] of [k] digits and the [p] for which [s * 10 ^ p] rounds to
    [z], if there are such; the nearest to [z] is among the two multiples
    of [10 ^ p] around [z]. *)
Definition shortest_at (z k : Z) : option (Z * Z) :=
  let d := digits z in
  let candidates :=
    flat_map (fun p => if (p <? 0)%Z then []
                       else [(z / 10 ^ p, p); (z / 10 ^ p + 1, p)]%Z)
      [d - k; d - k + 1]%Z in
  match List.filter (fun c : Z * Z =>
                       ((10 ^ (k - 1) <=? c.1) && (c.1 <? 10 ^ k))%Z
                       && rounds_to z (c.1 * 10 ^ c.2)) candidates with
  | [] => None
  | c :: l => Some (foldl (nearer z) c l)
  end.

(** The fewest digits that read back as [z]: 17 are enough for a double. *)
Fixpoint shortest_from (fuel : nat) (z k : Z) : Z * Z :=
  match fuel with
  | O => (z, 0%Z)
  | S fuel' =>
      match shortest_at z k with
      | Some c => c
      | None => shortest_from fuel' z (k + 1)%Z
      end
  end.

Definition zeros (p : Z) : string :=
  String.concat "" (replicate (Z.to_nat p) "0").

(** [Number::toString] for a natural number [z]. Up to [2 ^ 53] every
    integer is a double and its digits are printed. Beyond, the digits [s]
    are the fewest for which [s * 10 ^ p] reads back as [z]; they are
    followed by [p] zeros when that makes at most 21 digits, and are
    printed with an exponent otherwise. *)
Definition of_natural (z : Z) : string :=
  if (z <=? 2 ^ 53)%Z then pretty z
  else
    let '(s, p) := shortest_from 17 z 1 in
    let n := (digits s + p)%Z in
    if (n <=? 21)%Z then pretty s +:+ zeros p
    else
      match pretty s with
      | String c EmptyString => String c "e+" +:+ pretty (n - 1)%Z
      | String c r => String c ("." +:+ r) +:+ "e+" +:+ pretty (n - 1)%Z
      | EmptyString => ""
      end.

(** [Number::toString] for an integer-valued Number. *)
Definition Number_toString (z : Z) : string :=
  if (z <? 0)%Z then "-" +:+ of_natural (- z) else of_natural z.

(** [ToString] of the language. Array.prototype.toString joins the items
    with a comma, [null] and [undefined] items giving the empty string. *)
Fixpoint toString (v : value) : string :=
  match v with
  | VUndefined => "undefined"
  | VNull => "null"
  | VBool true => "true"
  | VBool false => "false"
  | VNum z => Number_toString z
  | VStr s => s
  | VArray items =>
      String.concat ","
        ((fix go (l : list value) : list string :=
            match l with
            | [] => []
            | VUndefined :: l' => "" :: go l'
            | VNull :: l' => "" :: go l'
            | x :: l' => toString x :: go l'
            end) items)
  | VIterable repr _ => repr
  | VTemplateResult _ _ => "[object Object]"
  | VNode repr _ => repr
  | VThenable repr _ => repr
  | VObject repr => repr
  | VDirective repr _ => repr
  end.

(** [ToBoolean]. *)
Definition truthy (v : value) : bool :=
  match v with
  | VUndefined | VNull => false
  | VBool b => b
  | VNum z => negb (z =? 0)%Z
  | VStr s => negb (String.eqb s "")
  | _ => true
  end.

(** [typeof v === 'object' || typeof v === 'function'], for [v] not [null]. *)
Definition is_object (v : value) : bool :=
  match v with
  | VUndefined | VNull | VBool _ | VNum _ | VStr _ => false
  | _ => true
  end.

(** [a === b] when [a] is a primitive: equal only to the same primitive. *)
Definition strict_eq_prim (a b : value) : bool :=
  match a, b with
  | VUndefined, VUndefined => true
  | VNull, VNull => true
  | VBool x, VBool y => Bool.eqb x y
  | VNum x, VNum y => (x =? y)%Z
  | VStr x, VStr y => String.eqb x y
  | _, _ => false
  end.

(** [values[i]]: [undefined] out of range. *)
Definition index (values : list value) (i : nat) : value :=
  default VUndefined (values !! i).

(** The data a Text node gets from [new Text(v)]: the argument is
    optional, so that [undefined] gives the empty string; anything else
    gives its [ToString]. *)
Definition toData (v : value) : string :=
  match v with
  | VUndefined => ""
  | _ => toString v
  end.

(** The data a Text node gets from [node.textContent = v]: the attribute
    is nullable, so that [null] and [undefined] give the empty string. *)
Definition toTextContent (v : value) : string :=
  match v with
  | VUndefined | VNull => ""
  | _ => toString v
  end.

(** [s.split(sep)] for a non-empty separator. *)
Fixpoint split_go (sep : string) (skip : nat) (acc : string) (s : string)
  : list string :=
  match s with
  | EmptyString => [acc]
  | String c s' =>
      match skip with
      | S k => split_go sep k acc s'
      | O =>
          if String.prefix sep s
          then acc :: split_go sep (String.length sep - 1) "" s'
          else split_go sep 0 (acc +:+ String c "") s'
      end
  end.

Definition split (sep s : string) : list string := split_go sep 0 "" s.

(** [s.substring(0, k)] with [k] clamped at zero. *)
Definition substring0 (k : Z) (s : string) : string :=
  String.substring 0 (Z.to_nat k) s.

(** White space and line terminators of [String.prototype.trim] that are
    ASCII characters: the space and the characters 9 to 13. *)
Definition is_space (c : ascii) : bool :=
  let n := nat_of_ascii c in
  (n =? 32)%nat || ((9 <=? n)%nat && (n <=? 13)%nat).

(** The others, in the two or three bytes that UTF-8 gives them: U+00A0,
    U+1680, U+2000 to U+200A, U+2028, U+2029, U+202F, U+205F, U+3000 and
    U+FEFF. *)
Definition is_space2 (a b : ascii) : bool :=
  ((nat_of_ascii a =? 194) && (nat_of_ascii b =? 160))%nat.

Definition is_space3 (a b c : ascii) : bool :=
  let a := nat_of_ascii a in
  let b := nat_of_ascii b in
  let c := nat_of_ascii c in
  ((a =? 225) && (b =? 154) && (c =? 128)
   || (a =? 226) && (b =? 128)
      && ((128 <=? c) && (c <=? 138) || (c =? 168) || (c =? 169) || (c =? 175))
   || (a =? 226) && (b =? 129) && (c =? 159)
   || (a =? 227) && (b =? 128) && (c =? 128)
   || (a =? 239) && (b =? 187) && (c =? 191))%nat.

(** [!s.trim()]: the string, in UTF-8, is made of white space only. *)
Fixpoint all_space (s : string) : bool :=
  match s with
  | EmptyString => true
  | String a s1 =>
      if is_space a then all_space s1
      else
        match s1 with
        | String b s2 =>
            if is_space2 a b then all_space s2
            else
              match s2 with
              | String c s3 => is_space3 a b c && all_space s3
              | EmptyString => false
              end
        | EmptyString => false
        end
  end.

End JS.

(** ** The document object model *)

Inductive nodeType :=
  | ELEMENT_NODE
  | TEXT_NODE
  | COMMENT_NODE
  | DOCUMENT_FRAGMENT_NODE.

Global Instance nodeType_eq_dec : EqDecision nodeType.
Proof. solve_decision. Defined.

(** A node of the tree: [nodeValue] is the character data of a Text or
    Comment node, [attributes] the ordered attribute list of an element. *)
Record node := mkNode {
  ntype : nodeType;
  nodeName : string;
  nodeValue : string;
  attributes : list (string * string);
  childNodes : list nat;
  parentNode : option nat
}.

(** A document: its nodes, a node's reference being its position. Nodes
    are never collected, so a new node takes the next position. *)
Abbreviation DOM := (list node).

(** Parsed markup, as the HTML parser hands it to [innerHTML]. *)
Inductive htree :=
  | HElement (tag : string) (attrs : list (string * string))
      (children : list htree)
  | HText (data : string)
  | HComment (data : string).

Module Dom.

Definition empty : DOM := [].

Definition get (d : DOM) (n : nat) : option node := d !! n.

Definition put (d : DOM) (n : nat) (x : node) : DOM := <[n := x]> d.

Definition alloc (d : DOM) (x : node) : nat * DOM := (length d, d ++ [x]).

Definition set_children (l : list nat) (x : node) : node :=
  mkNode (ntype x) (nodeName x) (nodeValue x) (attributes x) l (parentNode x).

Definition set_parent (p : option nat) (x : node) : node :=
  mkNode (ntype x) (nodeName x) (nodeValue x) (attributes x) (childNodes x) p.

Definition set_value (s : string) (x : node) : node :=
  mkNode (ntype x) (nodeName x) s (attributes x) (childNodes x)
    (parentNode x).

Definition set_attributes (a : list (string * string)) (x : node) : node :=
  mkNode (ntype x) (nodeName x) (nodeValue x) a (childNodes x)
    (parentNode x).

Definition update (d : DOM) (n : nat) (f : node -> node) : DOM :=
  match get d n with
  | Some x => put d n (f x)
  | None => d
  end.

Definition parent (d : DOM) (n : nat) : option nat :=
  x ← get d n; parentNode x.

Definition children (d : DOM) (n : nat) : list nat :=
  match get d n with
  | Some x => childNodes x
  | None => []
  end.

Definition typeOf (d : DOM) (n : nat) : option nodeType :=
  ntype <$> get d n.

(** The element following, resp. preceding, [n] in a list of siblings. *)
Fixpoint after (n : nat) (l : list nat) : option nat :=
  match l with
  | [] => None
  | x :: l' => if decide (x = n) then head l' else after n l'
  end.

Fixpoint before (n : nat) (l : list nat) : option nat :=
  match l with
  | [] => None
  | x :: l' =>
      match l' with
      | y :: _ => if decide (y = n) then Some x else before n l'
      | [] => None
      end
  end.

Definition nextSibling (d : DOM) (n : nat) : option nat :=
  p ← parent d n; after n (children d p).

Definition previousSibling (d : DOM) (n : nat) : option nat :=
  p ← parent d n; before n (children d p).

Definition firstChild (d : DOM) (n : nat) : option nat :=
  head (children d n).

Definition lastChild (d : DOM) (n : nat) : option nat :=
  last (children d n).

(** [new Text(data)] and the like: a node with no parent. *)
Definition createText (d : DOM) (data : string) : nat * DOM :=
  alloc d (mkNode TEXT_NODE "#text" data [] [] None).

Definition createFragment (d : DOM) : nat * DOM :=
  alloc d (mkNode DOCUMENT_FRAGMENT_NODE "#document-fragment" "" [] [] None).

Definition remove_from (n : nat) (l : list nat) : list nat :=
  filter (fun x => x ≠ n) l.

(** Take [n] out of its parent's children, if it has a parent. *)
Definition detach (d : DOM) (n : nat) : DOM :=
  match parent d n with
  | Some p =>
      update (update d p (fun x => set_children (remove_from n (childNodes x)) x))
        n (set_parent None)
  | None => d
  end.

(** [parent.removeChild(child)]. *)
Definition removeChild (d : DOM) (p child : nat) : res DOM :=
  if decide (parent d child = Some p) then Ok (detach d child)
  else Throw NotFoundError.

(** [l] with [new] placed before [ref], or at the end for [None]. *)
Fixpoint insert_before (new : list nat) (ref : option nat) (l : list nat)
  : list nat :=
  match ref with
  | None => l ++ new
  | Some r =>
      match l with
      | [] => new
      | x :: l' =>
          if decide (x = r) then new ++ x :: l'
          else x :: insert_before new ref l'
      end
  end.

(** Is [a] the node [n] or one of its ancestors? The climb is bounded by
    the number of nodes. *)
Fixpoint is_ancestor_go (fuel : nat) (d : DOM) (a n : nat) : bool :=
  if decide (a = n) then true
  else match fuel with
       | O => false
       | S fuel' =>
           match parent d n with
           | Some p => is_ancestor_go fuel' d a p
           | None => false
           end
       end.

Definition is_ancestor (d : DOM) (a n : nat) : bool :=
  is_ancestor_go (length d) d a n.

(** [parent.insertBefore(n, ref)], [ref] being [null] for [appendChild]:
    a DocumentFragment gives its children, any other node is first taken
    out of the place it is in. *)
Definition insertBefore (d : DOM) (p n : nat) (ref : option nat) : res DOM :=
  if is_ancestor d n p then Throw HierarchyRequestError
  else if negb (match ref with
                | Some r => bool_decide (parent d r = Some p)
                | None => true
                end)
  then Throw NotFoundError
  else
    let ref := if decide (ref = Some n) then nextSibling d n else ref in
    match typeOf d n with
    | Some DOCUMENT_FRAGMENT_NODE =>
        let moved := children d n in
        let d := update d n (set_children []) in
        let d := foldl (fun d c => update d c (set_parent (Some p))) d moved in
        Ok (update d p (fun x => set_children (insert_before moved ref (childNodes x)) x))
    | Some _ =>
        let d := detach d n in
        let d := update d n (set_parent (Some p)) in
        Ok (update d p (fun x => set_children (insert_before [n] ref (childNodes x)) x))
    | None => Throw TypeError
    end.

Definition appendChild (d : DOM) (p n : nat) : res DOM :=
  insertBefore d p n None.

(** [n.textContent = s]: the data of a Text or Comment node; for an element
    or a fragment, its children are replaced by one Text node, or by
    nothing when [s] is empty. *)
Definition set_textContent (d : DOM) (n : nat) (s : string) : DOM :=
  match typeOf d n with
  | Some TEXT_NODE | Some COMMENT_NODE => update d n (set_value s)
  | Some _ =>
      let old := children d n in
      let d := foldl (fun d c => update d c (set_parent None)) d old in
      if String.eqb s "" then update d n (set_children [])
      else
        let '(t, d) := createText d s in
        let d := update d t (set_parent (Some n)) in
        update d n (set_children [t])
  | None => d
  end.

Fixpoint assoc_set (name val : string) (l : list (string * string))
  : list (string * string) :=
  match l with
  | [] => [(name, val)]
  | (k, v) :: l' =>
      if String.eqb k name then (k, val) :: l'
      else (k, v) :: assoc_set name val l'
  end.

Definition assoc_get (name : string) (l : list (string * string))
  : option string :=
  snd <$> List.find (fun kv => String.eqb (fst kv) name) l.

Definition setAttribute (d : DOM) (n : nat) (name val : string) : DOM :=
  update d n (fun x => set_attributes (assoc_set name val (attributes x)) x).

Definition removeAttribute (d : DOM) (n : nat) (name : string) : DOM :=
  update d n (fun x =>
    set_attributes
      (filter (fun kv => negb (String.eqb (fst kv) name)) (attributes x)) x).

Definition getAttribute (d : DOM) (n : nat) (name : string) : option string :=
  x ← get d n; assoc_get name (attributes x).

Definition data (d : DOM) (n : nat) : option string :=
  nodeValue <$> get d n.

End Dom.

(** ** Tree walking, cloning and parsing into a document *)

Module Tree.

(** What [createTreeWalker(root, 5)] shows: elements and text. *)
Definition shown (d : DOM) (n : nat) : bool :=
  match Dom.typeOf d n with
  | Some ELEMENT_NODE | Some TEXT_NODE => true
  | _ => false
  end.

(** The next sibling of [n] or of its nearest ancestor below [root] that
    has one. *)
Fixpoint climb (fuel : nat) (d : DOM) (root n : nat) : option nat :=
  if decide (n = root) then None
  else match Dom.nextSibling d n with
       | Some s => Some s
       | None =>
           match fuel with
           | O => None
           | S fuel' =>
               match Dom.parent d n with
               | Some p => climb fuel' d root p
               | None => None
               end
           end
       end.

(** The node after [n] in document order, inside [root]. *)
Definition following (d : DOM) (root n : nat) : option nat :=
  match Dom.firstChild d n with
  | Some c => Some c
  | None => climb (length d) d root n
  end.

Fixpoint nextNode_go (fuel : nat) (d : DOM) (root n : nat) : option nat :=
  match fuel with
  | O => None
  | S fuel' =>
      match following d root n with
      | Some m => if shown d m then Some m else nextNode_go fuel' d root m
      | None => None
      end
  end.

(** [walker.nextNode()] from [walker.currentNode = n]: the next shown node,
    or [null]. *)
Definition nextNode (d : DOM) (root n : nat) : option nat :=
  nextNode_go (length d) d root n.

(** A deep copy of node [n] of document [src] into document [dst]. *)
Fixpoint cloneNode (fuel : nat) (src : DOM) (n : nat) (dst : DOM)
  : option (nat * DOM) :=
  match fuel with
  | O => None
  | S fuel' =>
      x ← Dom.get src n;
      let '(c, dst) :=
        Dom.alloc dst
          (mkNode (ntype x) (nodeName x) (nodeValue x) (attributes x) [] None) in
      '(kids, dst) ←
        (fix go (l : list nat) (dst : DOM) : option (list nat * DOM) :=
           match l with
           | [] => Some ([], dst)
           | k :: l' =>
               '(k', dst) ← cloneNode fuel' src k dst;
               '(ks, dst) ← go l' dst;
               Some (k' :: ks, Dom.update dst k' (Dom.set_parent (Some c)))
           end) (childNodes x) dst;
      Some (c, Dom.update dst c (Dom.set_children kids))
  end.

(** [document.importNode(n, true)], [n] a node of the document [src]. *)
Definition importNode (src : DOM) (n : nat) (dst : DOM) : res (nat * DOM) :=
  match cloneNode (S (length src)) src n dst with
  | Some r => Ok r
  | None => Diverge
  end.

(** The nodes the parser makes of a tree, appended under [p]. *)
Fixpoint build (d : DOM) (p : nat) (t : htree) : nat * DOM :=
  match t with
  | HElement tag attrs kids =>
      let '(n, d) :=
        Dom.alloc d (mkNode ELEMENT_NODE tag "" attrs [] (Some p)) in
      let '(ks, d) :=
        (fix go (d : DOM) (l : list htree) : list nat * DOM :=
           match l with
           | [] => ([], d)
           | k :: l' =>
               let '(c, d) := build d n k in
               let '(cs, d) := go d l' in
               (c :: cs, d)
           end) d kids in
      (n, Dom.update d n (Dom.set_children ks))
  | HText s => Dom.alloc d (mkNode TEXT_NODE "#text" s [] [] (Some p))
  | HComment s => Dom.alloc d (mkNode COMMENT_NODE "#comment" s [] [] (Some p))
  end.

Fixpoint build_all (d : DOM) (p : nat) (l : list htree) : list nat * DOM :=
  match l with
  | [] => ([], d)
  | t :: l' =>
      let '(c, d) := build d p t in
      let '(cs, d) := build_all d p l' in
      (c :: cs, d)
  end.

(** A fresh template element whose content is the parsed markup: the
    content fragment is node 0 of a document of its own. *)
Definition templateContent (markup : list htree) : nat * DOM :=
  let '(root, d) := Dom.createFragment Dom.empty in
  let '(ks, d) := build_all d root markup in
  (root, Dom.update d root (Dom.set_children ks)).

End Tree.

(** ** Templates *)

(** [class TemplatePart]; a part of type ['node'] leaves [name], [rawName]
    and [strings] undefined. *)
Record TemplatePart := mkTemplatePart {
  tp_type : string;
  tp_index : Z;
  tp_name : option string;
  tp_rawName : option string;
  tp_strings : option (list string)
}.

(** [class Template]: [element.content] is the node [t_content] of the
    template's own document [t_dom]. *)
Record Template := mkTemplate {
  t_parts : list TemplatePart;
  t_content : nat;
  t_dom : DOM
}.

Module Compile.

Definition quote : ascii := "034"%char.
Definition apostrophe : ascii := "039"%char.

Definition between (lo hi : nat) (c : ascii) : bool :=
  ((lo <=? nat_of_ascii c)%nat && (nat_of_ascii c <=? hi)%nat).

(** [\w|[.\-_$]] *)
Definition is_name_char (c : ascii) : bool :=
  between 97 122 c || between 65 90 c || between 48 57 c
  || Ascii.eqb c "_"%char || Ascii.eqb c "."%char || Ascii.eqb c "-"%char
  || Ascii.eqb c "$"%char.

Fixpoint take_while (f : ascii -> bool) (l : list ascii) : list ascii :=
  match l with
  | [] => []
  | c :: l' => if f c then c :: take_while f l' else []
  end.

(** The first group of [s.match(re)], [re] being one or more name
    characters, an equals sign, an optional double or single quote and the
    end of input; [None] when the match is [null]. The match ends at the end of [s], so the string is
    read from its end: an optional quote, the equals sign, and the longest
    run of name characters before it. *)
Definition match_rawName (s : string) : option string :=
  let r := rev (String.list_ascii_of_string s) in
  let r :=
    match r with
    | c :: r' => if Ascii.eqb c quote || Ascii.eqb c apostrophe then r' else r
    | [] => r
    end in
  match r with
  | c :: r' =>
      if Ascii.eqb c "="%char then
        match take_while is_name_char r' with
        | [] => None
        | name => Some (String.string_of_list_ascii (rev name))
        end
      else None
  | [] => None
  end.

(** The state of the walk in the constructor of [Template]. *)
Record walk := mkWalk {
  w_dom : DOM;
  w_parts : list TemplatePart;
  w_index : Z;
  w_partIndex : nat;
  w_remove : list nat
}.

Section Template.

(** The host's HTML parser and the process's expression marker
    ([`{{lit-${Math.random()}}}`]). *)
Variable parseHTML : string -> list htree.
Variable exprMarker : string.

(** The loop over [node.attributes]: the list is live, and the loop steps
    back after a removal, so every attribute is visited once, in order. *)
Fixpoint walk_attributes (strings : list string) (n : nat)
    (attrs : list (string * string)) (w : walk) : res walk :=
  match attrs with
  | [] => Ok w
  | (name, val) :: rest =>
      let attributeStrings := JS.split exprMarker val in
      if (1 <? length attributeStrings)%nat then
        attributeString ← deref (strings !! w_partIndex w);
        let rawNameString :=
          JS.substring0
            (Z.of_nat (String.length attributeString)
             - Z.of_nat (String.length (default "" (head attributeStrings))))
            attributeString in
        rawName ← deref (match_rawName rawNameString);
        walk_attributes strings n rest
          (mkWalk (Dom.removeAttribute (w_dom w) n name)
             (w_parts w ++
                [mkTemplatePart "attribute" (w_index w) (Some name)
                   (Some rawName) (Some attributeStrings)])
             (w_index w)
             (w_partIndex w + (length attributeStrings - 1))
             (w_remove w))
      else walk_attributes strings n rest w
  end.

(** The loop making a marker Text node and a part for each literal section
    but the last. *)
Fixpoint walk_markers (p : option nat) (n : nat) (literals : list string)
    (w : walk) : res walk :=
  match literals with
  | [] => Ok w
  | s :: rest =>
      parent ← deref p;
      let '(t, d) := Dom.createText (w_dom w) s in
      d ← Dom.insertBefore d parent t (Some n);
      walk_markers p n rest
        (mkWalk d
           (w_parts w ++ [mkTemplatePart "node" (w_index w) None None None])
           (w_index w + 1) (w_partIndex w) (w_remove w))
  end.

(** The body of the [while (walker.nextNode())] loop at [node]. *)
Definition walk_node (strings : list string) (n : nat) (w : walk) : res walk :=
  let w := mkWalk (w_dom w) (w_parts w) (w_index w + 1) (w_partIndex w)
             (w_remove w) in
  x ← deref (Dom.get (w_dom w) n);
  match ntype x with
  | ELEMENT_NODE =>
      match attributes x with
      | [] => Ok w
      | attrs => walk_attributes strings n attrs w
      end
  | TEXT_NODE =>
      let strs := JS.split exprMarker (nodeValue x) in
      if (1 <? length strs)%nat then
        let lastIndex := (length strs - 1)%nat in
        let d := Dom.set_textContent (w_dom w) n
                   (default "" (strs !! lastIndex)) in
        walk_markers (parentNode x) n (take lastIndex strs)
          (mkWalk d (w_parts w) (w_index w) (w_partIndex w + lastIndex)
             (w_remove w))
      else if JS.all_space (nodeValue x) then
        Ok (mkWalk (w_dom w) (w_parts w) (w_index w - 1) (w_partIndex w)
              (w_remove w ++ [n]))
      else Ok w
  | _ => Ok w
  end.

Fixpoint walk_loop (fuel : nat) (strings : list string) (root cur : nat)
    (w : walk) : res walk :=
  match fuel with
  | O => Diverge
  | S fuel' =>
      match Tree.nextNode (w_dom w) root cur with
      | None => Ok w
      | Some n =>
          w ← walk_node strings n w;
          walk_loop fuel' strings root n w
      end
  end.

(** [for (const n of nodesToRemove) n.parentNode.removeChild(n)] *)
Fixpoint remove_nodes (l : list nat) (d : DOM) : res DOM :=
  match l with
  | [] => Ok d
  | n :: l' =>
      p ← deref (Dom.parent d n);
      d ← Dom.removeChild d p n;
      remove_nodes l' d
  end.

(** [new Template(strings)] *)
Definition Template_new (strings : list string) : res Template :=
  let '(root, d) :=
    Tree.templateContent (parseHTML (String.concat exprMarker strings)) in
  w ← walk_loop (S (length d)) strings root root (mkWalk d [] (-1) 0 []);
  d ← remove_nodes (w_remove w) (w_dom w);
  Ok (mkTemplate (w_parts w) root d).

End Template.

End Compile.

(** ** Parts, instances and the program state *)

(** A part callback, compared by identity in [render]: the function
    [defaultPartCallback], or another function, which builds the same
    parts. *)
Inductive partCallback :=
  | DefaultPartCallback
  | OtherPartCallback (k : nat).

Global Instance partCallback_eq_dec : EqDecision partCallback.
Proof. solve_decision. Defined.

(** What [NodePart._previousValue] holds: a primitive or an object that was
    rendered as text; or, by reference, a node, a thenable, a
    [TemplateInstance] or the array of the item parts. *)
Inductive previous :=
  | PValue (v : value)
  | PNode (n : nat)
  | PThenable (t : nat)
  | PInstance (i : nat)
  | PParts (a : nat).

(** [class AttributePart] and [class NodePart]; [endNode] can be [null]. *)
Inductive Part :=
  | AttributePart (instance element : nat) (name : string)
      (strings : list string) (size : Z)
  | NodePart (instance startNode : nat) (endNode : option nat)
      (_previousValue : previous).

(** [class TemplateInstance] *)
Record TemplateInstance := mkInstance {
  _parts : list nat;
  template : nat;
  _partCallback : partCallback
}.

(** The heaps of the program, a reference being a position in its heap,
    the [templates] map of [html] keyed by the identity of the strings
    array, the [__templateInstance] property of the containers, and the
    callbacks handed to [then], each a thenable and the part that waits. *)
Record state := mkState {
  document : DOM;
  parts : list Part;
  instances : list TemplateInstance;
  arrays : list (list nat);
  templateHeap : list Template;
  templates : gmap nat nat;
  __templateInstance : gmap nat nat;
  reactions : list (nat * nat)
}.

Definition initial : state := mkState [] [] [] [] [] ∅ ∅ [].

Definition with_document (d : DOM) (st : state) : state :=
  mkState d (parts st) (instances st) (arrays st) (templateHeap st)
    (templates st) (__templateInstance st) (reactions st).

Definition with_parts (l : list Part) (st : state) : state :=
  mkState (document st) l (instances st) (arrays st) (templateHeap st)
    (templates st) (__templateInstance st) (reactions st).

Definition with_instances (l : list TemplateInstance) (st : state) : state :=
  mkState (document st) (parts st) l (arrays st) (templateHeap st)
    (templates st) (__templateInstance st) (reactions st).

Definition with_arrays (l : list (list nat)) (st : state) : state :=
  mkState (document st) (parts st) (instances st) l (templateHeap st)
    (templates st) (__templateInstance st) (reactions st).

Definition with_templateHeap (l : list Template) (st : state) : state :=
  mkState (document st) (parts st) (instances st) (arrays st) l
    (templates st) (__templateInstance st) (reactions st).

Definition with_templates (m : gmap nat nat) (st : state) : state :=
  mkState (document st) (parts st) (instances st) (arrays st)
    (templateHeap st) m (__templateInstance st) (reactions st).

Definition with_templateInstance (m : gmap nat nat) (st : state) : state :=
  mkState (document st) (parts st) (instances st) (arrays st)
    (templateHeap st) (templates st) m (reactions st).

Definition with_reactions (l : list (nat * nat)) (st : state) : state :=
  mkState (document st) (parts st) (instances st) (arrays st)
    (templateHeap st) (templates st) (__templateInstance st) l.

(** The fields of the [NodePart] at reference [p]. *)
Record nodePart := mkNodePart {
  np_instance : nat;
  np_startNode : nat;
  np_endNode : option nat;
  np_previousValue : previous
}.

Definition nodePartOf (st : state) (p : nat) : res nodePart :=
  match parts st !! p with
  | Some (NodePart i s e v) => Ok (mkNodePart i s e v)
  | _ => Throw TypeError
  end.

Definition set_previousValue (p : nat) (v : previous) (st : state) : state :=
  match parts st !! p with
  | Some (NodePart i s e _) => with_parts (<[p := NodePart i s e v]> (parts st)) st
  | _ => st
  end.

Definition set_endNode (p : nat) (e : option nat) (st : state) : state :=
  match parts st !! p with
  | Some (NodePart i s _ v) => with_parts (<[p := NodePart i s e v]> (parts st)) st
  | _ => st
  end.

(** ** The engine *)

Module Lit.

(** [getValue(part, value)] *)
Definition getValue (part : nat) (v : value) : value :=
  let v := match v with
           | VDirective _ f => f part
           | _ => v
           end in
  match v with
  | VNull => VUndefined
  | _ => v
  end.

(** [values[k]] for an integer [k]. *)
Definition indexZ (values : list value) (k : Z) : value :=
  if (k <? 0)%Z then VUndefined else JS.index values (Z.to_nat k).

(** [Array.isArray(v) || typeof v !== 'string' && v[Symbol.iterator]] *)
Definition items_of (v : value) : option (list value) :=
  match v with
  | VArray l | VIterable _ l => Some l
  | _ => None
  end.

(** The text an [AttributePart] computes: the loop of [setValue] from
    index [i], with the literal sections still to come. *)
Fixpoint attributeText (self : nat) (strings : list string)
    (values : list value) (startIndex i : Z) (text : string) : string :=
  match strings with
  | [] => text
  | s :: rest =>
      let text := text +:+ s in
      match rest with
      | [] => text
      | _ =>
          let v := getValue self (indexZ values (startIndex + i)) in
          let text :=
            match (if JS.truthy v then items_of v else None) with
            | Some l => foldl (fun text t => text +:+ JS.toString t) text l
            | None => text +:+ JS.toString v
            end in
          attributeText self rest values startIndex (i + 1) text
      end
  end.

(** [AttributePart.setValue(values, startIndex)] *)
Definition AttributePart_setValue (p : nat) (values : list value)
    (startIndex : Z) (st : state) : res state :=
  match parts st !! p with
  | Some (AttributePart _ element name strings _) =>
      Ok (with_document
            (Dom.setAttribute (document st) element name
               (attributeText p strings values startIndex 0 "")) st)
  | _ => Throw TypeError
  end.

(** [NodePart._insert(node)] *)
Definition _insert (p : nat) (n : nat) (st : state) : res state :=
  np ← nodePartOf st p;
  e ← deref (np_endNode np);
  parent ← deref (Dom.parent (document st) e);
  d ← Dom.insertBefore (document st) parent n (Some e);
  Ok (with_document d st).

(** The loop of [NodePart.clear]: remove the node after [startNode] until
    it is [endNode]. *)
Fixpoint clear_loop (fuel : nat) (startNode : nat) (endNode : option nat)
    (d : DOM) : res DOM :=
  match fuel with
  | O => Diverge
  | S fuel' =>
      let node := Dom.nextSibling d startNode in
      if decide (node = endNode) then Ok d
      else
        n ← deref node;
        parent ← deref (Dom.parent d n);
        d ← Dom.removeChild d parent n;
        clear_loop fuel' startNode endNode d
  end.

(** [NodePart.clear(startNode)] *)
Definition clear (p : nat) (startNode : nat) (st : state) : res state :=
  np ← nodePartOf st p;
  d ← clear_loop (S (length (document st))) startNode (np_endNode np)
        (document st);
  Ok (with_document d st).

(** [NodePart._setNode(value)], [value] a node. *)
Definition _setNode (p : nat) (n : nat) (st : state) : res state :=
  np ← nodePartOf st p;
  st ← clear p (np_startNode np) st;
  st ← _insert p n st;
  Ok (set_previousValue p (PNode n) st).

(** [NodePart._setText(value)] *)
Definition _setText (p : nat) (v : value) (st : state) : res state :=
  np ← nodePartOf st p;
  let d := document st in
  let node := Dom.nextSibling d (np_startNode np) in
  e ← deref (np_endNode np);
  st ←
    (if decide (node = Dom.previousSibling d e) then
       n ← deref node;
       if decide (Dom.typeOf d n = Some TEXT_NODE)
       then
         Ok (with_document (Dom.set_textContent d n (JS.toTextContent v)) st)
       else
         let '(t, d) := Dom.createText d (JS.toData v) in
         _setNode p t (with_document d st)
     else
       let '(t, d) := Dom.createText d (JS.toData v) in
       _setNode p t (with_document d st));
  Ok (set_previousValue p (PValue v) st).

(** [NodePart._setPromise(value)]: [then] keeps the callback for later. *)
Definition _setPromise (p : nat) (t : nat) (st : state) : res state :=
  let st := with_reactions (reactions st ++ [(t, p)]) st in
  Ok (set_previousValue p (PThenable t) st).

(** [defaultPartCallback(instance, templatePart, node)]: the new part. *)
Definition defaultPartCallback (d : DOM) (instance : nat)
    (tp : TemplatePart) (n : nat) : res Part :=
  if String.eqb (tp_type tp) "attribute" then
    strings ← deref (tp_strings tp);
    Ok (AttributePart instance n (default "undefined" (tp_name tp)) strings
          (Z.of_nat (length strings) - 1))
  else if String.eqb (tp_type tp) "node" then
    Ok (NodePart instance n (Dom.nextSibling d n) (PValue VUndefined))
  else Throw (UnknownPartType (tp_type tp)).

(** The loop of [TemplateInstance._clone] over the walker; the part
    callback of the instance builds what [defaultPartCallback] builds. *)
Fixpoint clone_loop (fuel : nat) (i root : nat) (tparts : list TemplatePart)
    (index : Z) (partIndex : nat) (node : option nat) (st : state)
  : res state :=
  match fuel with
  | O => Diverge
  | S fuel' =>
      match node, tparts !! partIndex with
      | Some n, Some templatePart =>
          if decide (index = tp_index templatePart) then
            part ← defaultPartCallback (document st) i templatePart n;
            inst ← deref (instances st !! i);
            let q := length (parts st) in
            let st := with_parts (parts st ++ [part]) st in
            let st :=
              with_instances
                (<[i := mkInstance (_parts inst ++ [q]) (template inst)
                          (_partCallback inst)]> (instances st)) st in
            clone_loop fuel' i root tparts index (S partIndex) node st
          else
            clone_loop fuel' i root tparts (index + 1) partIndex
              (Tree.nextNode (document st) root n) st
      | _, _ => Ok st
      end
  end.

(** [TemplateInstance._clone()]: the fragment and the new state. *)
Definition _clone (i : nat) (st : state) : res (nat * state) :=
  inst ← deref (instances st !! i);
  t ← deref (templateHeap st !! template inst);
  '(fragment, d) ← Tree.importNode (t_dom t) (t_content t) (document st);
  let st := with_document d st in
  match t_parts t with
  | [] => Ok (fragment, st)
  | tparts =>
      st ← clone_loop (S (length tparts + length d)) i fragment tparts 0 0
             (Tree.nextNode d fragment fragment) st;
      Ok (fragment, st)
  end.

(** [new TemplateInstance(template, partCallback)] *)
Definition TemplateInstance_new (t : nat) (pc : partCallback) (st : state)
  : nat * state :=
  (length (instances st),
   with_instances (instances st ++ [mkInstance [] t pc]) st).

Section Recursion.

(** [NodePart.setValue], for the calls of the methods below on other
    parts. *)
Variable setValue : nat -> value -> state -> res state.

(** The loop of [TemplateInstance.update] over [this._parts]. *)
Fixpoint update_loop (ps : list nat) (values : list value) (valueIndex : Z)
    (st : state) : res state :=
  match ps with
  | [] => Ok st
  | p :: ps' =>
      part ← deref (parts st !! p);
      match part with
      | NodePart _ _ _ _ =>
          st ← setValue p (indexZ values valueIndex) st;
          update_loop ps' values (valueIndex + 1) st
      | AttributePart _ _ _ _ size =>
          st ← AttributePart_setValue p values valueIndex st;
          update_loop ps' values (valueIndex + size) st
      end
  end.

(** [TemplateInstance.update(values)] *)
Definition update (i : nat) (values : list value) (st : state) : res state :=
  inst ← deref (instances st !! i);
  update_loop (_parts inst) values 0 st.

(** [NodePart._setTemplateResult(value)] *)
Definition _setTemplateResult (p : nat) (t : nat) (values : list value)
    (st : state) : res state :=
  np ← nodePartOf st p;
  let reuse :=
    match np_previousValue np with
    | PInstance i =>
        match instances st !! i with
        | Some inst => if decide (template inst = t) then Some i else None
        | None => None
        end
    | _ => None
    end in
  '(instance, st) ←
    match reuse with
    | Some i => Ok (i, st)
    | None =>
        owner ← deref (instances st !! np_instance np);
        let '(i, st) := TemplateInstance_new t (_partCallback owner) st in
        '(fragment, st) ← _clone i st;
        st ← _setNode p fragment st;
        Ok (i, set_previousValue p (PInstance i) st)
    end;
  update instance values st.

(** The body of the [for (const item of value)] loop of
    [NodePart._setIterable], [a] being the array [itemParts]. *)
Fixpoint items_loop (p a : nat) (items : list value) (partIndex : nat)
    (st : state) : res (nat * state) :=
  match items with
  | [] => Ok (partIndex, st)
  | item :: rest =>
      itemParts ← deref (arrays st !! a);
      '(itemPart, st) ←
        match itemParts !! partIndex with
        | Some q => Ok (q, st)
        | None =>
            np ← nodePartOf st p;
            '(itemStart, st) ←
              match partIndex with
              | O => Ok (np_startNode np, st)
              | S k =>
                  previousPart ← deref (itemParts !! k);
                  let '(t, d) := Dom.createText (document st) "" in
                  let st := set_endNode previousPart (Some t)
                              (with_document d st) in
                  st ← _insert p t st;
                  Ok (t, st)
              end;
            np ← nodePartOf st p;
            let q := length (parts st) in
            let st :=
              with_parts
                (parts st ++
                   [NodePart (np_instance np) itemStart (np_endNode np)
                      (PValue VUndefined)]) st in
            itemParts ← deref (arrays st !! a);
            Ok (q, with_arrays (<[a := itemParts ++ [q]]> (arrays st)) st)
        end;
      st ← setValue itemPart item st;
      items_loop p a rest (S partIndex) st
  end.

(** [NodePart._setIterable(value)] *)
Definition _setIterable (p : nat) (items : list value) (st : state)
  : res state :=
  np ← nodePartOf st p;
  '(a, st) ←
    match np_previousValue np with
    | PParts a => Ok (a, st)
    | _ =>
        st ← clear p (np_startNode np) st;
        let a := length (arrays st) in
        Ok (a, set_previousValue p (PParts a)
                 (with_arrays (arrays st ++ [[]]) st))
    end;
  '(partIndex, st) ← items_loop p a items 0 st;
  itemParts ← deref (arrays st !! a);
  match partIndex with
  | O =>
      np ← nodePartOf st p;
      st ← clear p (np_startNode np) st;
      Ok (set_previousValue p (PValue VUndefined) st)
  | S k =>
      if (partIndex <? length itemParts)%nat then
        lastPart ← deref (itemParts !! k);
        lp ← nodePartOf st lastPart;
        e ← deref (np_endNode lp);
        from ← deref (Dom.previousSibling (document st) e);
        st ← clear p from st;
        np ← nodePartOf st p;
        Ok (set_endNode lastPart (np_endNode np) st)
      else Ok st
  end.

(** [NodePart.setValue(value)] *)
Definition setValue_body (p : nat) (v : value) (st : state) : res state :=
  let v := getValue p v in
  if negb (JS.is_object v) then
    np ← nodePartOf st p;
    match np_previousValue np with
    | PValue old => if JS.strict_eq_prim v old then Ok st else _setText p v st
    | _ => _setText p v st
    end
  else
    match v with
    | VTemplateResult t values => _setTemplateResult p t values st
    | VArray items | VIterable _ items => _setIterable p items st
    | VNode _ n => _setNode p n st
    | VThenable _ t => _setPromise p t st
    | _ => _setText p v st
    end.

End Recursion.

(** [NodePart.setValue], the depth of the calls into other parts bounded
    by [fuel]. *)
Fixpoint setValue (fuel : nat) (p : nat) (v : value) (st : state)
  : res state :=
  match fuel with
  | O => Diverge
  | S fuel' => setValue_body (setValue fuel') p v st
  end.

Definition TemplateInstance_update (fuel : nat) :=
  update (setValue fuel).

(** The callback [_setPromise] hands to [then], run with the value [v] the
    thenable [t] resolved to. *)
Definition reaction (fuel : nat) (t p : nat) (v : value) (st : state)
  : res state :=
  np ← nodePartOf st p;
  match np_previousValue np with
  | PThenable t' => if decide (t' = t) then setValue fuel p v st else Ok st
  | _ => Ok st
  end.

(** The thenable [t] resolves to [v]: its callbacks run in the order they
    were registered, and are forgotten. *)
Fixpoint run_reactions (fuel : nat) (t : nat) (v : value)
    (l : list (nat * nat)) (st : state) : res state :=
  match l with
  | [] => Ok st
  | (t', p) :: l' =>
      if decide (t' = t) then
        st ← reaction fuel t p v st;
        run_reactions fuel t v l' st
      else run_reactions fuel t v l' st
  end.

Definition resolve (fuel : nat) (t : nat) (v : value) (st : state)
  : res state :=
  let l := reactions st in
  run_reactions fuel t v l
    (with_reactions (filter (fun r => r.1 ≠ t) l) st).

(** The loop [while ((child = container.lastChild))
    container.removeChild(child)]. *)
Fixpoint removeChildren (fuel : nat) (container : nat) (d : DOM) : res DOM :=
  match fuel with
  | O => Diverge
  | S fuel' =>
      match Dom.lastChild d container with
      | None => Ok d
      | Some child =>
          d ← Dom.removeChild d container child;
          removeChildren fuel' container d
      end
  end.

(** [render(result, container, partCallback)], [result] holding the
    template [t] and [values]. *)
Definition render (fuel : nat) (t : nat) (values : list value)
    (container : nat) (pc : partCallback) (st : state) : res state :=
  let fast :=
    match __templateInstance st !! container with
    | Some i =>
        match instances st !! i with
        | Some inst =>
            if decide (template inst = t ∧ _partCallback inst = pc)
            then Some i else None
        | None => None
        end
    | None => None
    end in
  match fast with
  | Some i => TemplateInstance_update fuel i values st
  | None =>
      let '(i, st) := TemplateInstance_new t pc st in
      let st :=
        with_templateInstance (<[container := i]> (__templateInstance st)) st in
      '(fragment, st) ← _clone i st;
      st ← TemplateInstance_update fuel i values st;
      d ← removeChildren (S (length (Dom.children (document st) container)))
            container (document st);
      d ← Dom.appendChild d container fragment;
      Ok (with_document d st)
  end.

Section Html.

Variable parseHTML : string -> list htree.
Variable exprMarker : string.

(** [html(strings, ...values)], the strings array given by its identity
    [ref] and its content; the result is the [TemplateResult]. *)
Definition html (ref : nat) (strings : list string) (values : list value)
    (st : state) : res (value * state) :=
  match templates st !! ref with
  | Some t => Ok (VTemplateResult t values, st)
  | None =>
      tpl ← Compile.Template_new parseHTML exprMarker strings;
      let t := length (templateHeap st) in
      let st := with_templateHeap (templateHeap st ++ [tpl]) st in
      let st := with_templates (<[ref := t]> (templates st)) st in
      Ok (VTemplateResult t values, st)
  end.

End Html.

End Lit.

(** ** The keybinding registry *)

Module Keybinding.

(** A [gluon-keybinding] element: its [key] and [override] attributes
    ([None] for an absent attribute) and whether [offsetParent] is an
    element, that is not [null]. *)
Record element := mkElement {
  keyAttr : option string;
  overrideAttr : option string;
  hasOffsetParent : bool
}.

(** What a dispatch does that can be observed. *)
Inductive effect :=
  | Warn (message : string)
  | StopPropagation
  | Click (b : nat).

(** The elements, by reference, and the [registeredElements] object. *)
Record registry := mkRegistry {
  elements : list element;
  registeredElements : gmap string (list nat)
}.

(** A string or [null] in a condition. *)
Definition truthy (s : option string) : bool :=
  match s with
  | Some s => negb (String.eqb s "")
  | None => false
  end.

(** [get key()] and [get override()] *)
Definition key (r : registry) (b : nat) : option string :=
  x ← elements r !! b; keyAttr x.

Definition override (r : registry) (b : nat) : bool :=
  match elements r !! b with
  | Some x => bool_decide (overrideAttr x = Some "")
  | None => false
  end.

Definition visible (r : registry) (b : nat) : bool :=
  match elements r !! b with
  | Some x => hasOffsetParent x
  | None => false
  end.

(** [l.every(f)]: the elements are visited in order until [f] gives a
    falsy result; [f] also acts on a state. *)
Fixpoint every {S : Type} (f : nat -> S -> bool * S) (l : list nat) (s : S)
  : bool * S :=
  match l with
  | [] => (true, s)
  | b :: l' =>
      let '(continue, s) := f b s in
      if continue then every f l' s else (false, s)
  end.

(** The callback of [handleKeydown]: for an element without
    [offsetParent] it returns [undefined]. *)
Definition visit (r : registry) (b : nat) (log : list effect)
  : bool * list effect :=
  if visible r b
  then (negb (override r b), log ++ [StopPropagation; Click b])
  else (false, log).

(** [handleKeydown(a)], the event given by [a.key] and
    [a.defaultPrevented]; the result is what was done, in order. *)
Definition handleKeydown (r : registry) (eventKey : string)
    (defaultPrevented : bool) : list effect :=
  if defaultPrevented then [Warn "Keypress ignored!"]
  else
    match registeredElements r !! eventKey with
    | Some l => (every (visit r) l []).2
    | None => []
    end.

(** [l.indexOf(b)] and [l.splice(i, 1)] *)
Fixpoint indexOf (b : nat) (l : list nat) : option nat :=
  match l with
  | [] => None
  | x :: l' => if decide (x = b) then Some 0 else S <$> indexOf b l'
  end.

Definition with_registered (m : gmap string (list nat)) (r : registry)
  : registry :=
  mkRegistry (elements r) m.

(** [this.__register(a, b)]: [a] the new key, [b] the old one. *)
Definition __register (this : nat) (a b : option string) (r : registry)
  : registry :=
  let r :=
    match b with
    | Some kb =>
        if truthy b then
          match registeredElements r !! kb with
          | Some l =>
              match indexOf this l with
              | Some i =>
                  let l := delete i l in
                  match l with
                  | [] => with_registered (delete kb (registeredElements r)) r
                  | _ => with_registered (<[kb := l]> (registeredElements r)) r
                  end
              | None => r
              end
          | None => r
          end
        else r
    | None => r
    end in
  match a with
  | Some ka =>
      if truthy a then
        let l := default [] (registeredElements r !! ka) in
        let l := if override r this then this :: l else l ++ [this] in
        with_registered (<[ka := l]> (registeredElements r)) r
      else r
  | None => r
  end.

(** [this.__override(a)] *)
Definition __override (this : nat) (a : option string) (r : registry)
  : registry :=
  match a with
  | Some ka =>
      if truthy a then
        match registeredElements r !! ka with
        | Some l =>
            match indexOf this l with
            | Some i =>
                with_registered
                  (<[ka := this :: delete i l]> (registeredElements r)) r
            | None => r
            end
        | None => r
        end
      else r
  | None => r
  end.

(** [attributeChangedCallback(a, b, c)]: the attribute, its old and its new
    value. *)
Definition attributeChangedCallback (this : nat) (a : string)
    (b c : option string) (r : registry) : registry :=
  let r := if String.eqb a "key" then __register this c b r else r in
  if String.eqb a "override" then __override this (key r this) r else r.

(** [this.setAttribute(name, v)] and [this.removeAttribute(name)] for the
    two observed attributes: the attribute changes, then the callback
    runs. *)
Definition changeAttribute (this : nat) (name : string) (v : option string)
    (r : registry) : registry :=
  match elements r !! this with
  | Some x =>
      if String.eqb name "key" then
        attributeChangedCallback this name (keyAttr x) v
          (mkRegistry
             (<[this := mkElement v (overrideAttr x) (hasOffsetParent x)]>
                (elements r))
             (registeredElements r))
      else if String.eqb name "override" then
        attributeChangedCallback this name (overrideAttr x) v
          (mkRegistry
             (<[this := mkElement (keyAttr x) v (hasOffsetParent x)]>
                (elements r))
             (registeredElements r))
      else r
  | None => r
  end.

Definition setAttribute (this : nat) (name v : string) (r : registry)
  : registry :=
  changeAttribute this name (Some v) r.

(** Removing an absent attribute runs no callback. *)
Definition removeAttribute (this : nat) (name : string) (r : registry)
  : registry :=
  match elements r !! this with
  | Some x =>
      let present :=
        if String.eqb name "key" then keyAttr x
        else if String.eqb name "override" then overrideAttr x
        else None in
      match present with
      | Some _ => changeAttribute this name None r
      | None => r
      end
  | None => r
  end.

End Keybinding.

(** ** Numbers *)

(** A Number of the language: every finite double is a rational, kept in
    lowest terms. *)
Inductive num :=
  | NaN
  | Fin (q : Q)
  | PosInf
  | NegInf.

Module Num.

Definition of_Z (z : Z) : num := Fin (inject_Z z).

(** The double nearest to the natural number [z], ties to the even
    significand of 53 bits. *)
Definition round_N (z : Z) : num :=
  if (z <? 2 ^ 53)%Z then of_Z z
  else
    let e := (Z.log2 z - 52)%Z in
    let q := (z / 2 ^ e)%Z in
    let r := (z mod 2 ^ e)%Z in
    let half := (2 ^ (e - 1))%Z in
    let q :=
      if (r <? half)%Z then q
      else if (half <? r)%Z then (q + 1)%Z
      else if Z.even q then q else (q + 1)%Z in
    if (2 ^ 1024 <=? q * 2 ^ e)%Z then PosInf else of_Z (q * 2 ^ e).

(** The double nearest to the integer [z]. *)
Definition round (z : Z) : num :=
  if (z <? 0)%Z then
    match round_N (- z) with
    | Fin q => Fin (- q)
    | PosInf => NegInf
    | x => x
    end
  else round_N z.

Definition is_digit (c : ascii) : bool :=
  (48 <=? nat_of_ascii c)%nat && (nat_of_ascii c <=? 57)%nat.

(** The natural number a string of digits denotes. *)
Fixpoint decimal_go (acc : Z) (s : string) : Z :=
  match s with
  | EmptyString => acc
  | String c s' =>
      decimal_go (10 * acc + (Z.of_nat (nat_of_ascii c) - 48)) s'
  end.

Definition decimal (s : string) : Z := decimal_go 0 s.

(** [Number(s)] for [s] a string of digits or [Infinity]. *)
Definition of_numeral (s : string) : num :=
  if String.eqb s "Infinity" then PosInf else round (decimal s).

(** [x - 1]: the double nearest to the difference for an integer [x]. A
    double [x] that is not an integer is below [2 ^ 52]: the difference is
    a double itself when [x] is at least 1; below 1 it is negative, and is
    only compared with indices, so the difference is kept as it is. *)
Definition sub1 (x : num) : num :=
  match x with
  | Fin q =>
      if (Qden q =? 1)%positive then round (Qnum q - 1)
      else Fin (Qred (q - 1))
  | _ => x
  end.

Definition lt (x y : num) : bool :=
  match x, y with
  | NaN, _ | _, NaN => false
  | _, NegInf => false
  | NegInf, _ => true
  | PosInf, _ => false
  | _, PosInf => true
  | Fin a, Fin b => negb (Qle_bool b a)
  end.

Definition gt (x y : num) : bool := lt y x.

(** [ToBoolean] *)
Definition truthy (x : num) : bool :=
  match x with
  | NaN => false
  | Fin q => negb (Qeq_bool q 0)
  | _ => true
  end.

End Num.

(** ** The slide deck's hash getters *)

Module Deck.

(** [s] without the prefix [p], if it starts with it. *)
Fixpoint strip_prefix (p s : string) : option string :=
  match p, s with
  | EmptyString, _ => Some s
  | String a p', String b s' =>
      if Ascii.eqb a b then strip_prefix p' s' else None
  | _, _ => None
  end.

(** The longest prefix of digits, and what follows it. *)
Fixpoint span_digits (s : string) : string * string :=
  match s with
  | String c s' =>
      if Num.is_digit c then
        let '(d, r) := span_digits s' in (String c d, r)
      else (EmptyString, s)
  | EmptyString => (EmptyString, EmptyString)
  end.

(** [\d+] at the start of [s]: the digits and the rest. *)
Definition digits1 (s : string) : option (string * string) :=
  match span_digits s with
  | (EmptyString, _) => None
  | (d, r) => Some (d, r)
  end.

(** The groups 1 and 2 of
    [hash.match(/(?:slide-(\d+))?(?:\/step-(\d+|Infinity))?/)]. Both halves
    are optional, so the match is found at the start of [hash]; each takes
    what it can, and nothing makes the first give digits back. *)
Definition hash_match (hash : string) : option string * option string :=
  let '(g1, rest) :=
    match strip_prefix "slide-" hash with
    | Some r =>
        match digits1 r with
        | Some (d, r') => (Some d, r')
        | None => (None, hash)
        end
    | None => (None, hash)
    end in
  let g2 :=
    match strip_prefix "/step-" rest with
    | Some r =>
        match digits1 r with
        | Some (d, _) => Some d
        | None => if String.prefix "Infinity" r then Some "Infinity" else None
        end
    | None => None
    end in
  (g1, g2).

(** [(g || 1) - 1] for a group [g] of the match. *)
Definition index_of_group (g : option string) : num :=
  Num.sub1
    match g with
    | Some s => if String.eqb s "" then Num.of_Z 1 else Num.of_numeral s
    | None => Num.of_Z 1
    end.

(** [get currentSlide()] and [get currentStep()], as functions of the
    string [currentHash()] returns. *)
Definition currentSlide (currentHash : string) : num :=
  index_of_group (hash_match currentHash).1.

Definition currentStep (currentHash : string) : num :=
  index_of_group (hash_match currentHash).2.

End Deck.

(** ** The slide's step attribute *)

(** A slide: its [step] attribute, and the properties [steps] and [_steps]
    that [connectedCallback] sets, [_steps] given by the opacity of each
    [reveal] element. *)
Record slide := mkSlide {
  stepAttr : option string;
  steps : option nat;
  _steps : option (list Z)
}.

Module Slide.

Definition connectedCallback (reveals : list Z) (s : slide) : slide :=
  mkSlide (stepAttr s) (Some (length reveals)) (Some reveals).

Section Number.

(** [Number(v)] for an attribute value [v], a string or [null]. *)
Variable Number : option string -> num.

(** [this.steps + 1] *)
Definition steps_plus_1 (s : slide) : num :=
  match steps s with
  | Some k => Num.of_Z (Z.of_nat k + 1)
  | None => NaN
  end.

(** [__setStep(t)] *)
Definition __setStep (t : num) (s : slide) : res slide :=
  l ← deref (_steps s);
  Ok (mkSlide (stepAttr s) (steps s)
        (Some (imap (fun n _ =>
                 if Num.lt (Num.of_Z (Z.of_nat n)) (Num.sub1 t)
                 then 1%Z else 0%Z) l))).

(** How a call of [setAttribute] ends, the attribute being set and the
    slide being [s] when [attributeChangedCallback] starts: the callback
    runs as a custom element reaction, and an exception it throws is
    reported to the window and not thrown to the caller, who finds the
    slide as the callback left it; the callback below throws in
    [__setStep] only, before a reveal element is touched. *)
Definition reported (s : slide) (r : res slide) : res slide :=
  match r with
  | Throw _ => Ok s
  | _ => r
  end.

(** [attributeChangedCallback(t, e, n)]; the call of [setAttribute] in it
    changes the attribute and runs the callback again. *)
Fixpoint attributeChangedCallback (fuel : nat) (name : string)
    (old new : option string) (s : slide) : res slide :=
  match fuel with
  | O => Diverge
  | S fuel' =>
      if String.eqb name "step" then
        let t := Number new in
        if Num.gt t (steps_plus_1 s) then
          let v := pretty (S (default 0 (steps s))) in
          let s' := mkSlide (Some v) (steps s) (_steps s) in
          reported s'
            (attributeChangedCallback fuel' "step" (stepAttr s) (Some v) s')
        else __setStep t s
      else Ok s
  end.

(** [this.setAttribute("step", v)], also what [set step(t)] does. *)
Definition setStepAttribute (fuel : nat) (v : string) (s : slide)
  : res slide :=
  let s' := mkSlide (Some v) (steps s) (_steps s) in
  reported s' (attributeChangedCallback fuel "step" (stepAttr s) (Some v) s').

(** [get step()] *)
Definition step (s : slide) : num :=
  let x := Number (stepAttr s) in
  if Num.truthy x then x else Num.of_Z 1.

End Number.

End Slide.

(** ** Arithmetic on Numbers *)

Module Double.

(** The double nearest to the positive rational [n / d], ties to the even
    significand: [l] is the integer part of its binary logarithm, [e] the
    exponent of the last place, not below that of the subnormal numbers. *)
Definition round_pos (n d : Z) : num :=
  let b := (Z.log2 n - Z.log2 d)%Z in
  let l :=
    if (d * 2 ^ Z.max 0 b <=? n * 2 ^ Z.max 0 (- b))%Z then b
    else (b - 1)%Z in
  let e := Z.max (l - 52) (-1074) in
  let N := (n * 2 ^ Z.max 0 (- e))%Z in
  let D := (d * 2 ^ Z.max 0 e)%Z in
  let m := (N / D)%Z in
  let r := (N mod D)%Z in
  let m :=
    if (2 * r <? D)%Z then m
    else if (D <? 2 * r)%Z then (m + 1)%Z
    else if Z.even m then m else (m + 1)%Z in
  if (2 ^ 1024 <=? m * 2 ^ Z.max 0 e)%Z then PosInf
  else Fin (Qred (Qmake (m * 2 ^ Z.max 0 e) (Z.to_pos (2 ^ Z.max 0 (- e))))).

(** The double nearest to a rational. *)
Definition round_Q (q : Q) : num :=
  match Qnum q with
  | Z0 => Fin 0
  | Zpos n => round_pos (Zpos n) (Zpos (Qden q))
  | Zneg n =>
      match round_pos (Zpos n) (Zpos (Qden q)) with
      | Fin q => Fin (- q)
      | PosInf => NegInf
      | x => x
      end
  end.

(** [x + y]: the double nearest to the sum. *)
Definition add (x y : num) : num :=
  match x, y with
  | NaN, _ | _, NaN => NaN
  | PosInf, NegInf | NegInf, PosInf => NaN
  | PosInf, _ | _, PosInf => PosInf
  | NegInf, _ | _, NegInf => NegInf
  | Fin a, Fin b =>
      let s := Qred (a + b) in
      if (Qden s =? 1)%positive then Num.round (Qnum s) else round_Q s
  end.

Definition neg (x : num) : num :=
  match x with
  | NaN => NaN
  | Fin q => Fin (- q)
  | PosInf => NegInf
  | NegInf => PosInf
  end.

(** [x - y] *)
Definition sub (x y : num) : num := add x (neg y).

(** [x <= y] *)
Definition le (x y : num) : bool :=
  match x, y with
  | NaN, _ | _, NaN => false
  | NegInf, _ | _, PosInf => true
  | _, NegInf | PosInf, _ => false
  | Fin a, Fin b => Qle_bool a b
  end.

(** The index [l[x]] reads: the Number [x] names an element of an array
    when it is a natural number. *)
Definition index (x : num) : option nat :=
  match x with
  | Fin q =>
      if (Qden q =? 1)%positive && (0 <=? Qnum q)%Z
      then Some (Z.to_nat (Qnum q)) else None
  | _ => None
  end.

Section ToString.

(** The host's [Number::toString] on the finite Numbers that are not
    integers below [10 ^ 21]. *)
Variable toString_other : Q -> string.

(** [String(x)], as a template literal converts a Number. *)
Definition toString (x : num) : string :=
  match x with
  | NaN => "NaN"
  | PosInf => "Infinity"
  | NegInf => "-Infinity"
  | Fin q =>
      if (Qden q =? 1)%positive && (Z.abs (Qnum q) <? 10 ^ 21)%Z
      then pretty (Qnum q) else toString_other q
  end.

End ToString.

End Double.

(** ** The deck's forward and backward buttons *)

Module Navigation.

Section Deck.

Variable Number : option string -> num.
Variable toString_other : Q -> string.

Definition String_ (x : num) : string := Double.toString toString_other x.

(** [this.slides[x]], read for one of its properties: a TypeError when
    there is no such slide. *)
Definition slide_at (slides : list slide) (x : num) : res slide :=
  deref (i ← Double.index x; slides !! i).

(** [s.steps] as a condition, and as a Number. *)
Definition has_steps (s : slide) : bool :=
  match steps s with
  | Some (S _) => true
  | _ => false
  end.

Definition steps_number (s : slide) : num :=
  match steps s with
  | Some k => Num.of_Z (Z.of_nat k)
  | None => NaN
  end.

(** [this.$.forward.onclick], the hash it navigates to, if any;
    [currentHash] is what [currentHash()] returns. *)
Definition forward (currentHash : string) (slides : list slide)
  : res (option string) :=
  let currentSlide := Deck.currentSlide currentHash in
  s ← slide_at slides currentSlide;
  if has_steps s && Double.le (Slide.step Number s) (steps_number s) then
    Ok (Some ("slide-" +:+ String_ (Double.add currentSlide (Num.of_Z 1))
              +:+ "/step-"
              +:+ String_ (Double.add (Slide.step Number s) (Num.of_Z 1))))
  else if Num.lt currentSlide (Num.of_Z (Z.of_nat (length slides) - 1)) then
    Ok (Some ("slide-" +:+ String_ (Double.add currentSlide (Num.of_Z 2))
              +:+ "/step-1"))
  else Ok None.

(** [this.$.backward.onclick] *)
Definition backward (currentHash : string) (slides : list slide)
  : res (option string) :=
  let currentSlide := Deck.currentSlide currentHash in
  s ← slide_at slides currentSlide;
  if has_steps s && Num.gt (Slide.step Number s) (Num.of_Z 1) then
    Ok (Some ("slide-" +:+ String_ (Double.add currentSlide (Num.of_Z 1))
              +:+ "/step-"
              +:+ String_ (Double.sub (Slide.step Number s) (Num.of_Z 1))))
  else if Num.gt currentSlide (Num.of_Z 0) then
    p ← slide_at slides (Double.sub currentSlide (Num.of_Z 1));
    Ok (Some ("slide-" +:+ String_ currentSlide +:+ "/step-"
              +:+ String_
                    (Double.add
                       (if has_steps p then steps_number p else Num.of_Z 0)
                       (Num.of_Z 1))))
  else Ok None.

End Deck.

End Navigation.

(** ** The presenter's timer *)

Module Timer.

(** [new Date(x)] for a whole number [x] of milliseconds: its time value,
    or [None] for the invalid date, beyond 100 000 000 days. *)
Definition Date (x : Z) : option Z :=
  if (Z.abs x <=? 8640000000000000)%Z then Some x else None.

Definition getUTCHours (t : Z) : Z := ((t / 3600000) mod 24)%Z.
Definition getUTCMinutes (t : Z) : Z := ((t / 60000) mod 60)%Z.
Definition getUTCSeconds (t : Z) : Z := ((t / 1000) mod 60)%Z.

(** [i = e => e < 10 && "0" + e || e], as the template literal prints it,
    for a field [e] of a valid date. *)
Definition i (e : Z) : string :=
  if (e <? 10)%Z then "0" +:+ pretty e else pretty e.

(** [l(e)], [e] the date the timer was started at, when the clock reads
    [now]: both are time values of valid dates, so that the Number
    [new Date - e] is their difference, or is as far beyond the dates as
    the difference is. *)
Definition l (now e : Z) : string :=
  match Date (now - e) with
  | Some t =>
      let s := i (getUTCHours t) in
      let n := i (getUTCMinutes t) in
      let r := i (getUTCSeconds t) in
      (if (getUTCHours t =? 0)%Z then "" else s +:+ ":") +:+ n +:+ ":" +:+ r
  | None => "NaN:NaN"
  end.

End Timer.

(** ** GluonElement *)

Module Gluon.

(** [[a-z]], [[A-Z]] and [.], which is any character but a line
    terminator, on the ASCII characters. *)
Definition lower (c : ascii) : bool := Compile.between 97 122 c.
Definition upper (c : ascii) : bool := Compile.between 65 90 c.
Definition dot (c : ascii) : bool :=
  negb (Ascii.eqb c "010"%char || Ascii.eqb c "013"%char).

(** [t.replace(/([a-z])([A-Z])|(.)([A-Z][a-z])/g, "$1$3-$2$4")]: from left
    to right, a lower-case letter before a capital, or else any character
    before a capital that a lower-case letter follows, gets a hyphen
    after it; the search goes on after what was matched. *)
Fixpoint hyphenate (t : string) : string :=
  match t with
  | EmptyString => EmptyString
  | String a t1 =>
      match t1 with
      | EmptyString => t
      | String b t2 =>
          if lower a && upper b then
            String a (String "-" (String b (hyphenate t2)))
          else
            match t2 with
            | EmptyString => String a (hyphenate t1)
            | String c t3 =>
                if dot a && upper b && lower c then
                  String a (String "-" (String b (String c (hyphenate t3))))
                else String a (hyphenate t1)
            end
      end
  end.

(** [toLowerCase] on the ASCII characters. *)
Definition toLowerCase_char (c : ascii) : ascii :=
  if upper c then ascii_of_nat (nat_of_ascii c + 32) else c.

Fixpoint toLowerCase (t : string) : string :=
  match t with
  | EmptyString => EmptyString
  | String c t' => String (toLowerCase_char c) (toLowerCase t')
  end.

(** [i], which makes the tag name of an element of the name of its class:
    [static get is()] returns [i(this.name)]. *)
Definition i (t : string) : string := toLowerCase (hyphenate t).

(** An element, as [render] sees it: the flag [this[o]], the calls of
    [render] that wait at [await 0], and how many times the template was
    rendered into the shadow root. *)
Record element := mkElement {
  needsRender : bool;
  waiting : nat;
  renders : nat
}.

(** What follows [await 0], and a synchronous call after the flag is set:
    [this[o] && (this[o] = !1, render(this.template, this.shadowRoot),
    s(this))]. *)
Definition flush (x : element) : element :=
  if needsRender x then mkElement false (waiting x) (S (renders x)) else x.

(** [render({sync})] up to the point where it returns or waits. *)
Definition render (sync : bool) (x : element) : element :=
  let x := mkElement true (waiting x) (renders x) in
  if sync then flush x else mkElement true (S (waiting x)) (renders x).

(** The microtasks run: each waiting call goes on, in order. *)
Fixpoint microtasks (n : nat) (x : element) : element :=
  match n with
  | O => x
  | S n' => microtasks n' (flush (mkElement (needsRender x) n' (renders x)))
  end.

Definition settle (x : element) : element := microtasks (waiting x) x.

End Gluon.

(** * Specifications *)

(** ** The attribute string, in the words of the specification *)

(** The literal segments interleaved with the texts of the slots. *)
Fixpoint interleave (segments texts : list string) : string :=
  match segments with
  | [] => ""
  | s :: rest =>
      match rest with
      | [] => s
      | _ => s +:+ hd "" texts +:+ interleave rest (tl texts)
      end
  end.

(** The value at the index [k] of the values, [undefined] where there is
    none. *)
Definition value_at (values : list value) (k : Z) : value :=
  if (k <? 0)%Z then VUndefined else nth (Z.to_nat k) values VUndefined.

(** The slice of [n] values that starts at [startIndex]. *)
Definition slice (values : list value) (startIndex : Z) (n : nat)
  : list value :=
  map (fun i => value_at values (startIndex + Z.of_nat i)) (seq 0 n).

(** The text of a value in a slot: the items of an array or of an iterable
    object one after the other; for [null], the string of [undefined]; the
    string of any other value. *)
Definition text_of (w : value) : string :=
  match w with
  | VArray items | VIterable _ items =>
      String.concat "" (map JS.toString items)
  | VNull => "undefined"
  | _ => JS.toString w
  end.

(** The text of the slot of the part [self] given [v]: a directive is
    called with the part, and what it returns is the value. *)
Definition slot_text (self : nat) (v : value) : string :=
  match v with
  | VDirective _ f => text_of (f self)
  | _ => text_of v
  end.

(** ** The keybinding dispatch, as the list of the elements clicked *)

(** The elements a dispatch over the list [l] clicks, in order: it goes
    down the list, stops before an element that is not visible, and stops
    after a visible element flagged [override]. *)
Fixpoint clicked (r : Keybinding.registry) (l : list nat) : list nat :=
  match l with
  | [] => []
  | b :: l' =>
      if Keybinding.visible r b then
        b :: (if Keybinding.override r b then [] else clicked r l')
      else []
  end.

(** What clicking the elements of [l] in order does. *)
Definition clicks (l : list nat) : list Keybinding.effect :=
  concat (map (fun b => [Keybinding.StopPropagation; Keybinding.Click b]) l).

(** The element a dispatch clicks first, if any. *)
Fixpoint first_clicked (l : list Keybinding.effect) : option nat :=
  match l with
  | [] => None
  | Keybinding.Click b :: _ => Some b
  | _ :: l' => first_clicked l'
  end.

(** ** Hashes of the deck *)

(** A string of digits. *)
Fixpoint all_digits (s : string) : bool :=
  match s with
  | EmptyString => true
  | String c s' => Num.is_digit c && all_digits s'
  end.

(** The hash [slide-<m>/step-<n>] and the hash [slide-<m>], the numbers
    given by their digits. *)
Definition slide_step_hash (m n : string) : string :=
  "slide-" +:+ m +:+ "/step-" +:+ n.

Definition slide_hash (m : string) : string := "slide-" +:+ m.

(** The string [p] occurs in [s]; a hash has no step segment when
    [/step-] does not occur in it. *)
Fixpoint occurs (p s : string) : bool :=
  String.prefix p s
  || match s with
     | String _ s' => occurs p s'
     | EmptyString => false
     end.

(** ** What an update in place leaves alone *)

(** A node without its character data and its attributes, and a document
    as the tree of such nodes. *)
Definition skeleton (x : node) : nodeType * string * list nat * option nat :=
  (ntype x, nodeName x, childNodes x, parentNode x).

Definition structure (d : DOM)
  : list (nodeType * string * list nat * option nat) :=
  skeleton <$> d.



(** The value a [NodePart] rendered last. *)
Definition previousValue (st : state) (p : nat) : option previous :=
  match parts st !! p with
  | Some (NodePart _ _ _ v) => Some v
  | _ => None
  end.












(** ** What a call of [setValue] leaves alone *)

(** The parts below [L], the arrays below [A] and the instances below [I]
    are the same in [st'] as in [st], and no heap has shrunk. *)
Definition frame (L A I : nat) (st st' : state) : Prop :=
  (forall p, p < L -> parts st' !! p = parts st !! p)
  /\ (forall a, a < A -> arrays st' !! a = arrays st !! a)
  /\ (forall i, i < I -> instances st' !! i = instances st !! i)
  /\ length (parts st) <= length (parts st')
  /\ length (arrays st) <= length (arrays st')
  /\ length (instances st) <= length (instances st').

(** A part as the part callback makes it: it has rendered nothing. *)
Definition new_part (x : Part) : Prop :=
  match x with
  | NodePart _ _ _ (PValue VUndefined) => True
  | NodePart _ _ _ _ => False
  | AttributePart _ _ _ _ _ => True
  end.

(** A part that holds no instance and no array of item parts. *)
Definition holds_no_parts (r : previous) : Prop :=
  match r with
  | PInstance _ | PParts _ => False
  | _ => True
  end.

(** A value that is rendered as text: a primitive, or an object that is
    none of the kinds [setValue] tells apart. *)
Definition textual (v : value) : Prop :=
  match v with
  | VUndefined | VNull | VBool _ | VNum _ | VStr _ | VObject _
  | VDirective _ _ => True
  | _ => False
  end.

(** What a [NodePart] that held [w] holds after it was given a value whose
    [getValue] is [v]: [w] still, when [v] is the primitive it held; [v]
    itself, rendered as text; the node, the thenable, an instance or an
    array of item parts; or nothing, after an empty list. *)
Definition rendered (v : value) (w r : previous) : Prop :=
  (r = w /\ JS.is_object v = false
   /\ exists old, w = PValue old /\ JS.strict_eq_prim v old = true)
  \/ (r = PValue v /\ textual v)
  \/ (exists repr n, r = PNode n /\ v = VNode repr n)
  \/ (exists repr t, r = PThenable t /\ v = VThenable repr t)
  \/ (exists i t values, r = PInstance i /\ v = VTemplateResult t values)
  \/ (exists a, r = PParts a /\ is_Some (Lit.items_of v))
  \/ (r = PValue VUndefined /\ Lit.items_of v = Some []).

(** A call on the part [q] keeps every other part there was, every array
    and every instance there was. *)
Definition keeps (q : nat) (st st' : state) : Prop :=
  (forall p, p < length (parts st) -> p <> q ->
     parts st' !! p = parts st !! p)
  /\ frame 0 (length (arrays st)) (length (instances st)) st st'.

(** What is shown of [setValue], and assumed of its calls on other parts:
    on a part that holds no instance and no item parts, a call that returns
    keeps the rest and leaves in the part what [rendered] says. *)
Definition frames (f : nat -> value -> state -> res state) : Prop :=
  forall q v st st' w,
    previousValue st q = Some w ->
    holds_no_parts w ->
    f q v st = Ok st' ->
    keeps q st st'
    /\ exists r, previousValue st' q = Some r
                 /\ rendered (Lit.getValue q v) w r.

(** ** Fuel *)

(** [g] gives every result that [f] gives, [f] having returned or thrown. *)
Definition extends (f g : nat -> value -> state -> res state) : Prop :=
  forall p v st r, f p v st = r -> r <> Diverge -> g p v st = r.

(** ** The registry and the [key] attributes *)

(** The names that an object literal inherits from [Object.prototype]:
    [registeredElements[k]] is then the inherited member and not a list of
    elements. *)
Definition inherited (k : string) : bool :=
  bool_decide
    (k ∈ ["constructor"; "toString"; "toLocaleString"; "valueOf";
          "hasOwnProperty"; "isPrototypeOf"; "propertyIsEnumerable";
          "__proto__"; "__defineGetter__"; "__defineSetter__";
          "__lookupGetter__"; "__lookupSetter__"]).

(** The elements registered for the key [k]. *)
Definition registered (r : Keybinding.registry) (k : string) : list nat :=
  default [] (Keybinding.registeredElements r !! k).

(** The lists of the registry: none is empty or repeats an element, and
    no key is inherited. *)
Definition lists_ok (r : Keybinding.registry) : Prop :=
  forall k l, Keybinding.registeredElements r !! k = Some l ->
    l <> [] /\ NoDup l /\ inherited k = false.

(** The registry agrees with the [key] attributes: its lists are as above,
    and an element is in the list of [k] exactly when [k] is its key, a
    non-empty string. *)
Definition registry_ok (r : Keybinding.registry) : Prop :=
  lists_ok r
  /\ (forall k b, b ∈ registered r k <->
        Keybinding.key r b = Some k /\ k <> "").

(** The elements a dispatch clicked, one for each click, in the order of
    the clicks. *)
Fixpoint clicks_of (l : list Keybinding.effect) : list nat :=
  match l with
  | [] => []
  | Keybinding.Click b :: l' => b :: clicks_of l'
  | _ :: l' => clicks_of l'
  end.

(** The first half of [__register]: the element leaves the list of its old
    key. *)
Definition unregistered (this : nat) (b : option string)
    (r : Keybinding.registry) : Keybinding.registry :=
  Keybinding.__register this None b r.

(** ** The reveals of a slide *)

(** The opacities of [k] reveal elements of which the first [shown] are
    visible. *)
Definition revealed (shown k : nat) : list Z :=
  replicate (shown `min` k) 1%Z ++ replicate (k - shown) 0%Z.

(** ** What follows a segment of a hash *)

(** A string that does not go on with a digit. *)
Definition no_digit_first (s : string) : Prop :=
  match s with
  | EmptyString => True
  | String c _ => Num.is_digit c = false
  end.

(** ** Class names and tag names *)

(** A word of a class name: a capital and the lower-case letters after
    it. *)
Definition word (w : ascii * string) : string := String (fst w) (snd w).

Definition all_lower (w : string) : bool :=
  forallb Gluon.lower (String.list_ascii_of_string w).

Definition is_word (w : ascii * string) : Prop :=
  Gluon.upper (fst w) = true /\ snd w <> "" /\ all_lower (snd w) = true.

Definition camelCase (ws : list (ascii * string)) : string :=
  String.concat "" (map word ws).

Definition kebab_case (ws : list (ascii * string)) : string :=
  String.concat "-"
    (map (fun w => String (Gluon.toLowerCase_char (fst w)) (snd w)) ws).

(** The renders that calls of [render] in one turn come to, [true] for a
    synchronous call: one for each synchronous call, and one more when the
    last call was not synchronous. *)
Definition coalesced (calls : list bool) : nat :=
  length (filter (fun s => s = true) calls)
  + match last calls with
    | Some false => 1
    | _ => 0
    end.

(** ** What rendering never touches *)

(** The template cache of [html] and the instances the containers hold. *)
Definition statics (st : state)
  : gmap nat nat * list Template * gmap nat nat :=
  (templates st, templateHeap st, __templateInstance st).

(** The instance [render] updates for the template [t] and the part
    callback [pc] in [container], if it holds one of them. *)
Definition instance_of (st : state) (container t : nat) (pc : partCallback)
  : option nat :=
  i ← __templateInstance st !! container;
  inst ← instances st !! i;
  if decide (template inst = t /\ _partCallback inst = pc) then Some i
  else None.

(** ** The nodes between two markers *)

(** In the document [d] the children of [P] are [pre], the marker [s],
    the nodes [mid], and then [rest]; no node is there twice, [s] and the
    nodes [mid] have [P] as their parent, and [P] is none of them. *)
Definition between_markers (d : DOM) (P : nat) (pre : list nat) (s : nat)
    (mid rest : list nat) : Prop :=
  Dom.children d P = pre ++ s :: mid ++ rest
  /\ NoDup (pre ++ s :: mid ++ rest)
  /\ (forall m, m ∈ s :: mid -> Dom.parent d m = Some P)
  /\ P ∉ mid.

(** Every parent is a node of the document. *)
Definition parents_inside (d : DOM) : Prop :=
  forall n q, Dom.parent d n = Some q -> q < length d.

(** The character data, type, name and attributes of a node. *)
Definition content (x : node)
  : nodeType * string * string * list (string * string) :=
  (ntype x, nodeName x, nodeValue x, attributes x).

(** * Examples *)

(** ** Templates and renders *)

(** An expression marker, and a parser that knows the markup of the
    examples: [<p>${x}</p>] and [<div attr="${a}-${b}"></div>]. *)
Definition example_marker : string := "{{lit-0.5}}".

Definition example_parser (s : string) : list htree :=
  if String.eqb s ("<p>" +:+ example_marker +:+ "</p>") then
    [HElement "p" [] [HText example_marker]]
  else if String.eqb s
            ("<div attr=" +:+ String Compile.quote example_marker +:+ "-"
             +:+ example_marker +:+ String Compile.quote "></div>") then
    [HElement "div" [("attr", example_marker +:+ "-" +:+ example_marker)] []]
  else [].

(** The strings of the template literal [<p>${x}</p>], an array of
    identity 7, and a second array with the same strings, of identity 8. *)
Definition p_strings : list string := ["<p>"; "</p>"].

(** The strings of [<div attr="${a}-${b}"></div>]. *)
Definition div_strings : list string :=
  ["<div attr=" +:+ String Compile.quote ""; "-";
   String Compile.quote "></div>"].

(** A document holding one empty [div], the container, and nothing
    rendered yet. *)
Definition empty_container : state :=
  with_document [mkNode ELEMENT_NODE "div" "" [] [] None] initial.

(** [render(html`...`, container)] for the template literal whose strings
    array is [strings], of identity [ref], the container being node 0. *)
Definition render_html (ref : nat) (strings : list string)
    (values : list value) (st : state) : res state :=
  '(result, st) ←
    Lit.html example_parser example_marker ref strings values st;
  match result with
  | VTemplateResult t values => Lit.render 2 t values 0 DefaultPartCallback st
  | _ => Throw TypeError
  end.

(** [render(html`<p>${x}</p>`, container)] with [x] the value [v]. *)
Definition render_p (ref : nat) (v : value) (st : state) : res state :=
  render_html ref p_strings [v] st.

(** The template of [<p>${x}</p>]: the paragraph holds the marker Text
    node 3, where the part of index 1 is, and the Text node 2 that follows
    it. *)
Definition p_template : Template :=
  mkTemplate [mkTemplatePart "node" 1 None None None] 0
    [mkNode DOCUMENT_FRAGMENT_NODE "#document-fragment" "" [] [1] None;
     mkNode ELEMENT_NODE "p" "" [] [3; 2] (Some 0);
     mkNode TEXT_NODE "#text" "" [] [] (Some 1);
     mkNode TEXT_NODE "#text" "" [] [] (Some 1)].

(** The state after [html] has compiled it for the array of identity 7. *)
Definition p_compiled : state :=
  with_templates {[7 := 0]} (with_templateHeap [p_template] empty_container).

(** The state after [render(html`<p>${x}</p>`, container)] with [x] the
    string "x": the paragraph is node 2 and holds the marker 3, the Text
    node 5 of the value and the marker 4. *)
Definition p_rendered_x : state :=
  match render_p 7 (VStr "x") empty_container with
  | Ok st => st
  | _ => initial
  end.



(** A [div] element bound to the attribute template [attr="${a}-${b}"],
    whose literal segments are empty, a dash and empty. *)
Definition dash_state : state :=
  with_parts [AttributePart 0 0 "attr" [""; "-"; ""] 2]
    (with_document [mkNode ELEMENT_NODE "div" "" [] [] None] initial).

(** The children of node [n] with their character data. *)
Definition children_data (st : state) (n : nat) : list (nat * string) :=
  map (fun c => (c, default "" (Dom.data (document st) c)))
    (Dom.children (document st) n).

(** ** Lists *)

(** The array of the numbers [l]. *)
Definition numbers (l : list Z) : value := VArray (map VNum l).

(** The array of item parts a [NodePart] holds, if it holds one. *)
Definition itemParts (st : state) (p : nat) : option (list nat) :=
  match parts st !! p with
  | Some (NodePart _ _ _ (PParts a)) => arrays st !! a
  | _ => None
  end.

(** The states after rendering the list 1, 2, 3, then the list 1, 2, then
    the list 1, 2, 3 again. *)
Definition list_123 : res state :=
  render_p 7 (numbers [1; 2; 3]%Z) empty_container.

Definition list_12 : res state :=
  st ← list_123; render_p 7 (numbers [1; 2]%Z) st.

Definition list_123_again : res state :=
  st ← list_12; render_p 7 (numbers [1; 2; 3]%Z) st.

Definition list_124 : res state :=
  st ← list_12; render_p 7 (numbers [1; 2; 4]%Z) st.

(** ** Keybinding elements *)

(** Two visible elements without key, with the [override] attributes [o1]
    and [o2]. *)
Definition two_elements (o1 o2 : option string) : Keybinding.registry :=
  Keybinding.mkRegistry
    [Keybinding.mkElement None o1 true; Keybinding.mkElement None o2 true] ∅.

(** Both registered for the key "a", element 0 first. *)
Definition two_registered (o1 o2 : option string) : Keybinding.registry :=
  Keybinding.setAttribute 1 "key" "a"
    (Keybinding.setAttribute 0 "key" "a" (two_elements o1 o2)).

(** Three elements registered for the key "a" in the order 0, 1, 2, the
    middle one without [offsetParent]. *)
Definition hidden_middle : Keybinding.registry :=
  Keybinding.mkRegistry
    [Keybinding.mkElement (Some "a") None true;
     Keybinding.mkElement (Some "a") None false;
     Keybinding.mkElement (Some "a") None true]
    {["a" := [0; 1; 2]]}.

(** ** A slide *)

(** [Number] on the strings of digits and on [null], enough to run the
    examples. *)
Definition Number_of_digits (v : option string) : num :=
  match v with
  | Some s =>
      if String.eqb s "" then Num.of_Z 0
      else if all_digits s then Num.of_numeral s
      else if String.eqb s "Infinity" then PosInf
      else NaN
  | None => Num.of_Z 0
  end.

(** A connected slide with two [reveal] elements, both hidden. *)
Definition two_step_slide : slide :=
  Slide.connectedCallback [0%Z; 0%Z] (mkSlide None None None).

(** ** A deck *)

(** Three slides: the first has two reveal elements and is at step 2, the
    second has none, the third has one and is at step 1. *)
Definition three_slides : list slide :=
  [mkSlide (Some "2") (Some 2) (Some [1%Z; 0%Z]);
   mkSlide None (Some 0) (Some []);
   mkSlide (Some "1") (Some 1) (Some [0%Z])].

(** A host conversion of the other Numbers, which the examples do not
    meet. *)
Definition other_numbers (q : Q) : string := "".

(** The state after the part of [p_rendered_x] was given the string y. *)
Definition p_rendered_y : state :=
  match Lit.setValue 1 0 (VStr "y") p_rendered_x with
  | Ok st => st
  | _ => initial
  end.

(** * Proofs *)

(** ** Strings *)

Lemma append_nil_l (b : string) : "" +:+ b = b.
Proof. reflexivity. Qed.

Lemma append_cons (x : ascii) (a b : string) :
  String x a +:+ b = String x (a +:+ b).
Proof. reflexivity. Qed.

Lemma append_assoc (a b c : string) : (a +:+ b) +:+ c = a +:+ b +:+ c.
Proof.
  induction a as [|x a IH].
  - reflexivity.
  - rewrite !append_cons. now rewrite IH.
Qed.

Lemma append_empty_r (a : string) : a +:+ "" = a.
Proof.
  induction a as [|x a IH].
  - reflexivity.
  - rewrite append_cons. now rewrite IH.
Qed.

Lemma concat_empty_cons (s : string) (l : list string) :
  String.concat "" (s :: l) = s +:+ String.concat "" l.
Proof.
  destruct l as [|t l].
  - cbn [String.concat]. now rewrite append_empty_r.
  - reflexivity.
Qed.

Lemma foldl_append_toString (l : list value) (text : string) :
  foldl (fun text t => text +:+ JS.toString t) text l
  = text +:+ String.concat "" (map JS.toString l).
Proof.
  revert text. induction l as [|v l IH]; intros text.
  - simpl. now rewrite append_empty_r.
  - change (foldl (fun text t => text +:+ JS.toString t)
              (text +:+ JS.toString v) l
            = text +:+ String.concat "" (JS.toString v :: map JS.toString l)).
    rewrite IH, concat_empty_cons, append_assoc. reflexivity.
Qed.

(** Integer-valued Numbers as strings: their digits up to [2 ^ 53];
    beyond, the fewest digits that read back as the Number, as for
    [2 ^ 60], [2 ^ 64] and the double nearest to [10 ^ 23], followed by
    zeros, or by an exponent from [10 ^ 21] on. *)
Lemma Number_toString_examples :
  map JS.Number_toString
    [0; -12; 9007199254740992; 9007199254740994; 2 ^ 60; 2 ^ 64;
     123456789012345680000; 10 ^ 21; - 10 ^ 21; 2 ^ 70;
     99999999999999991611392; 2 ^ 100; (2 ^ 53 - 1) * 2 ^ 971]%Z
  = ["0"; "-12"; "9007199254740992"; "9007199254740994";
     "1152921504606847000"; "18446744073709552000";
     "123456789012345680000"; "1e+21"; "-1e+21"; "1.1805916207174113e+21";
     "1e+23"; "1.2676506002282294e+30"; "1.7976931348623157e+308"].
Proof. vm_compute. reflexivity. Qed.

(** [getValue] never gives [null]: the data of a Text node is then the
    same, be it made by [new Text] or written through [textContent]. *)
Lemma toTextContent_getValue (p : nat) (v : value) :
  JS.toTextContent (Lit.getValue p v) = JS.toData (Lit.getValue p v).
Proof.
  unfold Lit.getValue. destruct v; try reflexivity.
  destruct (f p); reflexivity.
Qed.

(** ** Attribute parts *)

(** What one slot adds to the text in [AttributePart.setValue]. *)
Lemma slot_step (self : nat) (v : value) (text : string) :
  match (if JS.truthy (Lit.getValue self v)
         then Lit.items_of (Lit.getValue self v) else None) with
  | Some l => foldl (fun text t => text +:+ JS.toString t) text l
  | None => text +:+ JS.toString (Lit.getValue self v)
  end = text +:+ slot_text self v.
Proof.
  assert (H : forall w,
    match (if JS.truthy match w with VNull => VUndefined | _ => w end
           then Lit.items_of match w with VNull => VUndefined | _ => w end
           else None) with
    | Some l => foldl (fun text t => text +:+ JS.toString t) text l
    | None =>
        text +:+ JS.toString match w with VNull => VUndefined | _ => w end
    end = text +:+ text_of w).
  { intros [| |b|z|s|l|r l| | | | |];
      cbn [JS.truthy Lit.items_of text_of];
      try reflexivity; try apply foldl_append_toString.
    - now destruct b.
    - now destruct (negb (z =? 0)%Z).
    - now destruct (negb (String.eqb s "")). }
  unfold slot_text, Lit.getValue.
  destruct v; match goal with |- context [text_of ?w] => exact (H w) end.
Qed.

Lemma indexZ_value_at (values : list value) (k : Z) :
  Lit.indexZ values k = value_at values k.
Proof.
  unfold Lit.indexZ, value_at, JS.index.
  destruct (k <? 0)%Z; [reflexivity|]. symmetry. apply nth_lookup.
Qed.

Lemma attributeText_cons (self : nat) (s s' : string) (rest : list string)
    (values : list value) (startIndex i : Z) (text : string) :
  Lit.attributeText self (s :: s' :: rest) values startIndex i text
  = Lit.attributeText self (s' :: rest) values startIndex (i + 1)
      (let v := Lit.getValue self (Lit.indexZ values (startIndex + i)) in
       match (if JS.truthy v then Lit.items_of v else None) with
       | Some l => foldl (fun text t => text +:+ JS.toString t) (text +:+ s) l
       | None => (text +:+ s) +:+ JS.toString v
       end).
Proof. reflexivity. Qed.

Lemma attributeText_interleave (self : nat) (strings : list string)
    (values : list value) (startIndex : Z) (i : nat) (text : string) :
  Lit.attributeText self strings values startIndex (Z.of_nat i) text
  = text +:+ interleave strings
      (map (slot_text self)
         (map (fun k => value_at values (startIndex + Z.of_nat k))
            (seq i (length strings - 1)))).
Proof.
  revert i text. induction strings as [|s rest IH]; intros i text.
  - simpl. now rewrite append_empty_r.
  - destruct rest as [|s' rest'].
    + reflexivity.
    + rewrite attributeText_cons. cbv zeta.
      rewrite slot_step, indexZ_value_at.
      replace (Z.of_nat i + 1)%Z with (Z.of_nat (S i)) by lia.
      rewrite IH.
      replace (length (s :: s' :: rest') - 1) with (S (length (s' :: rest') - 1))
        by (simpl; lia).
      cbn [seq map interleave hd tl].
      rewrite !append_assoc. reflexivity.
Qed.

Lemma attributeText_slice (self : nat) (strings : list string)
    (values : list value) (startIndex : Z) :
  Lit.attributeText self strings values startIndex 0 ""
  = interleave strings
      (map (slot_text self) (slice values startIndex (length strings - 1))).
Proof. apply (attributeText_interleave self strings values startIndex 0 ""). Qed.

Lemma assoc_get_set (name v : string) (l : list (string * string)) :
  Dom.assoc_get name (Dom.assoc_set name v l) = Some v.
Proof.
  unfold Dom.assoc_get.
  induction l as [|[k w] l IH]; simpl.
  - now rewrite String.eqb_refl.
  - destruct (String.eqb k name) eqn:E; simpl; rewrite E; [reflexivity | exact IH].
Qed.

Lemma getAttribute_setAttribute (d : DOM) (n : nat) (x : node)
    (name v : string) :
  d !! n = Some x ->
  Dom.getAttribute (Dom.setAttribute d n name v) n name = Some v.
Proof.
  intros H. unfold Dom.getAttribute, Dom.setAttribute, Dom.update, Dom.get, Dom.put.
  rewrite H. rewrite list_lookup_insert_eq by (eapply lookup_lt_Some; eauto).
  simpl. apply assoc_get_set.
Qed.

Lemma AttributePart_setValue_spec (st : state) (p inst el : nat)
    (name : string) (strings : list string) (size : Z)
    (values : list value) (k : Z) :
  parts st !! p = Some (AttributePart inst el name strings size) ->
  Lit.AttributePart_setValue p values k st
  = Ok (with_document
          (Dom.setAttribute (document st) el name
             (interleave strings
                (map (slot_text p) (slice values k (length strings - 1)))))
          st).
Proof.
  intros Hp. unfold Lit.AttributePart_setValue. rewrite Hp.
  now rewrite attributeText_slice.
Qed.

Lemma lookup_setAttribute_is_Some (d : DOM) (n m : nat) (name v : string) :
  is_Some (d !! m) -> is_Some (Dom.setAttribute d n name v !! m).
Proof.
  intros Hm. unfold Dom.setAttribute, Dom.update, Dom.get, Dom.put.
  destruct (d !! n) as [x|]; [|exact Hm].
  apply lookup_lt_is_Some. rewrite length_insert.
  now apply lookup_lt_is_Some.
Qed.

(** The template [attr="${a}-${b}"]: one [setValue] from any state. *)
Lemma dash_setValue (st : state) (p inst el : nat) (name : string) (size : Z)
    (a b : string) :
  parts st !! p = Some (AttributePart inst el name [""; "-"; ""] size) ->
  is_Some (document st !! el) ->
  exists st',
    Lit.AttributePart_setValue p [VStr a; VStr b] 0 st = Ok st'
    /\ parts st' = parts st
    /\ is_Some (document st' !! el)
    /\ Dom.getAttribute (document st') el name
       = Some (interleave [""; "-"; ""] [a; b]).
Proof.
  intros Hp [x Hx]. eexists. split; [|split; [|split]].
  - now apply AttributePart_setValue_spec with (1 := Hp).
  - reflexivity.
  - apply lookup_setAttribute_is_Some. now exists x.
  - cbn [document with_document].
    erewrite getAttribute_setAttribute by exact Hx. reflexivity.
Qed.

(** The template [<div attr="${a}-${b}"></div>] end to end: its compiled
    part holds the segments "", "-" and ""; rendered with "x" and "y" the
    [div], node 2, has the attribute "x-y", and rendered again with "p" and
    "y" the same node has "p-y". *)
Lemma render_div_twice :
  exists tpl st1 st2,
    Compile.Template_new example_parser example_marker div_strings = Ok tpl
    /\ t_parts tpl
       = [mkTemplatePart "attribute" 0 (Some "attr") (Some "attr")
            (Some [""; "-"; ""])]
    /\ render_html 9 div_strings [VStr "x"; VStr "y"] empty_container = Ok st1
    /\ Dom.children (document st1) 0 = [2]
    /\ Dom.getAttribute (document st1) 2 "attr" = Some "x-y"
    /\ render_html 9 div_strings [VStr "p"; VStr "y"] st1 = Ok st2
    /\ Dom.children (document st2) 0 = [2]
    /\ Dom.getAttribute (document st2) 2 "attr" = Some "p-y".
Proof.
  do 3 eexists.
  split; [vm_compute; reflexivity|]. split; [reflexivity|].
  split; [vm_compute; reflexivity|]. split; [reflexivity|].
  split; [reflexivity|].
  split; [vm_compute; reflexivity|]. split; reflexivity.
Qed.

(** C2: for the attribute template [attr="${a}-${b}"], whose literal
    segments are the empty string, a dash and the empty string, updating
    the AttributePart with a = "x" and b = "y" sets the attribute to "x-y",
    and updating it again with a = "p" while b stays "y" sets it to "p-y":
    whatever the attribute held, any two strings [a] and [b] give the
    segments interleaved with them. *)
Theorem attribute_part_dash (st : state) (p inst el : nat) (name : string)
    (size : Z)
    (Hp : parts st !! p = Some (AttributePart inst el name [""; "-"; ""] size))
    (Hel : is_Some (document st !! el)) :
  (exists st1 st2,
     Lit.AttributePart_setValue p [VStr "x"; VStr "y"] 0 st = Ok st1
     /\ Dom.getAttribute (document st1) el name = Some "x-y"
     /\ Lit.AttributePart_setValue p [VStr "p"; VStr "y"] 0 st1 = Ok st2
     /\ Dom.getAttribute (document st2) el name = Some "p-y")
  /\ (forall a b : string, exists st',
        Lit.AttributePart_setValue p [VStr a; VStr b] 0 st = Ok st'
        /\ Dom.getAttribute (document st') el name
           = Some (interleave [""; "-"; ""] [a; b])).
Proof.
  split.
  - destruct (dash_setValue st p inst el name size "x" "y" Hp Hel)
      as (st1 & H1 & Hparts & Hel1 & Hattr1).
    rewrite <- Hparts in Hp.
    destruct (dash_setValue st1 p inst el name size "p" "y" Hp Hel1)
      as (st2 & H2 & _ & _ & Hattr2).
    exists st1, st2. auto.
  - intros a b.
    destruct (dash_setValue st p inst el name size a b Hp Hel)
      as (st' & H1 & _ & _ & Hattr).
    exists st'. split; [exact H1|]. exact Hattr.
Qed.

Lemma attribute_part_dash_witness :
  (exists st1 st2,
     Lit.AttributePart_setValue 0 [VStr "x"; VStr "y"] 0 dash_state = Ok st1
     /\ Dom.getAttribute (document st1) 0 "attr" = Some "x-y"
     /\ Lit.AttributePart_setValue 0 [VStr "p"; VStr "y"] 0 st1 = Ok st2
     /\ Dom.getAttribute (document st2) 0 "attr" = Some "p-y")
  /\ (forall a b : string, exists st',
        Lit.AttributePart_setValue 0 [VStr a; VStr b] 0 dash_state = Ok st'
        /\ Dom.getAttribute (document st') 0 "attr"
           = Some (interleave [""; "-"; ""] [a; b])).
Proof.
  apply (attribute_part_dash dash_state 0 0 0 "attr" 2).
  - reflexivity.
  - eexists. reflexivity.
Defined.

(** C9, but for [null] and directives: [AttributePart.setValue] makes
    one [setAttribute] call on the document it finds, with the literal
    segments interleaved with the texts of the values of its slots, taken
    from [startIndex] on. The text of an array or of an iterable object is
    its items one after the other, in order, not the string of the value
    as a whole: the array of 1 and 2 and a set of "a" and "b" give "12-ab",
    the string of that array being "1,2". The text of any other value is
    its string, except that the text of [null] is "undefined" and that a
    directive gives the text of what it returns for the part. *)
Theorem attribute_part_iterables (st : state) (p inst el : nat)
    (name : string) (strings : list string) (size : Z)
    (values : list value) (k : Z)
    (Hp : parts st !! p = Some (AttributePart inst el name strings size)) :
  Lit.AttributePart_setValue p values k st
  = Ok (with_document
          (Dom.setAttribute (document st) el name
             (interleave strings
                (map (slot_text p) (slice values k (length strings - 1)))))
          st)
  /\ (forall v, exists text,
        Lit.attributeText p ["<"; ">"] [v] 0 0 "" = "<" +:+ text +:+ ">"
        /\ match v with
           | VArray items | VIterable _ items =>
               text = String.concat "" (map JS.toString items)
           | VNull => text = "undefined"
           | VDirective _ f => text = text_of (f p)
           | _ => text = JS.toString v
           end)
  /\ Lit.attributeText p [""; "-"; ""]
       [VArray [VNum 1; VNum 2]; VIterable "[object Set]" [VStr "a"; VStr "b"]]
       0 0 "" = "12-ab"
  /\ JS.toString (VArray [VNum 1; VNum 2]) = "1,2".
Proof.
  split; [now apply AttributePart_setValue_spec with (1 := Hp)|].
  split; [|split; reflexivity].
  intros v. exists (slot_text p v). split.
  - rewrite attributeText_slice. reflexivity.
  - destruct v; reflexivity.
Qed.

Lemma attribute_part_iterables_witness :
  Lit.AttributePart_setValue 0
    [VArray [VNum 1; VNum 2]; VIterable "[object Set]" [VStr "a"; VStr "b"]]
    0 dash_state
  = Ok (with_document
          (Dom.setAttribute (document dash_state) 0 "attr" "12-ab")
          dash_state)
  /\ JS.toString (VArray [VNum 1; VNum 2]) = "1,2".
Proof.
  destruct (attribute_part_iterables dash_state 0 0 0 "attr" [""; "-"; ""] 2
              [VArray [VNum 1; VNum 2];
               VIterable "[object Set]" [VStr "a"; VStr "b"]] 0 eq_refl)
    as (Hset & _ & _ & Hstring).
  split; [exact Hset | exact Hstring].
Defined.

(** C9, as stated, fails for [null] and for a directive, which are neither
    arrays nor iterable objects: the template [attr="${a}-${b}"] given
    [null] and a directive that returns "z" gets the attribute
    "undefined-z", and not the two values concatenated as they are, which
    is "null-d => z". *)
Lemma attribute_part_null_counterexample :
  Lit.AttributePart_setValue 0
    [VNull; VDirective "d => z" (fun _ => VStr "z")] 0 dash_state
  = Ok (with_document
          (Dom.setAttribute (document dash_state) 0 "attr" "undefined-z")
          dash_state)
  /\ Lit.items_of VNull = None
  /\ Lit.items_of (VDirective "d => z" (fun _ => VStr "z")) = None
  /\ interleave [""; "-"; ""]
       [JS.toString VNull;
        JS.toString (VDirective "d => z" (fun _ => VStr "z"))]
     = "null-d => z"
  /\ "undefined-z" <> "null-d => z".
Proof. repeat split; try reflexivity. discriminate. Qed.

(** ** The keybinding registry *)

Lemma every_visit (r : Keybinding.registry) (l : list nat)
    (log : list Keybinding.effect) :
  (Keybinding.every (Keybinding.visit r) l log).2 = log ++ clicks (clicked r l).
Proof.
  revert log. induction l as [|b l IH]; intros log.
  - simpl. now rewrite app_nil_r.
  - cbn [Keybinding.every clicked]. unfold Keybinding.visit at 1.
    destruct (Keybinding.visible r b).
    + destruct (Keybinding.override r b); cbn [negb].
      * reflexivity.
      * rewrite IH. unfold clicks. cbn [map concat].
        now rewrite <- app_assoc.
    + simpl. now rewrite app_nil_r.
Qed.

Lemma handleKeydown_clicked (r : Keybinding.registry) (k : string)
    (l : list nat) :
  Keybinding.registeredElements r !! k = Some l ->
  Keybinding.handleKeydown r k false = clicks (clicked r l).
Proof.
  intros H. unfold Keybinding.handleKeydown. rewrite H.
  now rewrite every_visit.
Qed.

Lemma clicked_prefix (r : Keybinding.registry) (l : list nat) :
  clicked r l `prefix_of` l.
Proof.
  induction l as [|b l IH]; [reflexivity|].
  cbn [clicked]. destruct (Keybinding.visible r b).
  - destruct (Keybinding.override r b).
    + apply prefix_cons, prefix_nil.
    + now apply prefix_cons.
  - apply prefix_nil.
Qed.

Lemma clicked_app_invisible (r : Keybinding.registry) (l1 l2 : list nat)
    (b : nat) :
  Keybinding.visible r b = false ->
  clicked r (l1 ++ b :: l2) = clicked r l1.
Proof.
  intros Hb. induction l1 as [|x l1 IH].
  - simpl. now rewrite Hb.
  - cbn [app clicked]. now rewrite IH.
Qed.

Lemma clicked_all (r : Keybinding.registry) (l : list nat) :
  Forall (fun x => Keybinding.visible r x = true
                   /\ Keybinding.override r x = false) l ->
  clicked r l = l.
Proof.
  induction 1 as [|x l [Hv Ho] _ IH]; [reflexivity|].
  cbn [clicked]. now rewrite Hv, Ho, IH.
Qed.

Lemma elem_of_clicks (b : nat) (l : list nat) :
  Keybinding.Click b ∈ clicks l -> b ∈ l.
Proof.
  unfold clicks. induction l as [|x l IH]; cbn [map concat].
  - intros H. inversion H.
  - cbn [app]. rewrite !elem_of_cons. intros [H|[H|H]].
    + discriminate.
    + left. congruence.
    + right. now apply IH.
Qed.

(** C10: in a dispatch the list of a key is gone through in order and the
    traversal halts at the first element [b] whose [offsetParent] is [null]:
    what is done is the clicks of a prefix of the elements before [b],
    all of them when none is flagged [override]; [b] is not clicked, and no
    element after it is, visible or not. *)
Theorem keydown_halts_at_invisible (r : Keybinding.registry) (k : string)
    (l1 l2 : list nat) (b : nat)
    (Hk : Keybinding.registeredElements r !! k = Some (l1 ++ b :: l2))
    (Hb : Keybinding.visible r b = false)
    (Hl1 : Forall (fun x => Keybinding.visible r x = true) l1) :
  exists l0,
    Keybinding.handleKeydown r k false = clicks l0
    /\ l0 `prefix_of` l1
    /\ (Forall (fun x => Keybinding.override r x = false) l1 -> l0 = l1)
    /\ (Keybinding.Click b ∉ Keybinding.handleKeydown r k false)
    /\ (forall x, x ∈ l2 -> x ∉ l1 ->
        Keybinding.Click x ∉ Keybinding.handleKeydown r k false).
Proof.
  exists (clicked r l1).
  assert (He : Keybinding.handleKeydown r k false = clicks (clicked r l1)).
  { rewrite (handleKeydown_clicked r k _ Hk).
    now rewrite clicked_app_invisible. }
  assert (Hin : forall x, Keybinding.Click x ∈ clicks (clicked r l1) -> x ∈ l1).
  { intros x Hx. apply elem_of_clicks in Hx.
    destruct (clicked_prefix r l1) as [t Ht]. rewrite Ht. set_solver. }
  split; [exact He|]. split; [apply clicked_prefix|]. split; [|split].
  - intros Ho. apply clicked_all.
    rewrite Forall_forall in *. intros x Hx. split; auto.
  - rewrite He. intros Hc. apply Hin in Hc.
    rewrite Forall_forall in Hl1. specialize (Hl1 b Hc). congruence.
  - intros x _ Hx1. rewrite He. intros Hc. apply Hin in Hc. contradiction.
Qed.

Lemma keydown_halts_at_invisible_witness :
  exists l0,
    Keybinding.handleKeydown hidden_middle "a" false = clicks l0
    /\ l0 `prefix_of` [0]
    /\ (Forall (fun x => Keybinding.override hidden_middle x = false) [0]
        -> l0 = [0])
    /\ (Keybinding.Click 1 ∉ Keybinding.handleKeydown hidden_middle "a" false)
    /\ (forall x, x ∈ [2] -> x ∉ [0] ->
        Keybinding.Click x ∉ Keybinding.handleKeydown hidden_middle "a" false).
Proof.
  apply (keydown_halts_at_invisible hidden_middle "a" [0] [2] 1).
  - reflexivity.
  - reflexivity.
  - repeat constructor.
Defined.

(** ** Two registrants *)

(** Setting the key of an element that had none. *)
Lemma setAttribute_key_new (r : Keybinding.registry) (e : nat)
    (x : Keybinding.element) (k : string) :
  Keybinding.elements r !! e = Some x ->
  Keybinding.keyAttr x = None ->
  k <> "" ->
  Keybinding.setAttribute e "key" k r
  = Keybinding.mkRegistry
      (<[e := Keybinding.mkElement (Some k) (Keybinding.overrideAttr x)
                (Keybinding.hasOffsetParent x)]> (Keybinding.elements r))
      (<[k := let l := default [] (Keybinding.registeredElements r !! k) in
              if bool_decide (Keybinding.overrideAttr x = Some "")
              then e :: l else l ++ [e]]>
         (Keybinding.registeredElements r)).
Proof.
  intros He Hk Hne.
  unfold Keybinding.setAttribute, Keybinding.changeAttribute.
  rewrite He, Hk. cbn [String.eqb Ascii.eqb Bool.eqb].
  unfold Keybinding.attributeChangedCallback.
  cbn [String.eqb Ascii.eqb Bool.eqb].
  unfold Keybinding.__register, Keybinding.truthy.
  apply String.eqb_neq in Hne. rewrite Hne. cbn [negb].
  unfold Keybinding.override, Keybinding.with_registered.
  cbn [Keybinding.elements Keybinding.registeredElements].
  rewrite list_lookup_insert_eq by (eapply lookup_lt_Some; eauto).
  reflexivity.
Qed.

(** C6, as the code has it: two distinct visible elements are registered
    for the key "a", [e1] first, and a keydown for "a" is dispatched. When
    the element registered last is flagged [override] it alone is clicked;
    otherwise the element registered first is clicked first, alone when it
    is flagged [override], followed by the other when it is not. *)
Theorem keydown_two_registrants (r : Keybinding.registry) (e1 e2 : nat)
    (x1 x2 : Keybinding.element)
    (Hne : e1 <> e2)
    (H1 : Keybinding.elements r !! e1 = Some x1)
    (H2 : Keybinding.elements r !! e2 = Some x2)
    (Hk1 : Keybinding.keyAttr x1 = None)
    (Hk2 : Keybinding.keyAttr x2 = None)
    (Hv1 : Keybinding.hasOffsetParent x1 = true)
    (Hv2 : Keybinding.hasOffsetParent x2 = true)
    (Hfree : Keybinding.registeredElements r !! "a" = None) :
  Keybinding.handleKeydown
    (Keybinding.setAttribute e2 "key" "a"
       (Keybinding.setAttribute e1 "key" "a" r)) "a" false
  = if Keybinding.override r e2 then clicks [e2]
    else if Keybinding.override r e1 then clicks [e1]
    else clicks [e1; e2].
Proof.
  rewrite (setAttribute_key_new r e1 x1 "a" H1 Hk1) by discriminate.
  rewrite Hfree. cbn [default app].
  set (r1 := Keybinding.mkRegistry _ _).
  assert (H2' : Keybinding.elements r1 !! e2 = Some x2).
  { unfold r1. cbn [Keybinding.elements].
    now rewrite list_lookup_insert_ne by exact Hne. }
  rewrite (setAttribute_key_new r1 e2 x2 "a" H2' Hk2) by discriminate.
  set (r2 := Keybinding.mkRegistry _ _).
  assert (Hl1 : Keybinding.elements r2 !! e1
                = Some (Keybinding.mkElement (Some "a")
                          (Keybinding.overrideAttr x1) true)).
  { unfold r2, r1. cbn [Keybinding.elements].
    rewrite list_lookup_insert_ne by congruence.
    rewrite list_lookup_insert_eq by (eapply lookup_lt_Some; eauto).
    now rewrite Hv1. }
  assert (Hl2 : Keybinding.elements r2 !! e2
                = Some (Keybinding.mkElement (Some "a")
                          (Keybinding.overrideAttr x2) true)).
  { unfold r2, r1. cbn [Keybinding.elements].
    rewrite list_lookup_insert_eq
      by (rewrite length_insert; eapply lookup_lt_Some; eauto).
    now rewrite Hv2. }
  assert (Hvis : forall e, e = e1 \/ e = e2 -> Keybinding.visible r2 e = true).
  { intros e [->| ->]; unfold Keybinding.visible; now rewrite ?Hl1, ?Hl2. }
  assert (Ho1 : Keybinding.override r2 e1 = Keybinding.override r e1).
  { unfold Keybinding.override. now rewrite Hl1, H1. }
  assert (Ho2 : Keybinding.override r2 e2 = Keybinding.override r e2).
  { unfold Keybinding.override. now rewrite Hl2, H2. }
  erewrite handleKeydown_clicked; cycle 1.
  { unfold r2. cbn [Keybinding.registeredElements].
    rewrite lookup_insert_eq. reflexivity. }
  assert (Hr1 : Keybinding.registeredElements r1 !! "a" = Some [e1]).
  { unfold r1. cbn [Keybinding.registeredElements].
    rewrite lookup_insert_eq. now destruct (bool_decide _). }
  rewrite Hr1. change (default [] (Some [e1])) with [e1]. cbn [app].
  replace (bool_decide (Keybinding.overrideAttr x2 = Some ""))
    with (Keybinding.override r e2)
    by (unfold Keybinding.override; now rewrite H2).
  destruct (Keybinding.override r e2) eqn:E2,
           (Keybinding.override r e1) eqn:E1;
    cbn [clicked]; rewrite ?Hvis, ?Ho1, ?Ho2, ?E1, ?E2 by auto;
    reflexivity.
Qed.

Lemma keydown_two_registrants_witness :
  Keybinding.handleKeydown
    (Keybinding.setAttribute 1 "key" "a"
       (Keybinding.setAttribute 0 "key" "a" (two_elements None (Some ""))))
    "a" false
  = if Keybinding.override (two_elements None (Some "")) 1 then clicks [1]
    else if Keybinding.override (two_elements None (Some "")) 0
         then clicks [0]
         else clicks [0; 1].
Proof.
  apply (keydown_two_registrants (two_elements None (Some "")) 0 1
           (Keybinding.mkElement None None true)
           (Keybinding.mkElement None (Some "") true)).
  - lia.
  - reflexivity.
  - reflexivity.
  - reflexivity.
  - reflexivity.
  - reflexivity.
  - reflexivity.
  - reflexivity.
Defined.

(** C6, as stated, fails: when neither of the two elements is flagged
    [override], the element clicked first is element 0, registered first,
    and not element 1, the one registered most recently. *)
Lemma keydown_most_recent_first_counterexample :
  Keybinding.override (two_registered None None) 0 = false
  /\ Keybinding.override (two_registered None None) 1 = false
  /\ Keybinding.handleKeydown (two_registered None None) "a" false
     = clicks [0; 1]
  /\ first_clicked
       (Keybinding.handleKeydown (two_registered None None) "a" false)
     <> Some 1.
Proof. repeat split; try reflexivity. discriminate. Qed.

(** ** The hash getters *)

Lemma span_digits_app (ds rest : string) :
  all_digits ds = true ->
  (rest = "" \/ exists c r, rest = String c r /\ Num.is_digit c = false) ->
  Deck.span_digits (ds +:+ rest) = (ds, rest).
Proof.
  intros Hds Hrest. induction ds as [|c ds IH].
  - rewrite append_nil_l. destruct Hrest as [->|(c & r & -> & Hc)].
    + reflexivity.
    + cbn [Deck.span_digits]. now rewrite Hc.
  - cbn [all_digits] in Hds. apply andb_prop in Hds as [Hc Hds].
    rewrite append_cons. cbn [Deck.span_digits]. rewrite Hc.
    now rewrite (IH Hds).
Qed.

Lemma digits1_app (ds rest : string) :
  all_digits ds = true -> ds <> "" ->
  (rest = "" \/ exists c r, rest = String c r /\ Num.is_digit c = false) ->
  Deck.digits1 (ds +:+ rest) = Some (ds, rest).
Proof.
  intros Hds Hne Hrest. unfold Deck.digits1.
  rewrite (span_digits_app ds rest Hds Hrest).
  destruct ds; [contradiction | reflexivity].
Qed.

Lemma hash_match_slide_step (m n : string) :
  all_digits m = true -> m <> "" -> all_digits n = true -> n <> "" ->
  Deck.hash_match (slide_step_hash m n) = (Some m, Some n).
Proof.
  intros Hm Hm0 Hn Hn0. unfold Deck.hash_match, slide_step_hash.
  change (Deck.strip_prefix "slide-" ("slide-" +:+ m +:+ "/step-" +:+ n))
    with (Some (m +:+ "/step-" +:+ n)).
  cbv beta iota.
  rewrite (digits1_app m ("/step-" +:+ n) Hm Hm0)
    by (right; eexists _, _; split; reflexivity).
  cbv beta iota.
  change (Deck.strip_prefix "/step-" ("/step-" +:+ n)) with (Some n).
  cbv beta iota.
  rewrite <- (append_empty_r n) at 1.
  rewrite (digits1_app n "" Hn Hn0) by now left.
  reflexivity.
Qed.

Lemma hash_match_slide (m : string) :
  all_digits m = true -> m <> "" ->
  Deck.hash_match (slide_hash m) = (Some m, None).
Proof.
  intros Hm Hm0. unfold Deck.hash_match, slide_hash.
  change (Deck.strip_prefix "slide-" ("slide-" +:+ m)) with (Some m).
  cbv beta iota.
  rewrite <- (append_empty_r m) at 1.
  rewrite (digits1_app m "" Hm Hm0) by now left.
  reflexivity.
Qed.

Lemma decimal_go_nonneg (s : string) (acc : Z) :
  all_digits s = true -> (0 <= acc)%Z -> (0 <= Num.decimal_go acc s)%Z.
Proof.
  revert acc. induction s as [|c s IH]; intros acc Hs Hacc; [exact Hacc|].
  cbn [all_digits] in Hs. apply andb_prop in Hs as [Hc Hs].
  cbn [Num.decimal_go]. apply IH; [exact Hs|].
  unfold Num.is_digit in Hc. apply andb_prop in Hc as [Hlo _].
  apply Nat.leb_le in Hlo. lia.
Qed.

Lemma all_digits_not_Infinity (s : string) :
  all_digits s = true -> String.eqb s "Infinity" = false.
Proof.
  intros Hs. apply String.eqb_neq. intros ->. discriminate.
Qed.

Lemma round_exact (z : Z) :
  (0 <= z <= 2 ^ 53)%Z -> Num.round z = Num.of_Z z.
Proof.
  intros [Hlo Hhi]. unfold Num.round.
  destruct (z <? 0)%Z eqn:E; [apply Z.ltb_lt in E; lia|].
  unfold Num.round_N. destruct (z <? 2 ^ 53)%Z eqn:E'; [reflexivity|].
  apply Z.ltb_ge in E'. assert (z = 2 ^ 53)%Z as -> by lia.
  vm_compute. reflexivity.
Qed.

Lemma sub1_exact (z : Z) :
  (0 <= z <= 2 ^ 53)%Z -> Num.sub1 (Num.of_Z z) = Num.of_Z (z - 1).
Proof.
  intros Hz. unfold Num.sub1, Num.of_Z. cbn [Qden inject_Z Qnum].
  rewrite Pos.eqb_refl.
  destruct (Z.eq_dec z 0) as [->|Hne]; [reflexivity|].
  apply round_exact. lia.
Qed.

Lemma index_of_group_digits (s : string) :
  all_digits s = true -> s <> "" -> (Num.decimal s <= 2 ^ 53)%Z ->
  Deck.index_of_group (Some s) = Num.of_Z (Num.decimal s - 1).
Proof.
  intros Hs Hne Hle. unfold Deck.index_of_group.
  apply String.eqb_neq in Hne. rewrite Hne.
  unfold Num.of_numeral. rewrite (all_digits_not_Infinity s Hs).
  assert (H0 : (0 <= Num.decimal s)%Z)
    by (apply decimal_go_nonneg; [exact Hs | lia]).
  rewrite round_exact by lia. apply sub1_exact. lia.
Qed.

Lemma prefix_app (p s : string) : String.prefix p (p +:+ s) = true.
Proof.
  induction p as [|c p IH]; [now destruct s|].
  rewrite append_cons. cbn [String.prefix].
  destruct (ascii_dec c c); [exact IH | contradiction].
Qed.

Lemma strip_prefix_Some (p s r : string) :
  Deck.strip_prefix p s = Some r ->
  s = p +:+ r /\ String.prefix p s = true.
Proof.
  revert s. induction p as [|a p IH]; intros s H.
  - cbn in H. injection H as ->. split; [reflexivity | now destruct r].
  - destruct s as [|b s]; [discriminate|]. cbn [Deck.strip_prefix] in H.
    destruct (Ascii.eqb a b) eqn:E; [|discriminate].
    apply Ascii.eqb_eq in E as <-. destruct (IH s H) as [-> Hp].
    split; [reflexivity|]. cbn [String.prefix].
    destruct (ascii_dec a a); [exact Hp | contradiction].
Qed.

Lemma span_digits_split (s d r : string) :
  Deck.span_digits s = (d, r) -> s = d +:+ r.
Proof.
  revert d r. induction s as [|c s IH]; intros d r H.
  - cbn in H. now injection H as <- <-.
  - cbn [Deck.span_digits] in H. destruct (Num.is_digit c).
    + destruct (Deck.span_digits s) as [d' r'] eqn:E.
      injection H as <- <-. now rewrite (IH d' r' eq_refl).
    + now injection H as <- <-.
Qed.

Lemma occurs_app_r (p a b : string) :
  occurs p (a +:+ b) = false -> occurs p b = false.
Proof.
  induction a as [|c a IH]; [now rewrite append_nil_l|].
  rewrite append_cons. cbn [occurs]. intros H.
  apply orb_false_iff in H as [_ H]. now apply IH.
Qed.

Lemma occurs_prefix (p s : string) :
  occurs p s = false -> String.prefix p s = false.
Proof.
  destruct s; cbn [occurs]; intros H; now apply orb_false_iff in H as [H _].
Qed.

(** Without [/step-] in the hash the second group does not take part in
    the match. *)
Lemma hash_match_no_step (h : string) :
  occurs "/step-" h = false -> (Deck.hash_match h).2 = None.
Proof.
  intros H. unfold Deck.hash_match.
  assert (Hnone : forall rest,
    occurs "/step-" rest = false -> Deck.strip_prefix "/step-" rest = None).
  { intros rest Hr. destruct (Deck.strip_prefix "/step-" rest) eqn:E;
      [|reflexivity].
    apply strip_prefix_Some in E as [_ E].
    apply occurs_prefix in Hr. congruence. }
  destruct (Deck.strip_prefix "slide-" h) as [r|] eqn:E1.
  - unfold Deck.digits1.
    destruct (Deck.span_digits r) as [d r'] eqn:E2.
    destruct d as [|c d]; cbn [snd]; [now rewrite (Hnone h H)|].
    apply strip_prefix_Some in E1 as [E1 _].
    apply span_digits_split in E2. subst h r.
    apply occurs_app_r, occurs_app_r in H. now rewrite (Hnone r' H).
  - cbn [snd]. now rewrite (Hnone h H).
Qed.

(** C7, but for the integers a Number does not hold exactly: for a hash
    [slide-<m>/step-<n>], [currentSlide] is [m - 1] when [m] is at most
    [2 ^ 53], and [currentStep] is [n - 1] when [n] is at most [2 ^ 53];
    the hash [slide-2/step-3] gives 1 and 2. For a hash with no step
    segment, one in which [/step-] does not occur, such as [slide-<m>]
    for any [m], [currentStep] is 0. *)
Theorem deck_hash_indices (m n : string)
    (Hm : all_digits m = true) (Hm0 : m <> "")
    (Hn : all_digits n = true) (Hn0 : n <> "") :
  ((Num.decimal m <= 2 ^ 53)%Z ->
   Deck.currentSlide (slide_step_hash m n) = Num.of_Z (Num.decimal m - 1))
  /\ ((Num.decimal n <= 2 ^ 53)%Z ->
      Deck.currentStep (slide_step_hash m n) = Num.of_Z (Num.decimal n - 1))
  /\ Deck.currentSlide "slide-2/step-3" = Num.of_Z 1
  /\ Deck.currentStep "slide-2/step-3" = Num.of_Z 2
  /\ (forall h, occurs "/step-" h = false ->
        Deck.currentStep h = Num.of_Z 0)
  /\ Deck.currentStep (slide_hash m) = Num.of_Z 0.
Proof.
  unfold Deck.currentSlide, Deck.currentStep.
  rewrite (hash_match_slide_step m n Hm Hm0 Hn Hn0).
  rewrite (hash_match_slide m Hm Hm0).
  cbn [fst snd].
  split; [intros Hmle; now apply index_of_group_digits|].
  split; [intros Hnle; now apply index_of_group_digits|].
  split; [reflexivity|]. split; [reflexivity|].
  split; [|reflexivity].
  intros h Hh. now rewrite (hash_match_no_step h Hh).
Qed.

Lemma deck_hash_indices_witness :
  Deck.currentSlide (slide_step_hash "12" "007") = Num.of_Z 11
  /\ Deck.currentStep (slide_step_hash "12" "007") = Num.of_Z 6
  /\ Deck.currentStep "" = Num.of_Z 0
  /\ Deck.currentStep "slide-9007199254740993" = Num.of_Z 0
  /\ Deck.currentStep (slide_hash "12") = Num.of_Z 0.
Proof.
  destruct (deck_hash_indices "12" "007") as (Hslide & Hstep & _ & _ & H0 & H12).
  - reflexivity.
  - discriminate.
  - reflexivity.
  - discriminate.
  - split; [apply Hslide; vm_compute; discriminate|].
    split; [apply Hstep; vm_compute; discriminate|].
    split; [now apply H0|]. split; [now apply H0 | exact H12].
Defined.

(** C7, as stated for every hash, fails beyond the integers a Number
    holds exactly: for [m] = 9007199254740993, which is [2 ^ 53 + 1],
    [currentSlide] is 9007199254740991 and not [m - 1]; and for [n] the
    same number, [currentStep] is 9007199254740991 and not [n - 1]. *)
Lemma deck_hash_large_counterexample :
  all_digits "9007199254740993" = true
  /\ Num.decimal "9007199254740993" = 9007199254740993%Z
  /\ Deck.currentSlide (slide_step_hash "9007199254740993" "1")
     = Num.of_Z 9007199254740991
  /\ Deck.currentSlide (slide_step_hash "9007199254740993" "1")
     <> Num.of_Z (9007199254740993 - 1)
  /\ Deck.currentStep (slide_step_hash "1" "9007199254740993")
     = Num.of_Z 9007199254740991
  /\ Deck.currentStep (slide_step_hash "1" "9007199254740993")
     <> Num.of_Z (9007199254740993 - 1).
Proof.
  split; [reflexivity|]. split; [reflexivity|].
  assert (H : Deck.currentSlide (slide_step_hash "9007199254740993" "1")
              = Num.of_Z 9007199254740991) by (vm_compute; reflexivity).
  assert (H' : Deck.currentStep (slide_step_hash "1" "9007199254740993")
               = Num.of_Z 9007199254740991) by (vm_compute; reflexivity).
  split; [exact H|]. split; [rewrite H; discriminate|].
  split; [exact H'|]. rewrite H'. discriminate.
Qed.

(** ** The step attribute *)


Lemma gt_of_Z_irrefl (z : Z) : Num.gt (Num.of_Z z) (Num.of_Z z) = false.
Proof.
  cbn. apply negb_false_iff. apply Qle_bool_iff. apply Qle_refl.
Qed.


Lemma attributeChangedCallback_step (Number : option string -> num)
    (fuel : nat) (old new : option string) (s : slide) :
  Slide.attributeChangedCallback Number (S fuel) "step" old new s
  = if Num.gt (Number new) (Slide.steps_plus_1 s) then
      Slide.reported
        (mkSlide (Some (pretty (S (default 0 (steps s))))) (steps s)
           (_steps s))
        (Slide.attributeChangedCallback Number fuel "step" (stepAttr s)
           (Some (pretty (S (default 0 (steps s)))))
           (mkSlide (Some (pretty (S (default 0 (steps s))))) (steps s)
              (_steps s)))
    else Slide.__setStep (Number new) s.
Proof. reflexivity. Qed.



(** ** Lists of items *)

(** C3, evaluated: the list 1, 2, 3 is rendered into [<p>${x}</p>], then
    the list 1, 2. The DOM of the items 0 and 1 is retained (the Text nodes
    5 and 7 and the separator 6), the Text node 9 of item 2 and the
    separator 8 before it are removed, and the end marker of the last
    retained item part, part 2, is realigned to the outer end marker 4.
    The trailing item part is not dropped: the array of item parts still
    holds the three parts 1, 2 and 3, part 3 starting at the removed
    separator. Rendering 1, 2, 3 again then leaves the DOM as it is, without
    the third item, and rendering 1, 2, 4 raises a TypeError. *)
Theorem shorter_list_keeps_stale_part :
  (exists st,
     list_123 = Ok st
     /\ children_data st 2
        = [(3, ""); (5, "1"); (6, ""); (7, "2"); (8, ""); (9, "3"); (4, "")]
     /\ parts st !! 0 = Some (NodePart 0 3 (Some 4) (PParts 0))
     /\ itemParts st 0 = Some [1; 2; 3]
     /\ parts st !! 2 = Some (NodePart 0 6 (Some 8) (PValue (VNum 2)))
     /\ parts st !! 3 = Some (NodePart 0 8 (Some 4) (PValue (VNum 3))))
  /\ (exists st,
        list_12 = Ok st
        /\ children_data st 2 = [(3, ""); (5, "1"); (6, ""); (7, "2"); (4, "")]
        /\ Dom.parent (document st) 8 = None
        /\ Dom.parent (document st) 9 = None
        /\ parts st !! 2 = Some (NodePart 0 6 (Some 4) (PValue (VNum 2)))
        /\ itemParts st 0 = Some [1; 2; 3]
        /\ parts st !! 3 = Some (NodePart 0 8 (Some 4) (PValue (VNum 3))))
  /\ (exists st,
        list_123_again = Ok st
        /\ children_data st 2 = [(3, ""); (5, "1"); (6, ""); (7, "2"); (4, "")])
  /\ list_124 = Throw TypeError.
Proof.
  split; [|split; [|split]].
  - eexists. split; [vm_compute; reflexivity|]. repeat split.
  - eexists. split; [vm_compute; reflexivity|]. repeat split.
  - eexists. split; [vm_compute; reflexivity|]. repeat split.
  - vm_compute. reflexivity.
Qed.

(** ** The template cache *)

(** C5: when [html] compiles the strings array of identity [ref], a later
    call with the same array returns a result holding the identical
    Template, without a change of state; a call with a distinct array
    [ref'] of the same strings makes a Template of its own, another object
    whose part list is the same, and leaves the first in the cache. *)
Theorem html_caches_by_identity (parseHTML : string -> list htree)
    (exprMarker : string) (st st1 : state) (ref ref' : nat)
    (strings : list string) (values : list value) (result : value)
    (Hnew : templates st !! ref = None)
    (Hcall : Lit.html parseHTML exprMarker ref strings values st
             = Ok (result, st1))
    (Href : ref' <> ref)
    (Hnew' : templates st !! ref' = None) :
  exists t,
    result = VTemplateResult t values
    /\ (forall values2,
          Lit.html parseHTML exprMarker ref strings values2 st1
          = Ok (VTemplateResult t values2, st1))
    /\ (forall values2, exists t' st2 tpl tpl',
          Lit.html parseHTML exprMarker ref' strings values2 st1
          = Ok (VTemplateResult t' values2, st2)
          /\ t' <> t
          /\ templateHeap st2 !! t = Some tpl
          /\ templateHeap st2 !! t' = Some tpl'
          /\ t_parts tpl' = t_parts tpl
          /\ forall values3,
               Lit.html parseHTML exprMarker ref strings values3 st2
               = Ok (VTemplateResult t values3, st2)).
Proof.
  unfold Lit.html in Hcall. rewrite Hnew in Hcall.
  destruct (Compile.Template_new parseHTML exprMarker strings) as [tpl| |] eqn:E;
    try discriminate.
  cbn [mbind res_bind] in Hcall. injection Hcall as <- <-.
  exists (length (templateHeap st)). split; [reflexivity|].
  split.
  - intros values2. unfold Lit.html.
    cbn [templates with_templates with_templateHeap].
    now rewrite lookup_insert_eq.
  - intros values2.
    exists (S (length (templateHeap st))). eexists. exists tpl, tpl.
    split.
    + unfold Lit.html at 1. cbn [templates with_templates with_templateHeap].
      rewrite lookup_insert_ne by congruence. rewrite Hnew', E.
      cbn [mbind res_bind templateHeap with_templates with_templateHeap].
      rewrite length_app. cbn [length].
      replace (length (templateHeap st) + 1) with (S (length (templateHeap st)))
        by lia.
      reflexivity.
    + cbn [templateHeap with_templates with_templateHeap templates].
      split; [lia|]. split.
      * rewrite lookup_app_l by (rewrite length_app; cbn; lia).
        now rewrite lookup_app_r, Nat.sub_diag by lia.
      * split.
        -- rewrite lookup_app_r by (rewrite length_app; cbn; lia).
           rewrite length_app. cbn [length].
           now replace (S (length (templateHeap st))
                        - (length (templateHeap st) + 1)) with 0 by lia.
        -- split; [reflexivity|].
           intros values3. unfold Lit.html.
           cbn [templates with_templates with_templateHeap].
           rewrite lookup_insert_ne by congruence.
           now rewrite lookup_insert_eq.
Qed.

Lemma html_caches_by_identity_witness :
  exists t,
    VTemplateResult 0 [VStr "x"] = VTemplateResult t [VStr "x"]
    /\ (forall values2,
          Lit.html example_parser example_marker 7 p_strings values2
            p_compiled
          = Ok (VTemplateResult t values2,
                p_compiled))
    /\ (forall values2, exists t' st2 tpl tpl',
          Lit.html example_parser example_marker 8 p_strings values2
            p_compiled
          = Ok (VTemplateResult t' values2, st2)
          /\ t' <> t
          /\ templateHeap st2 !! t = Some tpl
          /\ templateHeap st2 !! t' = Some tpl'
          /\ t_parts tpl' = t_parts tpl
          /\ forall values3,
               Lit.html example_parser example_marker 7 p_strings values3 st2
               = Ok (VTemplateResult t values3, st2)).
Proof.
  apply (html_caches_by_identity example_parser example_marker
           empty_container p_compiled 7 8 p_strings [VStr "x"]).
  - reflexivity.
  - vm_compute. reflexivity.
  - lia.
  - reflexivity.
Defined.

(** ** Updates in place *)










Lemma data_update_eq (d : DOM) (n : nat) (s : string) :
  is_Some (d !! n) -> Dom.data (Dom.update d n (Dom.set_value s)) n = Some s.
Proof.
  intros [x Hx]. unfold Dom.data, Dom.update, Dom.get, Dom.put. rewrite Hx.
  now rewrite list_lookup_insert_eq by (eapply lookup_lt_Some; eauto).
Qed.


























(** The two renders of the specification, evaluated: the paragraph stays
    node 2 and the Text node of the value stays node 5, between the markers
    3 and 4; its data goes from "x" to "y". *)
Lemma render_p_twice :
  exists st1 st2,
    render_p 7 (VStr "x") empty_container = Ok st1
    /\ render_p 7 (VStr "y") st1 = Ok st2
    /\ Dom.children (document st1) 0 = [2]
    /\ Dom.children (document st2) 0 = [2]
    /\ children_data st1 2 = [(3, ""); (5, "x"); (4, "")]
    /\ children_data st2 2 = [(3, ""); (5, "y"); (4, "")]
    /\ structure (document st2) = structure (document st1).
Proof.
  eexists. eexists.
  split; [vm_compute; reflexivity|].
  split; [vm_compute; reflexivity|].
  repeat split.
Qed.

(** ** The heaps through a call of [setValue] *)

Lemma bind_Ok {A B} (m : res A) (f : A -> res B) (b : B) :
  m ≫= f = Ok b -> exists a, m = Ok a /\ f a = Ok b.
Proof. destruct m as [a| |]; try discriminate. intros H. now exists a. Qed.

Lemma deref_Ok {A} (o : option A) (a : A) : deref o = Ok a -> o = Some a.
Proof. destruct o; [intros [= ->]; reflexivity | discriminate]. Qed.

Lemma nodePartOf_Ok (st : state) (p : nat) (np : nodePart) :
  nodePartOf st p = Ok np ->
  parts st !! p
  = Some (NodePart (np_instance np) (np_startNode np) (np_endNode np)
            (np_previousValue np)).
Proof.
  unfold nodePartOf. destruct (parts st !! p) as [[|i s e v]|]; try discriminate.
  now intros [= <-].
Qed.

Lemma set_previousValue_document (d : DOM) (p : nat) (r : previous)
    (st : state) :
  set_previousValue p r (with_document d st)
  = with_document d (set_previousValue p r st).
Proof.
  unfold set_previousValue. cbn [parts with_document].
  destruct (parts st !! p) as [[|i s e v]|]; reflexivity.
Qed.

Lemma set_previousValue_twice (p : nat) (r r' : previous) (st : state) :
  set_previousValue p r' (set_previousValue p r st) = set_previousValue p r' st.
Proof.
  unfold set_previousValue.
  destruct (parts st !! p) as [[|i s e v]|] eqn:E; rewrite ?E; try reflexivity.
  cbn [parts with_parts].
  rewrite list_lookup_insert_eq by (eapply lookup_lt_Some; eauto).
  unfold with_parts. cbn. now rewrite list_insert_insert_eq.
Qed.

Lemma previousValue_set (p : nat) (r : previous) (st : state) :
  is_Some (previousValue st p) ->
  previousValue (set_previousValue p r st) p = Some r.
Proof.
  unfold previousValue, set_previousValue. intros [w Hw].
  destruct (parts st !! p) as [[|i s e v]|] eqn:E; try discriminate.
  cbn [parts with_parts].
  now rewrite list_lookup_insert_eq by (eapply lookup_lt_Some; eauto).
Qed.

Lemma previousValue_document (d : DOM) (p : nat) (st : state) :
  previousValue (with_document d st) p = previousValue st p.
Proof. reflexivity. Qed.

Lemma frame_refl (L A I : nat) (st : state) : frame L A I st st.
Proof. repeat split; auto. Qed.

Lemma frame_trans (L A I : nat) (st st1 st2 : state) :
  frame L A I st st1 -> frame L A I st1 st2 -> frame L A I st st2.
Proof.
  intros (Hp1 & Ha1 & Hi1 & ? & ? & ?) (Hp2 & Ha2 & Hi2 & ? & ? & ?).
  repeat split; try lia.
  - intros p Hp. now rewrite Hp2, Hp1.
  - intros a Ha. now rewrite Ha2, Ha1.
  - intros i Hi. now rewrite Hi2, Hi1.
Qed.

Lemma frame_document (L A I : nat) (d : DOM) (st : state) :
  frame L A I st (with_document d st).
Proof. repeat split; auto. Qed.

Lemma frame_set_previousValue (L A I : nat) (p : nat) (r : previous)
    (st : state) :
  L <= p -> frame L A I st (set_previousValue p r st).
Proof.
  intros Hp. unfold set_previousValue.
  destruct (parts st !! p) as [[|i s e v]|]; try apply frame_refl.
  repeat split; cbn [parts arrays instances with_parts]; auto.
  - intros q Hq. apply list_lookup_insert_ne. lia.
  - now rewrite length_insert.
Qed.

Lemma frame_set_endNode (L A I : nat) (p : nat) (e : option nat)
    (st : state) :
  L <= p -> frame L A I st (set_endNode p e st).
Proof.
  intros Hp. unfold set_endNode.
  destruct (parts st !! p) as [[|i s e' v]|]; try apply frame_refl.
  repeat split; cbn [parts arrays instances with_parts]; auto.
  - intros q Hq. apply list_lookup_insert_ne. lia.
  - now rewrite length_insert.
Qed.

Lemma frame_weaken (L A I L' A' I' : nat) (st st' : state) :
  L' <= L -> A' <= A -> I' <= I -> frame L A I st st' -> frame L' A' I' st st'.
Proof.
  intros ? ? ? (Hp & Ha & Hi & ? & ? & ?).
  repeat split; try lia.
  - intros p ?. apply Hp. lia.
  - intros a ?. apply Ha. lia.
  - intros i ?. apply Hi. lia.
Qed.

Lemma clear_state (p s : nat) (st st' : state) :
  Lit.clear p s st = Ok st' -> exists d, st' = with_document d st.
Proof.
  unfold Lit.clear. intros H.
  apply bind_Ok in H as (np & _ & H).
  apply bind_Ok in H as (d & _ & H).
  injection H as <-. now exists d.
Qed.

Lemma _insert_state (p n : nat) (st st' : state) :
  Lit._insert p n st = Ok st' -> exists d, st' = with_document d st.
Proof.
  unfold Lit._insert. intros H.
  apply bind_Ok in H as (np & _ & H).
  apply bind_Ok in H as (e & _ & H).
  apply bind_Ok in H as (parent & _ & H).
  apply bind_Ok in H as (d & _ & H).
  injection H as <-. now exists d.
Qed.

Lemma _setNode_state (p n : nat) (st st' : state) :
  Lit._setNode p n st = Ok st' ->
  exists d, st' = set_previousValue p (PNode n) (with_document d st).
Proof.
  unfold Lit._setNode. intros H.
  apply bind_Ok in H as (np & _ & H).
  apply bind_Ok in H as (st1 & H1 & H).
  apply bind_Ok in H as (st2 & H2 & H).
  injection H as <-.
  apply clear_state in H1 as (d1 & ->).
  apply _insert_state in H2 as (d2 & ->).
  now exists d2.
Qed.

Lemma _setText_state (p : nat) (v : value) (st st' : state) :
  Lit._setText p v st = Ok st' ->
  exists d, st' = set_previousValue p (PValue v) (with_document d st).
Proof.
  unfold Lit._setText. intros H.
  apply bind_Ok in H as (np & _ & H).
  apply bind_Ok in H as (e & _ & H).
  apply bind_Ok in H as (st1 & H1 & H).
  injection H as <-.
  assert (Hnode : forall t d,
    Lit._setNode p t (with_document d st) = Ok st1 ->
    exists d', set_previousValue p (PValue v) st1
               = set_previousValue p (PValue v) (with_document d' st)).
  { intros t d Hn. apply _setNode_state in Hn as (d' & ->).
    exists d'. now rewrite set_previousValue_twice. }
  destruct (decide _).
  - apply bind_Ok in H1 as (n & _ & H1).
    destruct (decide _).
    + injection H1 as <-. eauto.
    + destruct (Dom.createText _ _) as [t d]. eauto.
  - destruct (Dom.createText _ _) as [t d]. eauto.
Qed.

Lemma keeps_frame (q L A I : nat) (st st' : state) :
  keeps q st st' ->
  L <= q -> L <= length (parts st) ->
  A <= length (arrays st) -> I <= length (instances st) ->
  frame L A I st st'.
Proof.
  intros (Hp & _ & Ha & Hi & ? & ? & ?) ? ? ? ?.
  repeat split; try lia.
  - intros p ?. apply Hp; lia.
  - intros a ?. apply Ha. lia.
  - intros i ?. apply Hi. lia.
Qed.

Lemma frame_keeps (q : nat) (st st' : state) :
  frame (length (parts st)) (length (arrays st)) (length (instances st))
    st st' ->
  keeps q st st'.
Proof.
  intros (Hp & Ha & Hi & ? & ? & ?). split.
  - intros p ? _. now apply Hp.
  - repeat split; try lia; auto; intros; lia.
Qed.

Lemma keeps_set_previousValue (q : nat) (r : previous) (d : DOM)
    (st : state) :
  keeps q st (set_previousValue q r (with_document d st)).
Proof.
  split.
  - intros p _ Hne. unfold set_previousValue. cbn [parts with_document].
    destruct (parts st !! q) as [[|i s e v]|]; try reflexivity.
    cbn [parts with_parts]. apply list_lookup_insert_ne. congruence.
  - rewrite set_previousValue_document.
    unfold set_previousValue.
    destruct (parts st !! q) as [[|i s e v]|];
      repeat split; cbn; auto; try lia.
    now rewrite length_insert.
Qed.

Lemma defaultPartCallback_new (d : DOM) (i : nat) (tp : TemplatePart)
    (n : nat) (x : Part) :
  Lit.defaultPartCallback d i tp n = Ok x -> new_part x.
Proof.
  unfold Lit.defaultPartCallback.
  destruct (String.eqb (tp_type tp) "attribute").
  - intros H. apply bind_Ok in H as (strings & _ & H). now injection H as <-.
  - destruct (String.eqb (tp_type tp) "node"); [|discriminate].
    now intros [= <-].
Qed.

(** The loop of [_clone] appends new parts and records them in the
    instance. *)
Lemma clone_loop_new (i root : nat) (tparts : list TemplatePart) (fuel : nat) :
  forall (index : Z) (partIndex : nat) (node : option nat) (st st' : state)
         (inst : TemplateInstance),
    instances st !! i = Some inst ->
    Lit.clone_loop fuel i root tparts index partIndex node st = Ok st' ->
    exists new,
      parts st' = parts st ++ new
      /\ Forall new_part new
      /\ arrays st' = arrays st
      /\ instances st'
         = <[i := mkInstance
                    (_parts inst ++ seq (length (parts st)) (length new))
                    (template inst) (_partCallback inst)]> (instances st).
Proof.
  induction fuel as [|fuel IH]; intros index partIndex node st st' inst Hi H;
    [discriminate|].
  assert (Hdone : st' = st -> exists new,
    parts st' = parts st ++ new
    /\ Forall new_part new
    /\ arrays st' = arrays st
    /\ instances st'
       = <[i := mkInstance
                  (_parts inst ++ seq (length (parts st)) (length new))
                  (template inst) (_partCallback inst)]> (instances st)).
  { intros ->. exists []. rewrite !app_nil_r. repeat split; [constructor|].
    symmetry. apply list_insert_id. rewrite Hi. now destruct inst. }
  cbn [Lit.clone_loop] in H.
  destruct node as [n|]; [|injection H as <-; now apply Hdone].
  destruct (tparts !! partIndex) as [tp|];
    [|injection H as <-; now apply Hdone].
  destruct (decide (index = tp_index tp)).
  - apply bind_Ok in H as (part & Hpart & H).
    apply bind_Ok in H as (inst0 & Hinst0 & H).
    apply deref_Ok in Hinst0. rewrite Hi in Hinst0. injection Hinst0 as <-.
    eapply IH in H; cycle 1.
    { cbn [instances with_instances with_parts].
      apply list_lookup_insert_eq. eapply lookup_lt_Some; eauto. }
    destruct H as (new & Hp & Hnew & Ha & Hinst).
    cbn [parts arrays instances with_instances with_parts _parts template
         _partCallback] in *.
    exists (part :: new). split; [now rewrite Hp, <- app_assoc|].
    split.
    { constructor; [now apply defaultPartCallback_new in Hpart | exact Hnew]. }
    split; [exact Ha|].
    rewrite Hinst, list_insert_insert_eq. f_equal. f_equal.
    rewrite <- app_assoc, length_app. cbn [length app seq].
    now replace (length (parts st) + 1) with (S (length (parts st))) by lia.
  - now apply IH with (inst := inst) in H.
Qed.


Lemma _clone_new (i : nat) (st st' : state) (inst : TemplateInstance)
    (fragment : nat) :
  instances st !! i = Some inst ->
  Lit._clone i st = Ok (fragment, st') ->
  exists new,
    parts st' = parts st ++ new
    /\ Forall new_part new
    /\ arrays st' = arrays st
    /\ instances st'
       = <[i := mkInstance
                  (_parts inst ++ seq (length (parts st)) (length new))
                  (template inst) (_partCallback inst)]> (instances st).
Proof.
  intros Hi H. unfold Lit._clone in H.
  apply bind_Ok in H as (inst0 & Hinst0 & H).
  apply bind_Ok in H as (t & _ & H).
  apply bind_Ok in H as ([f d] & _ & H).
  assert (Hdone : exists new,
    parts (with_document d st) = parts st ++ new
    /\ Forall new_part new
    /\ arrays (with_document d st) = arrays st
    /\ instances (with_document d st)
       = <[i := mkInstance
                  (_parts inst ++ seq (length (parts st)) (length new))
                  (template inst) (_partCallback inst)]> (instances st)).
  { exists []. cbn [parts arrays instances with_document length seq].
    rewrite !app_nil_r. repeat split; [constructor|].
    symmetry. apply list_insert_id. rewrite Hi. now destruct inst. }
  destruct (t_parts t) as [|tp tparts].
  - injection H as _ <-. exact Hdone.
  - apply bind_Ok in H as (st1 & H1 & H). injection H as _ <-.
    now apply clone_loop_new with (inst := inst) in H1.
Qed.

Section Frame.

Variable self : nat -> value -> state -> res state.

Hypothesis Hself : frames self.

Lemma new_part_previousValue (st : state) (p : nat) (x : Part) :
  parts st !! p = Some x -> new_part x ->
  previousValue st p = Some (PValue VUndefined)
  \/ exists i e n s z, x = AttributePart i e n s z.
Proof.
  intros Hp Hx. unfold previousValue. rewrite Hp.
  destruct x as [i e n s z|i s e [[]| | | |]]; try contradiction; eauto 10.
Qed.

Lemma update_loop_frame (values : list value) (ps : list nat) :
  forall (k : Z) (st st' : state) (L A I : nat),
    L <= length (parts st) ->
    A <= length (arrays st) ->
    I <= length (instances st) ->
    (forall p, p ∈ ps ->
       L <= p /\ exists x, parts st !! p = Some x /\ new_part x) ->
    NoDup ps ->
    Lit.update_loop self ps values k st = Ok st' ->
    frame L A I st st'.
Proof.
  induction ps as [|p ps IH]; intros k st st' L A I HL HA HI Hps Hnd H.
  - injection H as <-. apply frame_refl.
  - apply NoDup_cons in Hnd as [Hnotin Hnd].
    destruct (Hps p) as (HLp & x & Hx & Hnew); [apply elem_of_cons; now left|].
    cbn [Lit.update_loop] in H. rewrite Hx in H.
    cbn [deref mbind res_bind] in H.
    assert (Hstep : forall st1 k1,
      frame L A I st st1 ->
      (forall p', p' < length (parts st) -> p' <> p ->
         parts st1 !! p' = parts st !! p') ->
      Lit.update_loop self ps values k1 st1 = Ok st' ->
      frame L A I st st').
    { intros st1 k1 Hf Hother Hrun.
      apply (frame_trans L A I st st1 st' Hf).
      destruct Hf as (_ & _ & _ & ? & ? & ?).
      apply (IH k1 st1 st'); try lia; [|exact Hnd|exact Hrun].
      intros p' Hp'.
      destruct (Hps p') as (HLp' & x' & Hx' & Hnew');
        [apply elem_of_cons; now right|].
      split; [exact HLp'|]. exists x'. split; [|exact Hnew'].
      rewrite Hother; [exact Hx'| |].
      - eapply lookup_lt_Some; eauto.
      - intros ->. contradiction. }
    destruct x as [i e n s z|i s e v].
    + apply bind_Ok in H as (st1 & H1 & H).
      unfold Lit.AttributePart_setValue in H1. rewrite Hx in H1.
      injection H1 as <-.
      eapply Hstep; [apply frame_document| |exact H].
      intros p' _ _. reflexivity.
    + apply bind_Ok in H as (st1 & H1 & H).
      destruct (new_part_previousValue st p _ Hx Hnew) as [Hprev|Habs];
        [|destruct Habs as (? & ? & ? & ? & ? & ?); discriminate].
      destruct (Hself p _ st st1 _ Hprev ltac:(constructor) H1)
        as (Hkeeps & _).
      eapply (Hstep st1); [|apply Hkeeps|exact H].
      apply (keeps_frame p); auto.
Qed.

Lemma items_loop_frame (p a : nat) (items : list value) :
  forall (partIndex : nat) (st st' : state) (n' : nat) (L I : nat)
         (l : list nat),
    L <= length (parts st) ->
    p < L ->
    a < length (arrays st) ->
    I <= length (instances st) ->
    arrays st !! a = Some l ->
    length l = partIndex ->
    Forall (fun x => L <= x) l ->
    Lit.items_loop self p a items partIndex st = Ok (n', st') ->
    frame L a I st st'
    /\ n' = partIndex + length items
    /\ exists l', arrays st' !! a = Some l' /\ length l' = n'.
Proof.
  induction items as [|item rest IH];
    intros partIndex st st' n' L I l HL Hp Ha HI Hl Hlen Hall H.
  - injection H as <- <-. split; [apply frame_refl|].
    split; [cbn; lia|]. now exists l.
  - cbn [Lit.items_loop] in H. rewrite Hl in H.
    cbn [deref mbind res_bind] in H.
    rewrite (lookup_ge_None_2 l partIndex) in H by lia.
    apply bind_Ok in H as ([q st3] & Hnew & H).
    apply bind_Ok in H as (st4 & Hrec & H).
    (* the new item part *)
    assert (Hcreated : exists st2 x,
      frame L a I st st2
      /\ arrays st2 = arrays st
      /\ q = length (parts st2)
      /\ parts st3 = parts st2 ++ [x]
      /\ (exists i s e, x = NodePart i s e (PValue VUndefined))
      /\ arrays st3 = <[a := l ++ [q]]> (arrays st2)
      /\ instances st3 = instances st2).
    { apply bind_Ok in Hnew as (np & _ & Hnew).
      apply bind_Ok in Hnew as ([itemStart st2] & Hstart & Hnew).
      apply bind_Ok in Hnew as (np2 & _ & Hnew).
      apply bind_Ok in Hnew as (l2 & Hl2 & Hnew).
      injection Hnew as <- <-.
      assert (Hst2 : frame L a I st st2 /\ arrays st2 = arrays st).
      { destruct partIndex as [|k].
        - injection Hstart as _ <-. split; [apply frame_refl|reflexivity].
        - apply bind_Ok in Hstart as (pp & Hpp & Hstart).
          apply deref_Ok in Hpp.
          destruct (Dom.createText (document st) "") as [t d].
          apply bind_Ok in Hstart as (st1 & Hins & Hstart).
          injection Hstart as _ <-.
          apply _insert_state in Hins as (d1 & ->).
          rewrite Forall_forall in Hall.
          assert (HLpp : L <= pp)
            by (apply Hall; eapply list_elem_of_lookup_2; eauto).
          split.
          + apply (frame_trans L a I st (with_document d st)
                     (with_document d1 (set_endNode pp (Some t)
                                          (with_document d st)))).
            * apply frame_document.
            * apply (frame_trans L a I _
                       (set_endNode pp (Some t) (with_document d st))).
              -- now apply frame_set_endNode.
              -- apply frame_document.
          + cbn [arrays with_document]. unfold set_endNode.
            cbn [parts with_document].
            destruct (parts st !! pp) as [[|? ? ? ?]|]; reflexivity. }
      destruct Hst2 as (Hf & Harr).
      exists st2. eexists.
      split; [exact Hf|]. split; [exact Harr|].
      split; [reflexivity|]. split; [reflexivity|].
      split; [eauto|].
      apply deref_Ok in Hl2. cbn [arrays with_parts] in Hl2.
      rewrite Harr, Hl in Hl2. injection Hl2 as <-.
      split; reflexivity. }
    destruct Hcreated as (st2 & x & Hf2 & Harr2 & Hq & Hparts3 & Hx & Harr3 & Hinst3).
    destruct Hx as (xi & xs & xe & ->).
    pose proof Hf2 as (_ & _ & _ & HL2 & HA2 & HI2).
    assert (Hf3 : frame L a I st st3).
    { apply (frame_trans L a I st st2 st3 Hf2).
      repeat split.
      - intros p' Hp'. rewrite Hparts3. apply lookup_app_l. lia.
      - intros a' Ha'. rewrite Harr3. apply list_lookup_insert_ne. lia.
      - intros i' _. now rewrite Hinst3.
      - rewrite Hparts3, length_app. lia.
      - rewrite Harr3, length_insert. lia.
      - rewrite Hinst3. lia. }
    assert (Hprev : previousValue st3 q = Some (PValue VUndefined)).
    { unfold previousValue. rewrite Hparts3, Hq.
      now rewrite lookup_app_r, Nat.sub_diag by lia. }
    destruct (Hself q item st3 st4 _ Hprev ltac:(constructor) Hrec)
      as (Hkeeps & _).
    assert (Hlen3 : length (parts st3) = S q)
      by (rewrite Hparts3, length_app, Hq; cbn; lia).
    assert (Harr3len : length (arrays st3) = length (arrays st))
      by (rewrite Harr3, length_insert, Harr2; reflexivity).
    assert (Hf4 : frame L (S a) I st3 st4).
    { apply (keeps_frame q); auto; try lia.
      rewrite Hinst3. lia. }
    assert (Hl4 : arrays st4 !! a = Some (l ++ [q])).
    { destruct Hf4 as (_ & Ha4 & _). rewrite Ha4 by lia.
      rewrite Harr3. apply list_lookup_insert_eq. rewrite Harr2. lia. }
    destruct Hf4 as (Hp4 & Ha4 & Hi4 & HL4 & HA4 & HI4).
    assert (Hinst3len : length (instances st3) = length (instances st2))
      by now rewrite Hinst3.
    assert (Hlen' : length (l ++ [q]) = S partIndex)
      by (rewrite length_app; cbn; lia).
    assert (Hall' : Forall (fun x => L <= x) (l ++ [q])).
    { apply Forall_app. split; [exact Hall|]. constructor; [lia|constructor]. }
    destruct (IH (S partIndex) st4 st' n' L I (l ++ [q])
                ltac:(lia) Hp ltac:(lia) ltac:(lia) Hl4 Hlen' Hall' H)
      as (Hf & Hn & Hl').
    split.
    +
      apply (frame_trans L a I st st3 st' Hf3).
      apply (frame_trans L a I st3 st4 st'); [|exact Hf].
      repeat split; auto; try lia.
    + split; [cbn [length]; lia | exact Hl'].
Qed.

End Frame.

Lemma set_previousValue_heaps (q : nat) (r : previous) (st : state) :
  arrays (set_previousValue q r st) = arrays st
  /\ instances (set_previousValue q r st) = instances st
  /\ length (parts (set_previousValue q r st)) = length (parts st)
  /\ forall p, p <> q -> parts (set_previousValue q r st) !! p = parts st !! p.
Proof.
  unfold set_previousValue.
  destruct (parts st !! q) as [[|i s e v]|]; repeat split; auto.
  - cbn [parts with_parts]. now rewrite length_insert.
  - intros p Hne. cbn [parts with_parts]. apply list_lookup_insert_ne. congruence.
Qed.

Lemma previousValue_lookup (st st' : state) (q : nat) :
  parts st' !! q = parts st !! q -> previousValue st' q = previousValue st q.
Proof. unfold previousValue. now intros ->. Qed.

Lemma _setText_frames (q : nat) (v : value) (w : previous)
    (st st' : state) :
  previousValue st q = Some w ->
  textual v ->
  Lit._setText q v st = Ok st' ->
  keeps q st st'
  /\ exists r, previousValue st' q = Some r /\ rendered v w r.
Proof.
  intros Hprev Ht H. apply _setText_state in H as (d & ->). split.
  - apply keeps_set_previousValue.
  - exists (PValue v). split; [|right; left; auto].
    apply previousValue_set. rewrite previousValue_document. eauto.
Qed.

Section Body.

Variable self : nat -> value -> state -> res state.
Hypothesis Hself : frames self.

Lemma _setTemplateResult_frames (q t : nat) (values : list value)
    (w : previous) (st st' : state) :
  previousValue st q = Some w ->
  holds_no_parts w ->
  Lit._setTemplateResult self q t values st = Ok st' ->
  keeps q st st'
  /\ exists i, previousValue st' q = Some (PInstance i).
Proof.
  intros Hprev Hw H. unfold Lit._setTemplateResult in H.
  apply bind_Ok in H as (np & Hnp & H). apply nodePartOf_Ok in Hnp.
  assert (Hq : q < length (parts st)) by (eapply lookup_lt_Some; eauto).
  unfold previousValue in Hprev. rewrite Hnp in Hprev.
  injection Hprev as Hprev. rewrite Hprev in H.
  apply bind_Ok in H as ([i st4] & Hnew & H).
  assert (Hnew' :
    (owner ← deref (instances st !! np_instance np);
     let '(i, st) := Lit.TemplateInstance_new t (_partCallback owner) st in
     '(fragment, st) ← Lit._clone i st;
     st ← Lit._setNode q fragment st;
     Ok (i, set_previousValue q (PInstance i) st)) = Ok (i, st4))
    by (destruct w; try contradiction; exact Hnew).
  clear Hnew. rename Hnew' into Hnew.
  apply bind_Ok in Hnew as (owner & _ & Hnew).
  unfold Lit.TemplateInstance_new in Hnew.
  apply bind_Ok in Hnew as ([fragment st2] & Hclone & Hnew).
  apply bind_Ok in Hnew as (st3 & Hnode & Hnew).
  injection Hnew as <- <-.
  set (i := length (instances st)) in *.
  set (st1 := with_instances _ st) in Hclone.
  assert (Hi1 : instances st1 !! i
                = Some (mkInstance [] t (_partCallback owner))).
  { unfold st1, i. cbn [instances with_instances].
    now rewrite lookup_app_r, Nat.sub_diag by lia. }
  destruct (_clone_new i st1 st2 _ fragment Hi1 Hclone)
    as (new & Hparts2 & Hnew & Harr2 & Hinst2).
  cbn [_parts template _partCallback app] in Hinst2.
  apply _setNode_state in Hnode as (d & ->).
  rewrite set_previousValue_twice in H.
  destruct (set_previousValue_heaps q (PInstance i) (with_document d st2))
    as (Harr4 & Hinst4 & Hlen4 & Hparts4).
  cbn [arrays instances parts with_document] in Harr4, Hinst4, Hlen4, Hparts4.
  set (st4 := set_previousValue q (PInstance i) (with_document d st2)) in *.
  assert (Hlen2 : length (parts st2) = length (parts st) + length new).
  { rewrite Hparts2, length_app. reflexivity. }
  assert (Hprev4 : previousValue st4 q = Some (PInstance i)).
  { unfold st4. apply previousValue_set. rewrite previousValue_document.
    unfold previousValue. rewrite Hparts2.
    rewrite lookup_app_l by (unfold st1; cbn; lia).
    unfold st1. cbn [parts with_instances]. rewrite Hnp. eauto. }
  unfold Lit.update in H. apply bind_Ok in H as (inst & Hinst & H).
  apply deref_Ok in Hinst. rewrite Hinst4, Hinst2 in Hinst.
  rewrite list_lookup_insert_eq in Hinst
    by (unfold st1; cbn [instances with_instances]; rewrite length_app; cbn;
        unfold i; lia).
  injection Hinst as <-. cbn [_parts] in H.
  assert (Hframe : frame (length (parts st)) (length (arrays st))
                     (length (instances st)) st4 st').
  { apply (update_loop_frame self Hself values
             (seq (length (parts st)) (length new)) 0 st4 st'); try lia.
    - rewrite Harr4, Harr2. unfold st1. cbn. lia.
    - rewrite Hinst4, Hinst2, length_insert. unfold st1.
      cbn [instances with_instances]. rewrite length_app. lia.
    - intros p Hp. apply elem_of_seq in Hp. unfold st1 in Hp. cbn in Hp.
      split; [lia|].
      rewrite Hparts4 by lia. rewrite Hparts2.
      unfold st1. cbn [parts with_instances].
      rewrite lookup_app_r by lia.
      destruct (new !! (p - length (parts st))) as [x|] eqn:Hx.
      + exists x. split; [reflexivity|].
        rewrite Forall_forall in Hnew. apply Hnew.
        eapply list_elem_of_lookup_2; eauto.
      + apply lookup_ge_None in Hx. lia.
    - apply NoDup_seq.
    - exact H. }
  destruct Hframe as (Hp' & Ha' & Hi' & HL' & HA' & HI').
  split.
  - split.
    + intros p Hp Hne. rewrite Hp' by lia. rewrite Hparts4 by exact Hne.
      rewrite Hparts2. unfold st1. cbn [parts with_instances].
      now apply lookup_app_l.
    + repeat split; try lia.
      * intros a Ha. rewrite Ha' by lia. rewrite Harr4, Harr2. reflexivity.
      * intros j Hj. rewrite Hi' by lia. rewrite Hinst4, Hinst2.
        rewrite list_lookup_insert_ne by (unfold i; lia).
        unfold st1. cbn [instances with_instances]. now apply lookup_app_l.
      * rewrite Harr4, Harr2 in HA'. unfold st1 in HA'. cbn in HA'. lia.
      * rewrite Hinst4, Hinst2, length_insert in HI'. unfold st1 in HI'.
        cbn [instances with_instances] in HI'. rewrite length_app in HI'. lia.
  - exists i. rewrite <- Hprev4. apply previousValue_lookup. apply Hp'. lia.
Qed.

Lemma _setIterable_frames (q : nat) (items : list value) (w : previous)
    (st st' : state) :
  previousValue st q = Some w ->
  holds_no_parts w ->
  Lit._setIterable self q items st = Ok st' ->
  keeps q st st'
  /\ ((exists a, previousValue st' q = Some (PParts a))
      \/ (previousValue st' q = Some (PValue VUndefined) /\ items = [])).
Proof.
  intros Hprev Hw H. unfold Lit._setIterable in H.
  apply bind_Ok in H as (np & Hnp & H). apply nodePartOf_Ok in Hnp.
  assert (Hq : q < length (parts st)) by (eapply lookup_lt_Some; eauto).
  pose proof Hprev as Hprev0.
  unfold previousValue in Hprev. rewrite Hnp in Hprev.
  injection Hprev as Hprev. rewrite Hprev in H.
  apply bind_Ok in H as ([a st2] & Hstart & H).
  assert (Hstart' :
    (st ← Lit.clear q (np_startNode np) st;
     let a := length (arrays st) in
     Ok (a, set_previousValue q (PParts a)
              (with_arrays (arrays st ++ [[]]) st))) = Ok (a, st2))
    by (destruct w; try contradiction; exact Hstart).
  clear Hstart. rename Hstart' into Hstart.
  apply bind_Ok in Hstart as (st1 & Hclear & Hstart).
  apply clear_state in Hclear as (d & ->).
  injection Hstart as <- <-.
  cbn [arrays with_document] in H.
  destruct (set_previousValue_heaps q (PParts (length (arrays st)))
              (with_arrays (arrays st ++ [[]]) (with_document d st)))
    as (Harr2 & Hinst2 & Hlen2 & Hparts2).
  cbn [arrays instances parts with_document with_arrays]
    in Harr2, Hinst2, Hlen2, Hparts2.
  set (a := length (arrays st)) in *.
  set (st2 := set_previousValue q (PParts a) _) in *.
  assert (Hprev2 : previousValue st2 q = Some (PParts a)).
  { unfold st2. apply previousValue_set. unfold previousValue.
    cbn [parts with_arrays with_document]. rewrite Hnp. eauto. }
  apply bind_Ok in H as ([n' st3] & Hloop & H).
  destruct (items_loop_frame self Hself q a items 0 st2 st3 n'
              (length (parts st)) (length (instances st)) [])
    as (Hframe & Hn' & l' & Hl' & Hlen'); try lia; auto.
  { rewrite Harr2, length_app. cbn. unfold a. lia. }
  { rewrite Hinst2. lia. }
  { rewrite Harr2. unfold a. now rewrite lookup_app_r, Nat.sub_diag by lia. }
  destruct Hframe as (Hp3 & Ha3 & Hi3 & HL3 & HA3 & HI3).
  assert (Hkeeps3 : keeps q st st3).
  { split.
    - intros p Hp Hne. rewrite Hp3 by lia. now apply Hparts2.
    - repeat split; try lia.
      + intros a' Ha'. rewrite Ha3 by (unfold a; lia). rewrite Harr2.
        now apply lookup_app_l.
      + intros j Hj. rewrite Hi3 by lia. now rewrite Hinst2.
      + rewrite Harr2, length_app in HA3. lia.
      + rewrite Hinst2 in HI3. lia. }
  assert (Hprev3 : previousValue st3 q = Some (PParts a)).
  { rewrite <- Hprev2. apply previousValue_lookup. apply Hp3. lia. }
  apply bind_Ok in H as (itemParts & Hitems & H).
  apply deref_Ok in Hitems. rewrite Hl' in Hitems. injection Hitems as <-.
  cbn [Nat.add] in Hn'.
  destruct n' as [|k].
  - apply bind_Ok in H as (np3 & _ & H).
    apply bind_Ok in H as (st4 & Hclear & H).
    apply clear_state in Hclear as (d' & ->). injection H as <-.
    destruct (set_previousValue_heaps q (PValue VUndefined)
                (with_document d' st3)) as (Harr5 & Hinst5 & Hlen5 & Hparts5).
    cbn [arrays instances parts with_document] in Harr5, Hinst5, Hlen5, Hparts5.
    destruct Hkeeps3 as (Hk1 & Hk2 & Hk3 & Hk4 & Hk5 & Hk6 & Hk7).
    split.
    + split.
      * intros p Hp Hne. rewrite Hparts5 by exact Hne. now apply Hk1.
      * repeat split; try lia.
        -- intros a' Ha'. rewrite Harr5. now apply Hk3.
        -- intros j Hj. rewrite Hinst5. now apply Hk4.
        -- now rewrite Harr5.
        -- now rewrite Hinst5.
    + right. split.
      * apply previousValue_set. rewrite previousValue_document. eauto.
      * destruct items; [reflexivity | discriminate].
  - rewrite Hlen' in H. rewrite Nat.ltb_irrefl in H. injection H as <-.
    split; [exact Hkeeps3|]. left. now exists a.
Qed.

Lemma setValue_body_frames : frames (Lit.setValue_body self).
Proof.
  intros q v st st' w Hprev Hw H. unfold Lit.setValue_body in H.
  pose proof Hprev as Hpart. unfold previousValue in Hpart.
  destruct (parts st !! q) as [[|i s e old]|] eqn:Hq; try discriminate.
  injection Hpart as ->.
  set (v' := Lit.getValue q v) in *.
  destruct (JS.is_object v') eqn:Hobj; cbn [negb] in H.
  - destruct v' as [| |b|z|x|items|repr items|t values|repr n|repr t|repr
                    |repr f] eqn:Hv';
      try discriminate.
    + apply (_setIterable_frames q items w st st' Hprev Hw) in H
        as (Hk & [[a Ha]|[Hu ->]]).
      * split; [exact Hk|]. exists (PParts a). split; [exact Ha|].
        do 5 right. left. exists a. split; [reflexivity|]. cbn. eauto.
      * split; [exact Hk|]. exists (PValue VUndefined). split; [exact Hu|].
        do 6 right. split; reflexivity.
    + apply (_setIterable_frames q items w st st' Hprev Hw) in H
        as (Hk & [[a Ha]|[Hu ->]]).
      * split; [exact Hk|]. exists (PParts a). split; [exact Ha|].
        do 5 right. left. exists a. split; [reflexivity|]. cbn. eauto.
      * split; [exact Hk|]. exists (PValue VUndefined). split; [exact Hu|].
        do 6 right. split; reflexivity.
    + apply (_setTemplateResult_frames q t values w st st' Hprev Hw) in H
        as (Hk & i0 & Hi0).
      split; [exact Hk|]. exists (PInstance i0). split; [exact Hi0|].
      do 4 right. left. exists i0, t, values. split; reflexivity.
    + apply _setNode_state in H as (d & ->). split.
      * apply keeps_set_previousValue.
      * exists (PNode n). split.
        -- apply previousValue_set. rewrite previousValue_document. eauto.
        -- do 2 right. left. exists repr, n. split; reflexivity.
    + unfold Lit._setPromise in H. injection H as <-. split.
      * apply (keeps_set_previousValue q _ (document st)
                 (with_reactions (reactions st ++ [(t, q)]) st)) .
      * exists (PThenable t). split.
        -- apply previousValue_set. unfold previousValue.
           cbn [parts with_reactions]. rewrite Hq. eauto.
        -- do 3 right. left. exists repr, t. split; reflexivity.
    + now apply (_setText_frames q _ w st st' Hprev) in H.
    + now apply (_setText_frames q _ w st st' Hprev) in H.
  - unfold nodePartOf in H. rewrite Hq in H.
    cbn [mbind res_bind np_previousValue] in H.
    assert (Htext : textual v')
      by (destruct v'; try exact Logic.I; discriminate).
    assert (Hset : Lit._setText q v' st = Ok st' ->
      keeps q st st'
      /\ exists r, previousValue st' q = Some r /\ rendered v' w r)
      by (intros H'; now apply (_setText_frames q v' w st st' Hprev Htext)).
    destruct w as [old| | | |]; try (now apply Hset).
    destruct (JS.strict_eq_prim v' old) eqn:Heq; [|now apply Hset].
    injection H as <-. split.
    + apply frame_keeps. apply frame_refl.
    + exists (PValue old). split; [exact Hprev|]. left. eauto.
Qed.

End Body.

(** A call of [setValue] on a part that holds a plain value keeps the other
    parts there were, and leaves in the part what [rendered] says. *)
Lemma setValue_frames (fuel : nat) : frames (Lit.setValue fuel).
Proof.
  induction fuel as [|fuel IH].
  - intros q v st st' w _ H. discriminate.
  - cbn [Lit.setValue]. now apply setValue_body_frames.
Qed.

Lemma setValue_thenable (fuel : nat) (st : state) (p t : nat)
    (repr : string) :
  Lit.setValue (S fuel) p (VThenable repr t) st
  = Ok (set_previousValue p (PThenable t)
          (with_reactions (reactions st ++ [(t, p)]) st)).
Proof. reflexivity. Qed.

Lemma reaction_current (fuel : nat) (st : state) (p t : nat) (v : value) :
  previousValue st p = Some (PThenable t) ->
  Lit.reaction fuel t p v st = Lit.setValue fuel p v st.
Proof.
  unfold previousValue, Lit.reaction, nodePartOf. intros H.
  destruct (parts st !! p) as [[|i s e old]|]; try discriminate.
  injection H as ->. cbn [mbind res_bind np_previousValue].
  destruct (decide (t = t)); [reflexivity | congruence].
Qed.

Lemma reaction_stale (fuel : nat) (st : state) (p t : nat) (v : value) :
  is_Some (previousValue st p) ->
  previousValue st p <> Some (PThenable t) ->
  Lit.reaction fuel t p v st = Ok st.
Proof.
  unfold previousValue, Lit.reaction, nodePartOf. intros [r Hr] H.
  destruct (parts st !! p) as [[|i s e old]|]; try discriminate.
  cbn [mbind res_bind np_previousValue].
  destruct old as [| |t'| |]; try reflexivity.
  destruct (decide _) as [->|]; [congruence | reflexivity].
Qed.

Lemma rendered_not_thenable (v : value) (t : nat) (r : previous) :
  rendered v (PThenable t) r ->
  (forall repr, v <> VThenable repr t) ->
  r <> PThenable t.
Proof.
  intros [(_ & _ & old & Hold & _)|[(-> & _)|[(? & ? & -> & _)|
          [(repr & t' & -> & ->)|[(? & ? & ? & -> & _)|[(? & -> & _)|(-> & _)]]]]]]
    Hne; try discriminate.
  intros [= ->]. now apply (Hne repr).
Qed.

(** C4: a [NodePart] is given the thenable [t]: it holds [t] as its previous
    value, and the callback is registered. The callback applies the
    resolved value, by calling [setValue] again, when the previous value of
    the part is still [t], and does nothing otherwise. When [setValue] is
    called with a different value before [t] resolves, the previous value is
    no longer [t], so the resolution leaves the state as the newer call made
    it; so does [resolve] when this callback is the only one waiting
    for [t]. *)
Theorem stale_thenable_is_ignored (fuel : nat) (st : state) (p t : nat)
    (repr : string)
    (Hp : is_Some (previousValue st p)) :
  exists st1,
    Lit.setValue (S fuel) p (VThenable repr t) st = Ok st1
    /\ previousValue st1 p = Some (PThenable t)
    /\ reactions st1 = reactions st ++ [(t, p)]
    /\ (forall fuel' st' v,
          previousValue st' p = Some (PThenable t) ->
          Lit.reaction fuel' t p v st' = Lit.setValue fuel' p v st')
    /\ (forall fuel' st' v,
          is_Some (previousValue st' p) ->
          previousValue st' p <> Some (PThenable t) ->
          Lit.reaction fuel' t p v st' = Ok st')
    /\ (forall fuel2 v2 st2,
          (forall repr2, Lit.getValue p v2 <> VThenable repr2 t) ->
          Lit.setValue fuel2 p v2 st1 = Ok st2 ->
          is_Some (previousValue st2 p)
          /\ previousValue st2 p <> Some (PThenable t)
          /\ (forall fuel3 v, Lit.reaction fuel3 t p v st2 = Ok st2)
          /\ (forall fuel3 v,
                filter (fun r => r.1 = t) (reactions st2) = [(t, p)] ->
                Lit.resolve fuel3 t v st2
                = Ok (with_reactions
                        (filter (fun r => r.1 <> t) (reactions st2)) st2))).
Proof.
  eexists. split; [now apply setValue_thenable|].
  assert (Hprev1 :
    previousValue
      (set_previousValue p (PThenable t)
         (with_reactions (reactions st ++ [(t, p)]) st)) p
    = Some (PThenable t)).
  { now apply previousValue_set. }
  split; [exact Hprev1|].
  split.
  { unfold set_previousValue. cbn [parts with_reactions].
    destruct (parts st !! p) as [[|? ? ? ?]|]; reflexivity. }
  split; [intros fuel' st' v; apply reaction_current|].
  split; [intros fuel' st' v; apply reaction_stale|].
  intros fuel2 v2 st2 Hne Hset.
  destruct (setValue_frames fuel2 p v2 _ st2 _ Hprev1 Logic.I Hset)
    as (_ & r & Hr & Hrendered).
  pose proof (rendered_not_thenable _ t r Hrendered Hne) as Hnot.
  assert (Hsome : is_Some (previousValue st2 p)) by (rewrite Hr; eauto).
  assert (Hstale : previousValue st2 p <> Some (PThenable t))
    by (rewrite Hr; congruence).
  split; [exact Hsome|]. split; [exact Hstale|].
  split; [intros fuel3 v; now apply reaction_stale|].
  intros fuel3 v Honly.
  unfold Lit.resolve.
  set (st3 := with_reactions _ st2).
  assert (Hst3 : forall v0, Lit.reaction fuel3 t p v0 st3 = Ok st3).
  { intros v0. apply reaction_stale; assumption. }
  assert (Hrun : forall l,
    filter (fun r => r.1 = t) l = [(t, p)] ->
    Lit.run_reactions fuel3 t v l st3 = Ok st3).
  { induction l as [|[t' p'] l IH]; [discriminate|].
    intros Hl. cbn [Lit.run_reactions].
    rewrite filter_cons in Hl. cbn [fst] in Hl.
    destruct (decide (t' = t)) as [->|Hne'].
    - injection Hl as -> Hl. rewrite Hst3. cbn [mbind res_bind].
      clear IH. induction l as [|[t'' p''] l IH]; [reflexivity|].
      cbn [Lit.run_reactions]. rewrite filter_cons in Hl. cbn [fst] in Hl.
      destruct (decide (t'' = t)); [discriminate|]. now apply IH.
    - now apply IH. }
  now apply Hrun.
Qed.

Lemma stale_thenable_is_ignored_witness :
  exists st1,
    Lit.setValue 1 0 (VThenable "[object Promise]" 1) p_rendered_x = Ok st1
    /\ previousValue st1 0 = Some (PThenable 1)
    /\ reactions st1 = reactions p_rendered_x ++ [(1, 0)]
    /\ (forall fuel' st' v,
          previousValue st' 0 = Some (PThenable 1) ->
          Lit.reaction fuel' 1 0 v st' = Lit.setValue fuel' 0 v st')
    /\ (forall fuel' st' v,
          is_Some (previousValue st' 0) ->
          previousValue st' 0 <> Some (PThenable 1) ->
          Lit.reaction fuel' 1 0 v st' = Ok st')
    /\ (forall fuel2 v2 st2,
          (forall repr2, Lit.getValue 0 v2 <> VThenable repr2 1) ->
          Lit.setValue fuel2 0 v2 st1 = Ok st2 ->
          is_Some (previousValue st2 0)
          /\ previousValue st2 0 <> Some (PThenable 1)
          /\ (forall fuel3 v, Lit.reaction fuel3 1 0 v st2 = Ok st2)
          /\ (forall fuel3 v,
                filter (fun r => r.1 = 1) (reactions st2) = [(1, 0)] ->
                Lit.resolve fuel3 1 v st2
                = Ok (with_reactions
                        (filter (fun r => r.1 <> 1) (reactions st2)) st2))).
Proof.
  apply (stale_thenable_is_ignored 0 p_rendered_x 0 1 "[object Promise]").
  exists (PValue (VStr "x")). vm_compute. reflexivity.
Defined.

(** The race of the specification, evaluated on the paragraph that shows
    "x": the part is given the thenable 1, then the string "new" before the
    thenable resolves to "late"; the resolution leaves the Text node with
    "new". Without the newer call the resolution writes "late". *)
Lemma thenable_race :
  exists st1 st2 st3 st4,
    Lit.setValue 1 0 (VThenable "[object Promise]" 1) p_rendered_x = Ok st1
    /\ Lit.setValue 1 0 (VStr "new") st1 = Ok st2
    /\ Lit.resolve 1 1 (VStr "late") st2 = Ok st3
    /\ children_data st3 2 = [(3, ""); (5, "new"); (4, "")]
    /\ Lit.resolve 1 1 (VStr "late") st1 = Ok st4
    /\ children_data st4 2 = [(3, ""); (5, "late"); (4, "")].
Proof.
  do 4 eexists.
  split; [vm_compute; reflexivity|].
  split; [vm_compute; reflexivity|].
  split; [vm_compute; reflexivity|].
  split; [vm_compute; reflexivity|].
  split; [vm_compute; reflexivity|].
  vm_compute. reflexivity.
Qed.

(** ** More fuel gives the same result *)

Lemma bind_extends {A B} (m m' : res A) (k k' : A -> res B) (r : res B) :
  m ≫= k = r -> r <> Diverge ->
  (m <> Diverge -> m' = m) ->
  (forall a, m = Ok a -> k a <> Diverge -> k' a = k a) ->
  m' ≫= k' = r.
Proof.
  intros H Hr Hm Hk. destruct m as [a|e|].
  - rewrite Hm by discriminate. cbn in *. rewrite Hk; auto. congruence.
  - rewrite Hm by discriminate. exact H.
  - cbn in H. congruence.
Qed.

Section Extends.

Variables f g : nat -> value -> state -> res state.
Hypothesis Hfg : extends f g.

Lemma update_loop_extends (values : list value) (ps : list nat) :
  forall (k : Z) (st : state) (r : res state),
    Lit.update_loop f ps values k st = r -> r <> Diverge ->
    Lit.update_loop g ps values k st = r.
Proof.
  induction ps as [|p ps IH]; intros k st r H Hr; [exact H|].
  cbn [Lit.update_loop] in *.
  eapply bind_extends; [exact H|exact Hr|reflexivity|].
  intros [i e n s z|i s e v] _ Hnd; cbn beta iota in *.
  - eapply bind_extends; [reflexivity|exact Hnd|reflexivity|].
    intros st1 _ Hnd1. now apply IH.
  - eapply bind_extends; [reflexivity|exact Hnd| |].
    + intros Hnd1. now apply Hfg.
    + intros st1 _ Hnd1. now apply IH.
Qed.

Lemma update_extends (i : nat) (values : list value) (st : state)
    (r : res state) :
  Lit.update f i values st = r -> r <> Diverge ->
  Lit.update g i values st = r.
Proof.
  unfold Lit.update. intros H Hr.
  eapply bind_extends; [exact H|exact Hr|reflexivity|].
  intros inst _ Hnd. now apply update_loop_extends.
Qed.

Lemma _setTemplateResult_extends (p t : nat) (values : list value)
    (st : state) (r : res state) :
  Lit._setTemplateResult f p t values st = r -> r <> Diverge ->
  Lit._setTemplateResult g p t values st = r.
Proof.
  unfold Lit._setTemplateResult. intros H Hr.
  eapply bind_extends; [exact H|exact Hr|reflexivity|].
  intros np _ Hnd.
  eapply bind_extends; [reflexivity|exact Hnd|reflexivity|].
  intros [i st1] _ Hnd1. now apply update_extends.
Qed.

Lemma items_loop_extends (p a : nat) (items : list value) :
  forall (partIndex : nat) (st : state) (r : res (nat * state)),
    Lit.items_loop f p a items partIndex st = r -> r <> Diverge ->
    Lit.items_loop g p a items partIndex st = r.
Proof.
  induction items as [|item rest IH]; intros partIndex st r H Hr; [exact H|].
  cbn [Lit.items_loop] in *.
  eapply bind_extends; [exact H|exact Hr|reflexivity|].
  intros itemParts _ Hnd.
  eapply bind_extends; [reflexivity|exact Hnd|reflexivity|].
  intros [itemPart st1] _ Hnd1.
  eapply bind_extends; [reflexivity|exact Hnd1| |].
  - intros Hnd2. now apply Hfg.
  - intros st2 _ Hnd2. now apply IH.
Qed.

Lemma _setIterable_extends (p : nat) (items : list value) (st : state)
    (r : res state) :
  Lit._setIterable f p items st = r -> r <> Diverge ->
  Lit._setIterable g p items st = r.
Proof.
  unfold Lit._setIterable. intros H Hr.
  eapply bind_extends; [exact H|exact Hr|reflexivity|].
  intros np _ Hnd.
  eapply bind_extends; [reflexivity|exact Hnd|reflexivity|].
  intros [a st1] _ Hnd1.
  eapply bind_extends; [reflexivity|exact Hnd1| |reflexivity].
  intros Hnd2. now apply items_loop_extends.
Qed.

Lemma setValue_body_extends :
  extends (Lit.setValue_body f) (Lit.setValue_body g).
Proof.
  intros p v st r H Hr. unfold Lit.setValue_body in *.
  destruct (negb (JS.is_object (Lit.getValue p v))); [exact H|].
  destruct (Lit.getValue p v); try exact H.
  - now apply _setIterable_extends.
  - now apply _setIterable_extends.
  - now apply _setTemplateResult_extends.
Qed.

End Extends.

(** The result of [setValue], once it has one, is that of any larger
    fuel. *)
Lemma setValue_more_fuel (fuel : nat) :
  extends (Lit.setValue fuel) (Lit.setValue (S fuel)).
Proof.
  induction fuel as [|fuel IH].
  - intros p v st r H Hr. cbn in H. congruence.
  - intros p v st r H Hr.
    change (Lit.setValue_body (Lit.setValue (S fuel)) p v st = r).
    change (Lit.setValue_body (Lit.setValue fuel) p v st = r) in H.
    now apply (setValue_body_extends _ _ IH).
Qed.

Lemma setValue_fuel_le (fuel fuel' : nat) :
  fuel <= fuel' -> extends (Lit.setValue fuel) (Lit.setValue fuel').
Proof.
  induction 1 as [|fuel' _ IH].
  - intros p v st r H _. exact H.
  - intros p v st r H Hr. apply setValue_more_fuel; [|exact Hr].
    now apply IH.
Qed.

Lemma render_fuel_le (fuel fuel' : nat) (t : nat) (values : list value)
    (container : nat) (pc : partCallback) (st : state) (r : res state) :
  fuel <= fuel' ->
  Lit.render fuel t values container pc st = r -> r <> Diverge ->
  Lit.render fuel' t values container pc st = r.
Proof.
  intros Hle H Hr. unfold Lit.render in *.
  pose proof (setValue_fuel_le fuel fuel' Hle) as Hext.
  destruct (match __templateInstance st !! container with
            | Some i => _
            | None => _
            end) as [i|].
  - now apply (update_extends _ _ Hext).
  - destruct (Lit.TemplateInstance_new t pc st) as [i st1].
    eapply bind_extends; [exact H|exact Hr|reflexivity|].
    intros [fragment st2] _ Hnd.
    eapply bind_extends; [reflexivity|exact Hnd| |reflexivity].
    intros Hnd1. now apply (update_extends _ _ Hext).
Qed.

(** ** A template that is not identical *)

(** The contrast to the update in place: the second render comes from
    another strings array with the same strings, so from another Template;
    the container's instance is replaced, the paragraph that was rendered,
    node 2, is removed, and a new paragraph, node 7, is appended. *)
Lemma render_other_array_replaces :
  exists st1 st2,
    render_p 7 (VStr "x") empty_container = Ok st1
    /\ render_p 8 (VStr "y") st1 = Ok st2
    /\ __templateInstance st1 !! 0 = Some 0
    /\ __templateInstance st2 !! 0 = Some 1
    /\ Dom.children (document st1) 0 = [2]
    /\ Dom.children (document st2) 0 = [7]
    /\ Dom.parent (document st2) 2 = None
    /\ children_data st2 7 = [(8, ""); (10, "y"); (9, "")].
Proof.
  do 2 eexists.
  split; [vm_compute; reflexivity|].
  split; [vm_compute; reflexivity|].
  repeat split.
Qed.

(** ** The registry and the [key] attributes *)

Lemma indexOf_None (b : nat) (l : list nat) :
  Keybinding.indexOf b l = None <-> b ∉ l.
Proof.
  induction l as [|x l IH]; cbn [Keybinding.indexOf].
  - split; [intros _ H; inversion H | reflexivity].
  - destruct (decide (x = b)) as [->|Hne].
    + split; [discriminate | intros H; exfalso; apply H; left].
    + rewrite not_elem_of_cons, <- IH.
      destruct (Keybinding.indexOf b l); cbn; intuition congruence.
Qed.

Lemma filter_ne_notin (b : nat) (l : list nat) :
  b ∉ l -> filter (fun x => x <> b) l = l.
Proof.
  induction l as [|x l IH]; [reflexivity|].
  rewrite not_elem_of_cons. intros [Hne Hl].
  rewrite filter_cons_True by congruence. now rewrite IH.
Qed.

Lemma delete_indexOf (b : nat) (l : list nat) (i : nat) :
  NoDup l ->
  Keybinding.indexOf b l = Some i ->
  b ∈ l /\ delete i l = filter (fun x => x <> b) l.
Proof.
  revert i. induction l as [|x l IH]; intros i Hnd; cbn [Keybinding.indexOf].
  - discriminate.
  - apply NoDup_cons in Hnd as [Hx Hnd].
    destruct (decide (x = b)) as [->|Hne].
    + intros [= <-]. split; [left|].
      rewrite filter_cons_False by (intros H; now apply H).
      cbn. now rewrite filter_ne_notin.
    + destruct (Keybinding.indexOf b l) as [j|] eqn:E; [|discriminate].
      intros [= <-]. destruct (IH j Hnd eq_refl) as [Hin Hd].
      split; [now right|].
      rewrite filter_cons_True by exact Hne.
      change (delete (S j) (x :: l)) with (x :: delete j l). now rewrite Hd.
Qed.

Lemma registered_with (m : gmap string (list nat)) (r : Keybinding.registry)
    (k : string) :
  registered (Keybinding.with_registered m r) k = default [] (m !! k).
Proof. reflexivity. Qed.

Lemma unregistered_spec (this : nat) (b : option string)
    (r : Keybinding.registry) :
  lists_ok r ->
  Keybinding.elements (unregistered this b r) = Keybinding.elements r
  /\ lists_ok (unregistered this b r)
  /\ (forall k x, x ∈ registered (unregistered this b r) k <->
        x ∈ registered r k /\ ~ (x = this /\ b = Some k /\ k <> "")).
Proof.
  intros Hok. unfold unregistered, Keybinding.__register.
  destruct b as [kb|];
    [|split; [reflexivity|split; [exact Hok|]]; intuition congruence].
  unfold Keybinding.truthy.
  destruct (String.eqb kb "") eqn:Ekb; cbn [negb].
  { apply String.eqb_eq in Ekb. subst kb.
    split; [reflexivity|split; [exact Hok|]]. intuition congruence. }
  apply String.eqb_neq in Ekb.
  destruct (Keybinding.registeredElements r !! kb) as [l|] eqn:El; cycle 1.
  { split; [reflexivity|split; [exact Hok|]].
    intros k x. split; [|tauto]. intros Hx. split; [exact Hx|].
    intros (-> & [= ->] & _). unfold registered in Hx. rewrite El in Hx.
    inversion Hx. }
  destruct (Hok kb l El) as (Hne & Hnd & Hinh).
  destruct (Keybinding.indexOf this l) as [i|] eqn:Ei; cycle 1.
  { apply indexOf_None in Ei.
    split; [reflexivity|split; [exact Hok|]].
    intros k x. split; [|tauto]. intros Hx. split; [exact Hx|].
    intros (-> & [= ->] & _). unfold registered in Hx. rewrite El in Hx.
    contradiction. }
  destruct (delete_indexOf this l i Hnd Ei) as [Hin Hd]. rewrite Hd.
  assert (Hmem : forall k x,
    x ∈ default [] (<[kb := filter (fun y => y <> this) l]>
                      (Keybinding.registeredElements r) !! k)
    <-> x ∈ registered r k /\ ~ (x = this /\ Some kb = Some k /\ k <> "")).
  { intros k x. destruct (decide (kb = k)) as [<-|Hk].
    - rewrite lookup_insert_eq. unfold registered. rewrite El.
      cbn [from_option id]. rewrite list_elem_of_filter.
      intuition congruence.
    - rewrite lookup_insert_ne by exact Hk. unfold registered.
      intuition congruence. }
  destruct (filter (fun y => y <> this) l) as [|y l'] eqn:Ef.
  - split; [reflexivity|]. split.
    + intros k l0. cbn [Keybinding.registeredElements Keybinding.with_registered].
      intros H. apply lookup_delete_Some in H as [_ H]. now apply Hok.
    + intros k x. rewrite registered_with. rewrite <- Hmem.
      destruct (decide (kb = k)) as [<-|Hk].
      * now rewrite lookup_delete_eq, lookup_insert_eq.
      * now rewrite lookup_delete_ne, lookup_insert_ne.
  - split; [reflexivity|]. split.
    + intros k l0. cbn [Keybinding.registeredElements Keybinding.with_registered].
      destruct (decide (kb = k)) as [<-|Hk].
      * rewrite lookup_insert_eq. intros [= <-]. split; [discriminate|].
        split; [|exact Hinh]. rewrite <- Ef. now apply NoDup_filter.
      * rewrite lookup_insert_ne by exact Hk. apply Hok.
    + intros k x. rewrite registered_with. apply Hmem.
Qed.

Lemma __register_unregistered (this : nat) (a b : option string)
    (r : Keybinding.registry) :
  Keybinding.__register this a b r
  = Keybinding.__register this a None (unregistered this b r).
Proof. reflexivity. Qed.

Lemma registering_spec (this : nat) (a : option string)
    (r : Keybinding.registry) :
  lists_ok r ->
  (forall ka, a = Some ka -> ka <> "" ->
     (this ∉ registered r ka) /\ inherited ka = false) ->
  Keybinding.elements (Keybinding.__register this a None r)
  = Keybinding.elements r
  /\ lists_ok (Keybinding.__register this a None r)
  /\ (forall k x, x ∈ registered (Keybinding.__register this a None r) k <->
        x ∈ registered r k \/ (x = this /\ a = Some k /\ k <> "")).
Proof.
  intros Hok Hnew. unfold Keybinding.__register.
  destruct a as [ka|];
    [|split; [reflexivity|split; [exact Hok|]]; intuition congruence].
  unfold Keybinding.truthy.
  destruct (String.eqb ka "") eqn:Eka; cbn [negb].
  { apply String.eqb_eq in Eka. subst ka.
    split; [reflexivity|split; [exact Hok|]]. intuition congruence. }
  apply String.eqb_neq in Eka.
  destruct (Hnew ka eq_refl Eka) as [Hnotin Hinh].
  fold (registered r ka).
  set (l := if Keybinding.override r this then this :: registered r ka
            else registered r ka ++ [this]).
  assert (Hl : forall x, x ∈ l <-> x ∈ registered r ka \/ x = this).
  { intros x. unfold l. destruct (Keybinding.override r this).
    - rewrite elem_of_cons. tauto.
    - rewrite elem_of_app, list_elem_of_singleton. tauto. }
  assert (Hnd : NoDup l).
  { assert (Hr : NoDup (registered r ka)).
    { unfold registered.
      destruct (Keybinding.registeredElements r !! ka) as [l0|] eqn:E.
      - now apply (Hok ka l0 E).
      - apply NoDup_nil_2. }
    unfold l. destruct (Keybinding.override r this).
    - now apply NoDup_cons.
    - apply NoDup_app. split; [exact Hr|]. split; [|apply NoDup_singleton].
      intros x Hx Hx'. apply list_elem_of_singleton in Hx'. now subst. }
  split; [reflexivity|]. split.
  - intros k l0. cbn [Keybinding.registeredElements Keybinding.with_registered].
    destruct (decide (ka = k)) as [<-|Hk].
    + rewrite lookup_insert_eq. intros [= <-]. split; [|now split].
      intros E. assert (H : this ∈ l) by (apply Hl; now right).
      rewrite E in H. inversion H.
    + rewrite lookup_insert_ne by exact Hk. apply Hok.
  - intros k x. rewrite registered_with.
    destruct (decide (ka = k)) as [<-|Hk].
    + rewrite lookup_insert_eq. cbn [from_option id]. rewrite Hl.
      intuition congruence.
    + rewrite lookup_insert_ne by exact Hk. fold (registered r k).
      intuition congruence.
Qed.

Lemma __override_spec (this : nat) (a : option string)
    (r : Keybinding.registry) :
  lists_ok r ->
  Keybinding.elements (Keybinding.__override this a r)
  = Keybinding.elements r
  /\ lists_ok (Keybinding.__override this a r)
  /\ (forall k x, x ∈ registered (Keybinding.__override this a r) k <->
        x ∈ registered r k)
  /\ (forall k, a = Some k -> k <> "" -> this ∈ registered r k ->
        registered (Keybinding.__override this a r) k
        = this :: filter (fun x => x <> this) (registered r k)).
Proof.
  intros Hok. unfold Keybinding.__override.
  destruct a as [ka|];
    [|split; [reflexivity|split; [exact Hok|]]; split;
      [reflexivity | discriminate]].
  unfold Keybinding.truthy.
  destruct (String.eqb ka "") eqn:Eka; cbn [negb].
  { apply String.eqb_eq in Eka. subst ka.
    split; [reflexivity|split; [exact Hok|]]. split; [reflexivity|].
    intros k [= <-] H. now destruct H. }
  destruct (Keybinding.registeredElements r !! ka) as [l|] eqn:El; cycle 1.
  { split; [reflexivity|split; [exact Hok|]]. split; [reflexivity|].
    intros k [= <-] _ H. unfold registered in H. rewrite El in H.
    inversion H. }
  destruct (Hok ka l El) as (Hne & Hnd & Hinh).
  destruct (Keybinding.indexOf this l) as [i|] eqn:Ei; cycle 1.
  { apply indexOf_None in Ei.
    split; [reflexivity|split; [exact Hok|]]. split; [reflexivity|].
    intros k [= <-] _ H. unfold registered in H. rewrite El in H.
    contradiction. }
  destruct (delete_indexOf this l i Hnd Ei) as [Hin Hd]. rewrite Hd.
  split; [reflexivity|]. split; [|split].
  - intros k l0. cbn [Keybinding.registeredElements Keybinding.with_registered].
    destruct (decide (ka = k)) as [<-|Hk].
    + rewrite lookup_insert_eq. intros [= <-]. split; [discriminate|].
      split; [|exact Hinh]. apply NoDup_cons. split.
      * rewrite list_elem_of_filter. tauto.
      * now apply NoDup_filter.
    + rewrite lookup_insert_ne by exact Hk. apply Hok.
  - intros k x. rewrite registered_with.
    destruct (decide (ka = k)) as [<-|Hk].
    + rewrite lookup_insert_eq. cbn [from_option id]. unfold registered.
      rewrite El. cbn [from_option id].
      rewrite elem_of_cons, list_elem_of_filter.
      destruct (decide (x = this)) as [->|]; intuition congruence.
    + now rewrite lookup_insert_ne by exact Hk.
  - intros k [= <-] _ _. rewrite registered_with, lookup_insert_eq.
    unfold registered. now rewrite El.
Qed.

Lemma key_insert (r : Keybinding.registry) (this b : nat)
    (x' : Keybinding.element) (m : gmap string (list nat)) :
  this < length (Keybinding.elements r) ->
  Keybinding.key
    (Keybinding.mkRegistry (<[this := x']> (Keybinding.elements r)) m) b
  = if decide (b = this) then Keybinding.keyAttr x' else Keybinding.key r b.
Proof.
  intros Hlt. unfold Keybinding.key. cbn [Keybinding.elements].
  destruct (decide (b = this)) as [->|Hne].
  - now rewrite list_lookup_insert_eq.
  - now rewrite list_lookup_insert_ne.
Qed.

Lemma key_elements (r r' : Keybinding.registry) (b : nat) :
  Keybinding.elements r' = Keybinding.elements r ->
  Keybinding.key r' b = Keybinding.key r b.
Proof. unfold Keybinding.key. now intros ->. Qed.

Lemma changeAttribute_ok (r : Keybinding.registry) (this : nat)
    (name : string) (v : option string) :
  registry_ok r ->
  (name = "key" -> forall k, v = Some k -> inherited k = false) ->
  registry_ok (Keybinding.changeAttribute this name v r).
Proof.
  intros [Hok Hkey] Hv. unfold Keybinding.changeAttribute.
  destruct (Keybinding.elements r !! this) as [x|] eqn:Ex; [|now split].
  assert (Hlt : this < length (Keybinding.elements r))
    by (eapply lookup_lt_Some; eauto).
  assert (Hold : Keybinding.key r this = Keybinding.keyAttr x)
    by (unfold Keybinding.key; now rewrite Ex).
  destruct (String.eqb name "key") eqn:Ename.
  - apply String.eqb_eq in Ename. subst name.
    unfold Keybinding.attributeChangedCallback.
    cbn [String.eqb Ascii.eqb Bool.eqb].
    set (r1 := Keybinding.mkRegistry _ _).
    assert (Hok1 : lists_ok r1) by exact Hok.
    rewrite __register_unregistered.
    destruct (unregistered_spec this (Keybinding.keyAttr x) r1 Hok1)
      as (He2 & Hok2 & Hm2).
    assert (Hnew : forall ka, v = Some ka -> ka <> "" ->
              (this ∉ registered
                        (unregistered this (Keybinding.keyAttr x) r1) ka)
              /\ inherited ka = false).
    { intros ka -> Hka. split; [|now apply Hv].
      rewrite Hm2. intros [Hin Hn]. apply Hn.
      apply Hkey in Hin as [Hk _]. rewrite Hold in Hk. auto. }
    destruct (registering_spec this v _ Hok2 Hnew) as (He3 & Hok3 & Hm3).
    split; [exact Hok3|].
    intros k b. rewrite Hm3, Hm2.
    rewrite (key_elements r1 _ b) by (now rewrite He3, He2).
    unfold r1. rewrite key_insert by exact Hlt. cbn [Keybinding.keyAttr].
    change (registered _ k) with (registered r k) at 1.
    rewrite Hkey.
    destruct (decide (b = this)) as [->|Hne].
    + rewrite Hold. intuition congruence.
    + intuition congruence.
  - destruct (String.eqb name "override") eqn:Eover; [|now split].
    apply String.eqb_eq in Eover. subst name.
    unfold Keybinding.attributeChangedCallback.
    cbn [String.eqb Ascii.eqb Bool.eqb].
    set (r1 := Keybinding.mkRegistry _ _).
    assert (Hok1 : lists_ok r1) by exact Hok.
    destruct (__override_spec this (Keybinding.key r1 this) r1 Hok1)
      as (He2 & Hok2 & Hm2 & _).
    split; [exact Hok2|].
    intros k b. rewrite Hm2.
    rewrite (key_elements r1 _ b) by exact He2.
    unfold r1. rewrite key_insert by exact Hlt. cbn [Keybinding.keyAttr].
    change (registered _ k) with (registered r k) at 1.
    rewrite Hkey.
    destruct (decide (b = this)) as [->|Hne]; [now rewrite Hold | tauto].
Qed.

Lemma registry_ok_unkeyed (l : list Keybinding.element) :
  Forall (fun x => Keybinding.keyAttr x = None) l ->
  registry_ok (Keybinding.mkRegistry l ∅).
Proof.
  intros Hl. split.
  - intros k l0 H. cbn in H. now rewrite lookup_empty in H.
  - intros k b. unfold registered, Keybinding.key.
    cbn [Keybinding.registeredElements Keybinding.elements].
    rewrite lookup_empty. cbn [from_option id]. split.
    + intros H. inversion H.
    + intros [H _]. destruct (l !! b) as [x|] eqn:E; [|discriminate].
      rewrite Forall_forall in Hl.
      assert (Hx : x ∈ l) by (eapply list_elem_of_lookup_2; eauto).
      apply Hl in Hx. cbn in H. congruence.
Qed.

(** X1: the registry agrees with the [key] attributes, and goes on doing
    so: when it does, it still does after [setAttribute] and after
    [removeAttribute] on any element, for the attributes [key], [override]
    and any other, a new key being no name inherited from
    [Object.prototype]. So an element is in the list of a key exactly when
    that key is its [key] attribute, a non-empty string, it is there once,
    and no list is left empty. *)
Theorem registry_agrees_with_keys (r : Keybinding.registry) (this : nat)
    (name v : string) :
  registry_ok r ->
  (name = "key" -> inherited v = false) ->
  registry_ok (Keybinding.setAttribute this name v r)
  /\ registry_ok (Keybinding.removeAttribute this name r).
Proof.
  intros Hok Hv. split.
  - apply changeAttribute_ok; [exact Hok|].
    intros -> k [= <-]. now apply Hv.
  - unfold Keybinding.removeAttribute.
    destruct (Keybinding.elements r !! this) as [x|]; [|exact Hok].
    destruct (if String.eqb name "key" then _ else _); [|exact Hok].
    apply changeAttribute_ok; [exact Hok|]. discriminate.
Qed.

Lemma registry_agrees_with_keys_witness :
  registry_ok
    (Keybinding.setAttribute 1 "key" "b" (two_registered None None))
  /\ registry_ok
       (Keybinding.removeAttribute 1 "key" (two_registered None None)).
Proof.
  apply (registry_agrees_with_keys (two_registered None None) 1 "key" "b").
  - unfold two_registered.
    apply changeAttribute_ok; [|intros _ k [= <-]; reflexivity].
    apply changeAttribute_ok; [|intros _ k [= <-]; reflexivity].
    apply registry_ok_unkeyed. repeat constructor.
  - reflexivity.
Defined.

Lemma elem_of_clicked (r : Keybinding.registry) (l : list nat) (b : nat) :
  b ∈ clicked r l -> b ∈ l /\ Keybinding.visible r b = true.
Proof.
  induction l as [|x l IH]; cbn [clicked].
  - intros H. inversion H.
  - destruct (Keybinding.visible r x) eqn:Ev; [|intros H; inversion H].
    rewrite elem_of_cons. intros [->|H].
    + split; [left | exact Ev].
    + destruct (Keybinding.override r x); [inversion H|].
      apply IH in H as [H1 H2]. split; [now right | exact H2].
Qed.

Lemma NoDup_clicked (r : Keybinding.registry) (l : list nat) :
  NoDup l -> NoDup (clicked r l).
Proof.
  intros H. destruct (clicked_prefix r l) as [t Ht]. rewrite Ht in H.
  now apply NoDup_app in H as [H _].
Qed.

Lemma clicks_of_clicks (l : list nat) : clicks_of (clicks l) = l.
Proof.
  unfold clicks. induction l as [|b l IH]; [reflexivity|].
  cbn [map concat app clicks_of]. now rewrite IH.
Qed.

(** X2: in a registry that agrees with the [key] attributes, a keydown
    clicks only visible elements whose [key] attribute is the key of the
    event, each of them at most once: no element appears twice in the list
    of the clicks; and it clicks none when the default was prevented. *)
Theorem keydown_clicks_keyed_only (r : Keybinding.registry) (k : string)
    (defaultPrevented : bool) :
  registry_ok r ->
  NoDup (clicks_of (Keybinding.handleKeydown r k defaultPrevented))
  /\ (forall b,
        b ∈ clicks_of (Keybinding.handleKeydown r k defaultPrevented) ->
        defaultPrevented = false
        /\ Keybinding.key r b = Some k
        /\ Keybinding.visible r b = true).
Proof.
  intros [Hok Hkey]. unfold Keybinding.handleKeydown.
  destruct defaultPrevented.
  { cbn [clicks_of]. split; [apply NoDup_nil_2|]. intros b H. inversion H. }
  destruct (Keybinding.registeredElements r !! k) as [l0|] eqn:El; cycle 1.
  { cbn [clicks_of]. split; [apply NoDup_nil_2|]. intros b H. inversion H. }
  rewrite every_visit. cbn [app]. rewrite clicks_of_clicks. split.
  - apply NoDup_clicked. now apply (Hok k l0 El).
  - intros b Hb. apply elem_of_clicked in Hb as [Hb Hv].
    split; [reflexivity|]. split; [|exact Hv].
    apply (Hkey k b). unfold registered. now rewrite El.
Qed.

Lemma keydown_clicks_keyed_only_witness :
  NoDup (clicks_of
           (Keybinding.handleKeydown (two_registered None None) "a" false))
  /\ (forall b,
        b ∈ clicks_of
              (Keybinding.handleKeydown (two_registered None None) "a" false) ->
        false = false
        /\ Keybinding.key (two_registered None None) b = Some "a"
        /\ Keybinding.visible (two_registered None None) b = true).
Proof.
  apply (keydown_clicks_keyed_only (two_registered None None) "a" false).
  unfold two_registered.
  apply changeAttribute_ok; [|intros _ k [= <-]; reflexivity].
  apply changeAttribute_ok; [|intros _ k [= <-]; reflexivity].
  apply registry_ok_unkeyed. repeat constructor.
Defined.

Lemma changeAttribute_override (r : Keybinding.registry) (this : nat)
    (x : Keybinding.element) (k : string) (v : option string) :
  registry_ok r ->
  Keybinding.elements r !! this = Some x ->
  Keybinding.keyAttr x = Some k ->
  k <> "" ->
  let r' := Keybinding.changeAttribute this "override" v r in
  Keybinding.elements r'
  = <[this := Keybinding.mkElement (Some k) v (Keybinding.hasOffsetParent x)]>
      (Keybinding.elements r)
  /\ Keybinding.registeredElements r' !! k
     = Some (this :: filter (fun y => y <> this) (registered r k)).
Proof.
  intros [Hok Hkey] Ex Hk Hne r'. unfold r', Keybinding.changeAttribute.
  rewrite Ex. cbn [String.eqb Ascii.eqb Bool.eqb].
  unfold Keybinding.attributeChangedCallback.
  cbn [String.eqb Ascii.eqb Bool.eqb]. rewrite Hk.
  set (r1 := Keybinding.mkRegistry _ _).
  assert (Hlt : this < length (Keybinding.elements r))
    by (eapply lookup_lt_Some; eauto).
  assert (Hk1 : Keybinding.key r1 this = Some k).
  { unfold r1. rewrite key_insert by exact Hlt.
    now destruct (decide (this = this)). }
  rewrite Hk1.
  assert (Hin : this ∈ registered r k).
  { apply Hkey. unfold Keybinding.key. rewrite Ex. cbn. now split. }
  destruct (__override_spec this (Some k) r1 Hok) as (He & Hok' & _ & Hfront).
  split; [exact He|].
  specialize (Hfront k eq_refl Hne Hin).
  unfold registered in Hfront at 1.
  destruct (Keybinding.registeredElements _ !! k) as [l|] eqn:E.
  - cbn [from_option id] in Hfront. now rewrite Hfront.
  - discriminate.
Qed.

(** X3: a visible element registered for the key [k] is given the
    attribute [override], the empty string: from then on a keydown of [k]
    clicks this element and no other, wherever it was in the list. *)
Theorem override_captures_key (r : Keybinding.registry) (this : nat)
    (x : Keybinding.element) (k : string) :
  registry_ok r ->
  Keybinding.elements r !! this = Some x ->
  Keybinding.keyAttr x = Some k ->
  k <> "" ->
  Keybinding.hasOffsetParent x = true ->
  Keybinding.handleKeydown (Keybinding.setAttribute this "override" "" r)
    k false
  = [Keybinding.StopPropagation; Keybinding.Click this].
Proof.
  intros Hok Ex Hk Hne Hv.
  destruct (changeAttribute_override r this x k (Some "") Hok Ex Hk Hne)
    as [He Hl].
  fold (Keybinding.setAttribute this "override" "" r) in He, Hl.
  rewrite (handleKeydown_clicked _ _ _ Hl). cbn [clicked].
  assert (Hlt : this < length (Keybinding.elements r))
    by (eapply lookup_lt_Some; eauto).
  unfold Keybinding.visible, Keybinding.override. rewrite He.
  rewrite list_lookup_insert_eq by exact Hlt.
  cbn [Keybinding.hasOffsetParent Keybinding.overrideAttr]. rewrite Hv.
  reflexivity.
Qed.

Lemma override_captures_key_witness :
  Keybinding.handleKeydown
    (Keybinding.setAttribute 1 "override" "" (two_registered None None))
    "a" false
  = [Keybinding.StopPropagation; Keybinding.Click 1].
Proof.
  apply (override_captures_key (two_registered None None) 1
           (Keybinding.mkElement (Some "a") None true) "a").
  - unfold two_registered.
    apply changeAttribute_ok; [|intros _ k [= <-]; reflexivity].
    apply changeAttribute_ok; [|intros _ k [= <-]; reflexivity].
    apply registry_ok_unkeyed. repeat constructor.
  - reflexivity.
  - reflexivity.
  - discriminate.
  - reflexivity.
Defined.

(** X4: the [override] attribute is removed from a visible element
    registered for [k]: [attributeChangedCallback] calls [__override] all
    the same, so the element, which no longer overrides, is moved to the
    front of the list; a keydown of [k] clicks it first and goes on with
    the other elements, in the order they had. *)
Theorem override_removed_moves_first (r : Keybinding.registry) (this : nat)
    (x : Keybinding.element) (k o : string) :
  registry_ok r ->
  Keybinding.elements r !! this = Some x ->
  Keybinding.keyAttr x = Some k ->
  k <> "" ->
  Keybinding.overrideAttr x = Some o ->
  Keybinding.hasOffsetParent x = true ->
  let r' := Keybinding.removeAttribute this "override" r in
  let others := filter (fun y => y <> this) (registered r k) in
  Keybinding.override r' this = false
  /\ registered r' k = this :: others
  /\ Keybinding.handleKeydown r' k false = clicks (this :: clicked r' others).
Proof.
  intros Hok Ex Hk Hne Ho Hv r' others.
  assert (Hr' : r' = Keybinding.changeAttribute this "override" None r).
  { unfold r', Keybinding.removeAttribute. rewrite Ex.
    cbn [String.eqb Ascii.eqb Bool.eqb]. now rewrite Ho. }
  destruct (changeAttribute_override r this x k None Hok Ex Hk Hne)
    as [He Hl].
  rewrite <- Hr' in He, Hl.
  assert (Hlt : this < length (Keybinding.elements r))
    by (eapply lookup_lt_Some; eauto).
  assert (Hover : Keybinding.override r' this = false).
  { unfold Keybinding.override. rewrite He.
    now rewrite list_lookup_insert_eq by exact Hlt. }
  assert (Hvis : Keybinding.visible r' this = true).
  { unfold Keybinding.visible. rewrite He.
    now rewrite list_lookup_insert_eq by exact Hlt. }
  split; [exact Hover|]. split.
  - unfold registered. now rewrite Hl.
  - rewrite (handleKeydown_clicked _ _ _ Hl). cbn [clicked].
    now rewrite Hvis, Hover.
Qed.

Lemma override_removed_moves_first_witness :
  let r' := Keybinding.removeAttribute 1 "override"
              (two_registered None (Some "x")) in
  let others := filter (fun y => y <> 1)
                  (registered (two_registered None (Some "x")) "a") in
  Keybinding.override r' 1 = false
  /\ registered r' "a" = 1 :: others
  /\ Keybinding.handleKeydown r' "a" false = clicks (1 :: clicked r' others).
Proof.
  apply (override_removed_moves_first (two_registered None (Some "x")) 1
           (Keybinding.mkElement (Some "a") (Some "x") true) "a" "x").
  - unfold two_registered.
    apply changeAttribute_ok; [|intros _ k [= <-]; reflexivity].
    apply changeAttribute_ok; [|intros _ k [= <-]; reflexivity].
    apply registry_ok_unkeyed. repeat constructor.
  - reflexivity.
  - reflexivity.
  - discriminate.
  - reflexivity.
  - reflexivity.
Defined.

(** ** The reveals of a slide *)

Lemma lt_of_Z (a b : Z) :
  Num.lt (Num.of_Z a) (Num.of_Z b) = bool_decide (a < b)%Z.
Proof.
  cbn. destruct (Qle_bool (inject_Z b) (inject_Z a)) eqn:E.
  - apply Qle_bool_iff in E. unfold Qle in E. cbn in E.
    symmetry. apply bool_decide_eq_false. lia.
  - symmetry. apply bool_decide_eq_true.
    destruct (Z_lt_le_dec a b) as [H|H]; [exact H|].
    assert (Qle_bool (inject_Z b) (inject_Z a) = true); [|congruence].
    apply Qle_bool_iff. unfold Qle. cbn. lia.
Qed.

Lemma imap_revealed (l : list Z) (j : Z) (i : nat) :
  imap (fun n _ =>
          if bool_decide (Z.of_nat (i + n) < j)%Z then 1%Z else 0%Z) l
  = replicate (Z.to_nat (j - Z.of_nat i) `min` length l) 1%Z
    ++ replicate (length l - Z.to_nat (j - Z.of_nat i)) 0%Z.
Proof.
  revert i. induction l as [|x l IH]; intros i.
  - cbn. now rewrite Nat.min_0_r.
  - cbn [imap length]. unfold compose.
    erewrite imap_ext; cycle 1.
    { intros n y _. cbn. replace (i + S n) with (S i + n) by lia. reflexivity. }
    rewrite (IH (S i)). rewrite Nat.add_0_r.
    destruct (bool_decide (Z.of_nat i < j)%Z) eqn:E.
    + apply bool_decide_eq_true in E.
      replace (Z.to_nat (j - Z.of_nat i))
        with (S (Z.to_nat (j - Z.of_nat (S i)))) by lia.
      cbn [Nat.min replicate app Nat.sub]. reflexivity.
    + apply bool_decide_eq_false in E.
      replace (Z.to_nat (j - Z.of_nat i)) with 0 by lia.
      replace (Z.to_nat (j - Z.of_nat (S i))) with 0 by lia.
      cbn [Nat.min replicate app Nat.sub]. now rewrite Nat.sub_0_r.
Qed.

Lemma __setStep_revealed (s : slide) (l : list Z) (j : Z) :
  _steps s = Some l ->
  (0 <= j <= 2 ^ 53)%Z ->
  Slide.__setStep (Num.of_Z j) s
  = Ok (mkSlide (stepAttr s) (steps s)
          (Some (revealed (Z.to_nat (j - 1)) (length l)))).
Proof.
  intros Hl Hj. unfold Slide.__setStep. rewrite Hl.
  cbn [deref mbind res_bind]. do 3 f_equal.
  rewrite sub1_exact by exact Hj.
  erewrite imap_ext; cycle 1.
  { intros n y _. cbn beta. rewrite lt_of_Z.
    replace (Z.of_nat n) with (Z.of_nat (0 + n)) by reflexivity.
    reflexivity. }
  rewrite (imap_revealed l (j - 1) 0). unfold revealed.
  now rewrite Z.sub_0_r.
Qed.

(** X5: on a connected slide with [k] reveal elements, the [step]
    attribute is set to a value that reads as the whole number [j], from 0
    to [k + 1]: the attribute is kept, the first [j - 1] reveal elements
    get the opacity 1 and the others the opacity 0. *)
Theorem step_reveals_first (Number : option string -> num) (fuel : nat)
    (s : slide) (k : nat) (l : list Z) (v : string) (j : Z)
    (Hsteps : steps s = Some k)
    (H_steps : _steps s = Some l)
    (Hlen : length l = k)
    (Hv : Number (Some v) = Num.of_Z j)
    (Hj : (0 <= j <= Z.of_nat k + 1)%Z)
    (Hk : (Z.of_nat k + 1 <= 2 ^ 53)%Z) :
  Slide.setStepAttribute Number (S fuel) v s
  = Ok (mkSlide (Some v) (Some k) (Some (revealed (Z.to_nat (j - 1)) k))).
Proof.
  unfold Slide.setStepAttribute. rewrite attributeChangedCallback_step.
  unfold Slide.steps_plus_1. cbn [steps stepAttr _steps]. rewrite Hsteps, Hv.
  unfold Num.gt. rewrite lt_of_Z.
  rewrite bool_decide_eq_false_2 by lia.
  rewrite (__setStep_revealed _ l j) by (first [exact H_steps | lia]).
  cbn [stepAttr steps]. now rewrite Hlen.
Qed.

Lemma step_reveals_first_witness :
  Slide.setStepAttribute Number_of_digits 1 "2" two_step_slide
  = Ok (mkSlide (Some "2") (Some 2) (Some (revealed (Z.to_nat (2 - 1)) 2))).
Proof.
  apply (step_reveals_first Number_of_digits 0 two_step_slide 2 [0%Z; 0%Z]
           "2" 2).
  - reflexivity.
  - reflexivity.
  - reflexivity.
  - reflexivity.
  - lia.
  - vm_compute. discriminate.
Defined.

(** X6: on a connected slide with [k] reveal elements, the [step]
    attribute is set to a value that reads as a Number beyond [k + 1],
    [Infinity] for one: the attribute becomes the numeral of [k + 1] and
    every reveal element gets the opacity 1. *)
Theorem step_beyond_reveals_all (Number : option string -> num) (fuel : nat)
    (s : slide) (k : nat) (l : list Z) (v : string)
    (Hnum : Number (Some (pretty (S k))) = Num.of_Z (Z.of_nat k + 1))
    (Hsteps : steps s = Some k)
    (H_steps : _steps s = Some l)
    (Hlen : length l = k)
    (Hk : (Z.of_nat k + 1 <= 2 ^ 53)%Z)
    (Hbeyond : Num.gt (Number (Some v)) (Num.of_Z (Z.of_nat k + 1)) = true) :
  Slide.setStepAttribute Number (S (S fuel)) v s
  = Ok (mkSlide (Some (pretty (S k))) (Some k) (Some (replicate k 1%Z))).
Proof.
  unfold Slide.setStepAttribute. rewrite attributeChangedCallback_step.
  unfold Slide.steps_plus_1 at 1. cbn [steps stepAttr _steps].
  rewrite Hsteps, Hbeyond.
  rewrite attributeChangedCallback_step. cbn [steps stepAttr _steps].
  unfold Slide.steps_plus_1. cbn [steps].
  change (default 0 (Some k)) with k. rewrite Hnum, gt_of_Z_irrefl.
  rewrite (__setStep_revealed _ l) by (first [exact H_steps | lia]).
  cbn [stepAttr steps]. rewrite Hlen. do 3 f_equal. unfold revealed.
  replace (Z.to_nat (Z.of_nat k + 1 - 1)) with k by lia.
  now rewrite Nat.min_id, Nat.sub_diag, app_nil_r.
Qed.

Lemma step_beyond_reveals_all_witness :
  Slide.setStepAttribute Number_of_digits 2 "Infinity" two_step_slide
  = Ok (mkSlide (Some (pretty 3)) (Some 2) (Some (replicate 2 1%Z))).
Proof.
  apply (step_beyond_reveals_all Number_of_digits 0 two_step_slide 2
           [0%Z; 0%Z] "Infinity").
  - reflexivity.
  - reflexivity.
  - reflexivity.
  - reflexivity.
  - vm_compute. discriminate.
  - reflexivity.
Defined.

(** X7: on a slide that is not connected yet, [steps] and [_steps] being
    undefined, [attributeChangedCallback] called for the [step] attribute
    throws a TypeError, whatever the values: [this.steps + 1] is [NaN],
    nothing is beyond it, and [__setStep] reads [this._steps.forEach].
    Setting the attribute, which runs the callback as a reaction, returns
    all the same: the attribute holds the new value and the slide is
    otherwise as it was. *)
Theorem step_before_connected (Number : option string -> num)
    (fuel : nat) (s : slide) (old new : option string) (v : string)
    (Hsteps : steps s = None)
    (H_steps : _steps s = None) :
  Slide.attributeChangedCallback Number (S fuel) "step" old new s
  = Throw TypeError
  /\ Slide.setStepAttribute Number (S fuel) v s
     = Ok (mkSlide (Some v) None None).
Proof.
  assert (Hcall : forall old new s,
    steps s = None -> _steps s = None ->
    Slide.attributeChangedCallback Number (S fuel) "step" old new s
    = Throw TypeError).
  { intros old' new' s' Hs H_s. rewrite attributeChangedCallback_step.
    unfold Slide.steps_plus_1, Slide.__setStep. rewrite Hs, H_s.
    unfold Num.gt. cbn [Num.lt]. now destruct (Number new'). }
  split; [now apply Hcall|].
  unfold Slide.setStepAttribute. cbv zeta.
  rewrite Hcall by (cbn [steps _steps]; assumption).
  cbn [Slide.reported]. now rewrite Hsteps, H_steps.
Qed.

Lemma step_before_connected_witness :
  Slide.attributeChangedCallback Number_of_digits 1 "step" None (Some "2")
    (mkSlide None None None)
  = Throw TypeError
  /\ Slide.setStepAttribute Number_of_digits 1 "2" (mkSlide None None None)
     = Ok (mkSlide (Some "2") None None).
Proof.
  apply (step_before_connected Number_of_digits 0 (mkSlide None None None)
           None (Some "2") "2"); reflexivity.
Defined.

(** ** What follows a segment of a hash *)

Lemma no_digit_first_rest (s : string) :
  no_digit_first s ->
  s = "" \/ exists c r, s = String c r /\ Num.is_digit c = false.
Proof. destruct s as [|c r]; [now left | right; now exists c, r]. Qed.

Lemma strip_prefix_app (p s : string) :
  Deck.strip_prefix p (p +:+ s) = Some s.
Proof.
  induction p as [|c p IH]; [now rewrite append_nil_l|].
  rewrite append_cons. cbn [Deck.strip_prefix].
  now rewrite Ascii.eqb_refl.
Qed.

Lemma hash_match_slide_rest (m rest : string) :
  all_digits m = true -> m <> "" -> no_digit_first rest ->
  Deck.hash_match (slide_hash m +:+ rest)
  = (Some m,
     match Deck.strip_prefix "/step-" rest with
     | Some r =>
         match Deck.digits1 r with
         | Some (d, _) => Some d
         | None => if String.prefix "Infinity" r then Some "Infinity" else None
         end
     | None => None
     end).
Proof.
  intros Hm Hm0 Hrest. unfold Deck.hash_match, slide_hash.
  rewrite append_assoc, strip_prefix_app.
  rewrite (digits1_app m rest Hm Hm0) by now apply no_digit_first_rest.
  reflexivity.
Qed.

(** X8: for a hash that starts with [slide-<m>], [m] at most [2 ^ 53],
    and goes on with anything that is not a digit, [currentSlide] is
    [m - 1]; unless what follows starts with [/step-], [currentStep] is 0:
    a step segment counts only directly after the slide segment. *)
Theorem deck_hash_rest_ignored (m rest : string)
    (Hm : all_digits m = true) (Hm0 : m <> "")
    (Hmle : (Num.decimal m <= 2 ^ 53)%Z)
    (Hrest : no_digit_first rest) :
  Deck.currentSlide (slide_hash m +:+ rest) = Num.of_Z (Num.decimal m - 1)
  /\ (Deck.strip_prefix "/step-" rest = None ->
      Deck.currentStep (slide_hash m +:+ rest) = Num.of_Z 0).
Proof.
  unfold Deck.currentSlide, Deck.currentStep.
  rewrite (hash_match_slide_rest m rest Hm Hm0 Hrest). cbn [fst snd].
  split; [now apply index_of_group_digits|].
  now intros ->.
Qed.

Lemma deck_hash_rest_ignored_witness :
  Deck.currentSlide (slide_hash "3" +:+ "x/step-2")
  = Num.of_Z (Num.decimal "3" - 1)
  /\ (Deck.strip_prefix "/step-" "x/step-2" = None ->
      Deck.currentStep (slide_hash "3" +:+ "x/step-2") = Num.of_Z 0).
Proof.
  apply (deck_hash_rest_ignored "3" "x/step-2").
  - reflexivity.
  - discriminate.
  - vm_compute. discriminate.
  - reflexivity.
Defined.

(** X9: for a hash that starts with [slide-<m>/step-Infinity],
    [currentStep] is [Infinity], whatever follows. *)
Theorem deck_step_Infinity (m rest : string)
    (Hm : all_digits m = true) (Hm0 : m <> "") :
  Deck.currentStep (slide_step_hash m "Infinity" +:+ rest) = PosInf.
Proof.
  unfold Deck.currentStep, slide_step_hash.
  replace (("slide-" +:+ m +:+ "/step-" +:+ "Infinity") +:+ rest)
    with (slide_hash m +:+ "/step-" +:+ "Infinity" +:+ rest)
    by (unfold slide_hash; now rewrite !append_assoc).
  rewrite (hash_match_slide_rest m _ Hm Hm0) by reflexivity.
  cbn [snd]. rewrite strip_prefix_app.
  change (Deck.digits1 ("Infinity" +:+ rest)) with (@None (string * string)).
  cbv beta iota. now rewrite prefix_app.
Qed.

Lemma deck_step_Infinity_witness :
  Deck.currentStep (slide_step_hash "4" "Infinity" +:+ "") = PosInf.
Proof.
  apply (deck_step_Infinity "4" ""); [reflexivity | discriminate].
Defined.

(** ** The deck's forward and backward buttons *)

Lemma Qred_inject_Z (z : Z) : Qred (inject_Z z) = inject_Z z.
Proof.
  unfold Qred, inject_Z.
  pose proof (Z.ggcd_gcd z 1) as Hg.
  pose proof (Z.ggcd_correct_divisors z 1) as Hd.
  destruct (Z.ggcd z 1) as [g [a b]]. cbn [fst snd] in *.
  rewrite Z.gcd_1_r in Hg. subst g. destruct Hd as [Ha Hb].
  assert (a = z) as -> by lia. assert (b = 1%Z) as -> by lia.
  reflexivity.
Qed.

Lemma Qred_plus_Z (a b : Z) :
  Qred (inject_Z a + inject_Z b) = inject_Z (a + b).
Proof.
  rewrite <- (Qred_inject_Z (a + b)). apply Qred_complete.
  unfold Qeq, Qplus, inject_Z. cbn. lia.
Qed.

Lemma add_of_Z (a b : Z) :
  (0 <= a + b <= 2 ^ 53)%Z ->
  Double.add (Num.of_Z a) (Num.of_Z b) = Num.of_Z (a + b).
Proof.
  intros H. unfold Double.add, Num.of_Z. rewrite Qred_plus_Z.
  cbn [Qden inject_Z Qnum]. rewrite Pos.eqb_refl. now apply round_exact.
Qed.

Lemma sub_of_Z (a b : Z) :
  (0 <= a - b <= 2 ^ 53)%Z ->
  Double.sub (Num.of_Z a) (Num.of_Z b) = Num.of_Z (a - b).
Proof.
  intros H. unfold Double.sub.
  change (Double.neg (Num.of_Z b)) with (Num.of_Z (- b)).
  rewrite add_of_Z by lia. f_equal.
Qed.

Lemma le_of_Z (a b : Z) :
  Double.le (Num.of_Z a) (Num.of_Z b) = bool_decide (a <= b)%Z.
Proof.
  cbn. destruct (Qle_bool (inject_Z a) (inject_Z b)) eqn:E.
  - apply Qle_bool_iff in E. unfold Qle in E. cbn in E.
    symmetry. apply bool_decide_eq_true. lia.
  - symmetry. apply bool_decide_eq_false. intros H.
    assert (Qle_bool (inject_Z a) (inject_Z b) = true); [|congruence].
    apply Qle_bool_iff. unfold Qle. cbn. lia.
Qed.

Lemma index_of_Z (c : nat) :
  Double.index (Num.of_Z (Z.of_nat c)) = Some c.
Proof.
  unfold Double.index, Num.of_Z. cbn [Qden Qnum inject_Z].
  rewrite Pos.eqb_refl. cbn [andb].
  rewrite (proj2 (Z.leb_le 0 (Z.of_nat c))) by lia.
  now rewrite Nat2Z.id.
Qed.

Lemma toString_of_Z (other : Q -> string) (z : Z) :
  (Z.abs z < 10 ^ 21)%Z ->
  Double.toString other (Num.of_Z z) = pretty z.
Proof.
  intros H. unfold Double.toString, Num.of_Z. cbn [Qden Qnum inject_Z].
  rewrite Pos.eqb_refl. cbn [andb].
  now rewrite (proj2 (Z.ltb_lt _ _) H).
Qed.

(** The digits of a natural number, and the number they denote. *)
Lemma is_digit_pretty_N_char (x : N) : Num.is_digit (pretty_N_char x) = true.
Proof.
  unfold pretty_N_char.
  destruct x as [|[[[[|[]|]|[]|]|[[]|[]|]|]|[[[]|[]|]|[[]|[]|]|]|]];
    reflexivity.
Qed.

Lemma digit_value_pretty_N_char (x : N) :
  (x < 10)%N ->
  (Z.of_nat (nat_of_ascii (pretty_N_char x)) - 48)%Z = Z.of_N x.
Proof.
  intros H.
  assert (x = 0 \/ x = 1 \/ x = 2 \/ x = 3 \/ x = 4 \/ x = 5 \/ x = 6
          \/ x = 7 \/ x = 8 \/ x = 9)%N as Hx by lia.
  repeat (destruct Hx as [->|Hx]; [reflexivity|]). now subst.
Qed.

Lemma pretty_N_go_digits (x : N) (s : string) :
  all_digits s = true ->
  all_digits (pretty_N_go x s) = true
  /\ Num.decimal (pretty_N_go x s) = Num.decimal_go (Z.of_N x) s
  /\ (s <> "" \/ x <> 0%N -> pretty_N_go x s <> "").
Proof.
  revert s. induction (N.lt_wf_0 x) as [x _ IH]. intros s Hs.
  destruct (N.eq_dec x 0) as [->|Hx].
  - rewrite pretty_N_go_0. split; [exact Hs|]. split; [reflexivity|].
    intros [H|H]; [exact H | contradiction].
  - rewrite pretty_N_go_step by lia.
    destruct (IH (x `div` 10)%N) with (s := String (pretty_N_char (x `mod` 10)) s)
      as (H1 & H2 & H3).
    + apply N.div_lt; lia.
    + cbn [all_digits]. now rewrite is_digit_pretty_N_char.
    + split; [exact H1|]. split.
      * rewrite H2. cbn [Num.decimal_go].
        rewrite digit_value_pretty_N_char by (apply N.mod_lt; lia).
        f_equal. rewrite (N.div_mod x 10) at 3 by lia. lia.
      * intros _. apply H3. left. discriminate.
Qed.

Lemma pretty_Z_digits (z : Z) :
  (0 <= z)%Z ->
  all_digits (pretty z) = true /\ pretty z <> "" /\ Num.decimal (pretty z) = z.
Proof.
  intros Hz. destruct z as [|p|p]; [| |lia].
  - repeat split. discriminate.
  - unfold pretty, pretty_Z, pretty, pretty_positive, pretty, pretty_N.
    destruct (decide (N.pos p = 0%N)) as [H|_]; [discriminate|].
    destruct (pretty_N_go_digits (N.pos p) "" eq_refl) as (H1 & H2 & H3).
    split; [exact H1|]. split; [apply H3; right; discriminate|].
    rewrite H2. reflexivity.
Qed.

(** The getters on a hash made of two natural numbers. *)
Lemma getters_of_pretty (m n : Z) :
  (1 <= m <= 2 ^ 53)%Z -> (1 <= n <= 2 ^ 53)%Z ->
  Deck.currentSlide (slide_step_hash (pretty m) (pretty n)) = Num.of_Z (m - 1)
  /\ Deck.currentStep (slide_step_hash (pretty m) (pretty n))
     = Num.of_Z (n - 1).
Proof.
  intros Hm Hn.
  destruct (pretty_Z_digits m) as (Hm1 & Hm2 & Hm3); [lia|].
  destruct (pretty_Z_digits n) as (Hn1 & Hn2 & Hn3); [lia|].
  unfold Deck.currentSlide, Deck.currentStep.
  rewrite (hash_match_slide_step _ _ Hm1 Hm2 Hn1 Hn2). cbn [fst snd].
  rewrite !index_of_group_digits by (first [assumption | lia]).
  now rewrite Hm3, Hn3.
Qed.

Section Buttons.

Variable Number : option string -> num.
Variable toString_other : Q -> string.


(** X10: the forward button, on the slide of index [c] that has [k]
    reveal elements and whose [step] is the whole number [j], at least 1.
    While [j] is at most [k] it navigates to the hash of the same slide
    and the step [j + 1]; past that, to the first step of the next slide,
    or nowhere on the last slide. The getters read the new hash back as
    the slide and step indices meant, with slides and steps below
    [2 ^ 53]. *)
Theorem forward_next_step_or_slide (currentHash : string)
    (slides : list slide) (c : nat) (s : slide) (k : nat) (j : Z)
    (Hcur : Deck.currentSlide currentHash = Num.of_Z (Z.of_nat c))
    (Hs : slides !! c = Some s)
    (Hk : steps s = Some k)
    (Hj : Slide.step Number s = Num.of_Z j)
    (Hj1 : (1 <= j)%Z)
    (Hlen : (Z.of_nat (length slides) < 2 ^ 53)%Z)
    (Hk53 : (Z.of_nat k < 2 ^ 53)%Z) :
  ((j <= Z.of_nat k)%Z ->
     let h := slide_step_hash (pretty (Z.of_nat c + 1)%Z) (pretty (j + 1)%Z) in
     Navigation.forward Number toString_other currentHash slides = Ok (Some h)
     /\ Deck.currentSlide h = Num.of_Z (Z.of_nat c)
     /\ Deck.currentStep h = Num.of_Z j)
  /\ ((Z.of_nat k < j)%Z -> S c < length slides ->
      let h := slide_step_hash (pretty (Z.of_nat c + 2)%Z) "1" in
      Navigation.forward Number toString_other currentHash slides = Ok (Some h)
      /\ Deck.currentSlide h = Num.of_Z (Z.of_nat c + 1)%Z
      /\ Deck.currentStep h = Num.of_Z 0)
  /\ ((Z.of_nat k < j)%Z -> S c = length slides ->
      Navigation.forward Number toString_other currentHash slides = Ok None).
Proof.
  assert (Hc : c < length slides) by (eapply lookup_lt_Some; eauto).
  assert (Hat : Navigation.slide_at slides (Num.of_Z (Z.of_nat c)) = Ok s).
  { unfold Navigation.slide_at. rewrite index_of_Z. cbn. now rewrite Hs. }
  assert (H21 : (2 ^ 53 < 10 ^ 21)%Z) by (vm_compute; reflexivity).
  unfold Navigation.forward. rewrite Hcur, Hat. cbn [mbind res_bind].
  rewrite Hj. unfold Navigation.steps_number, Navigation.has_steps.
  rewrite Hk, le_of_Z, lt_of_Z.
  split; [|split].
  - intros Hjk. rewrite bool_decide_eq_true_2 by exact Hjk.
    destruct k as [|k']; [lia|]. cbn [andb].
    rewrite !add_of_Z by lia. unfold Navigation.String_.
    rewrite !toString_of_Z by lia.
    split; [reflexivity|].
    destruct (getters_of_pretty (Z.of_nat c + 1)%Z (j + 1)%Z) as [H1 H2];
      try lia.
    rewrite H1, H2. split; f_equal; lia.
  - intros Hjk Hnext. rewrite bool_decide_eq_false_2 by lia.
    rewrite andb_false_r. rewrite bool_decide_eq_true_2 by lia.
    rewrite !add_of_Z by lia. unfold Navigation.String_.
    rewrite !toString_of_Z by lia.
    split; [reflexivity|].
    destruct (getters_of_pretty (Z.of_nat c + 2)%Z 1%Z) as [H1 H2];
      try lia.
    change "1" with (pretty 1%Z). rewrite H1, H2.
    split; f_equal; lia.
  - intros Hjk Hlast. rewrite bool_decide_eq_false_2 by lia.
    rewrite andb_false_r. now rewrite bool_decide_eq_false_2 by lia.
Qed.

(** X11: the backward button, on the slide of index [c] that has [k]
    reveal elements and whose [step] is the whole number [j]. With reveal
    elements and [j] above 1 it navigates to the same slide and the step
    [j - 1]; otherwise to the slide before, at the step after all its
    reveal elements, or nowhere on the first slide. The getters read the
    new hash back as the indices meant. *)
Theorem backward_previous_step_or_slide (currentHash : string)
    (slides : list slide) (c : nat) (s : slide) (k : nat) (j : Z)
    (Hcur : Deck.currentSlide currentHash = Num.of_Z (Z.of_nat c))
    (Hs : slides !! c = Some s)
    (Hk : steps s = Some k)
    (Hj : Slide.step Number s = Num.of_Z j)
    (Hlen : (Z.of_nat (length slides) < 2 ^ 53)%Z)
    (Hj53 : (j <= 2 ^ 53)%Z) :
  ((1 <= Z.of_nat k)%Z -> (1 < j)%Z ->
     let h := slide_step_hash (pretty (Z.of_nat c + 1)%Z) (pretty (j - 1)%Z) in
     Navigation.backward Number toString_other currentHash slides
     = Ok (Some h)
     /\ Deck.currentSlide h = Num.of_Z (Z.of_nat c)
     /\ Deck.currentStep h = Num.of_Z (j - 2))
  /\ (k = 0 \/ (j <= 1)%Z -> forall c' p,
      c = S c' -> slides !! c' = Some p ->
      (Z.of_nat (default 0%nat (steps p)) < 2 ^ 53)%Z ->
      let h := slide_step_hash (pretty (Z.of_nat c))
                 (pretty (Z.of_nat (default 0%nat (steps p)) + 1)%Z) in
      Navigation.backward Number toString_other currentHash slides
      = Ok (Some h)
      /\ Deck.currentSlide h = Num.of_Z (Z.of_nat c')
      /\ Deck.currentStep h = Num.of_Z (Z.of_nat (default 0%nat (steps p))))
  /\ (k = 0 \/ (j <= 1)%Z -> c = 0 ->
      Navigation.backward Number toString_other currentHash slides = Ok None).
Proof.
  assert (Hc : c < length slides) by (eapply lookup_lt_Some; eauto).
  assert (Hat : Navigation.slide_at slides (Num.of_Z (Z.of_nat c)) = Ok s).
  { unfold Navigation.slide_at. rewrite index_of_Z. cbn. now rewrite Hs. }
  assert (H21 : (2 ^ 53 < 10 ^ 21)%Z) by (vm_compute; reflexivity).
  assert (Hfirst : k = 0 \/ (j <= 1)%Z ->
    Navigation.has_steps s && Num.gt (Num.of_Z j) (Num.of_Z 1) = false).
  { unfold Navigation.has_steps, Num.gt. rewrite Hk, lt_of_Z.
    intros [->|H]; [reflexivity|].
    rewrite bool_decide_eq_false_2 by lia. apply andb_false_r. }
  unfold Navigation.backward. rewrite Hcur, Hat. cbn [mbind res_bind].
  rewrite Hj. split; [|split].
  - intros Hk1 Hj1. unfold Navigation.has_steps, Num.gt.
    rewrite Hk, lt_of_Z. destruct k as [|k']; [lia|].
    rewrite bool_decide_eq_true_2 by lia. cbn [andb].
    rewrite add_of_Z, sub_of_Z by lia. unfold Navigation.String_.
    rewrite !toString_of_Z by lia.
    split; [reflexivity|].
    destruct (getters_of_pretty (Z.of_nat c + 1)%Z (j - 1)%Z) as [H1 H2];
      try lia.
    rewrite H1, H2. split; f_equal; lia.
  - intros Hno c' p -> Hp Hp53. rewrite (Hfirst Hno).
    unfold Num.gt at 1. rewrite lt_of_Z.
    rewrite bool_decide_eq_true_2 by lia.
    rewrite sub_of_Z by lia.
    replace (Z.of_nat (S c') - 1)%Z with (Z.of_nat c') by lia.
    unfold Navigation.slide_at. rewrite index_of_Z.
    cbn [mbind option_bind]. rewrite Hp. cbn [deref mbind res_bind].
    assert (Hsteps :
      (if Navigation.has_steps p then Navigation.steps_number p
       else Num.of_Z 0)
      = Num.of_Z (Z.of_nat (default 0%nat (steps p)))).
    { unfold Navigation.has_steps, Navigation.steps_number.
      destruct (steps p) as [[|n]|]; reflexivity. }
    rewrite Hsteps. rewrite add_of_Z by lia. unfold Navigation.String_.
    rewrite !toString_of_Z by lia.
    split; [reflexivity|].
    destruct (getters_of_pretty (Z.of_nat (S c'))
                (Z.of_nat (default 0%nat (steps p)) + 1)%Z) as [H1 H2];
      try lia.
    rewrite H1, H2. split; f_equal; lia.
  - intros Hno ->. rewrite (Hfirst Hno).
    unfold Num.gt. rewrite lt_of_Z. reflexivity.
Qed.

(** X12: when the hash names the slide 0, or a slide beyond the last,
    there is no current slide: both buttons throw a TypeError, reading
    [steps] of [undefined]. *)
Theorem navigation_without_slide (m rest : string) (slides : list slide)
    (Hm : all_digits m = true) (Hm0 : m <> "")
    (Hmle : (Num.decimal m <= 2 ^ 53)%Z)
    (Hrest : no_digit_first rest)
    (Hout : (Num.decimal m = 0 \/ Z.of_nat (length slides) < Num.decimal m)%Z) :
  Navigation.forward Number toString_other (slide_hash m +:+ rest) slides
  = Throw TypeError
  /\ Navigation.backward Number toString_other (slide_hash m +:+ rest) slides
     = Throw TypeError.
Proof.
  assert (Hm' : (0 <= Num.decimal m)%Z)
    by (apply decimal_go_nonneg; [exact Hm | lia]).
  assert (Hat : Navigation.slide_at slides
                  (Deck.currentSlide (slide_hash m +:+ rest))
                = Throw TypeError).
  { unfold Deck.currentSlide.
    rewrite (hash_match_slide_rest m rest Hm Hm0 Hrest). cbn [fst].
    rewrite (index_of_group_digits m Hm Hm0 Hmle).
    unfold Navigation.slide_at.
    destruct Hout as [->|Hlt]; [reflexivity|].
    replace (Num.decimal m - 1)%Z
      with (Z.of_nat (Z.to_nat (Num.decimal m - 1))) by lia.
    rewrite index_of_Z. cbn [mbind option_bind].
    rewrite lookup_ge_None_2 by lia. reflexivity. }
  unfold Navigation.forward, Navigation.backward. now rewrite Hat.
Qed.

End Buttons.

Lemma forward_next_step_or_slide_witness :
  ((2 <= Z.of_nat 2)%Z ->
     let h := slide_step_hash (pretty (Z.of_nat 0 + 1)%Z) (pretty (2 + 1)%Z) in
     Navigation.forward Number_of_digits other_numbers "slide-1/step-2"
       three_slides = Ok (Some h)
     /\ Deck.currentSlide h = Num.of_Z (Z.of_nat 0)
     /\ Deck.currentStep h = Num.of_Z 2)
  /\ ((Z.of_nat 2 < 2)%Z -> 1 < length three_slides ->
      let h := slide_step_hash (pretty (Z.of_nat 0 + 2)%Z) "1" in
      Navigation.forward Number_of_digits other_numbers "slide-1/step-2"
        three_slides = Ok (Some h)
      /\ Deck.currentSlide h = Num.of_Z (Z.of_nat 0 + 1)%Z
      /\ Deck.currentStep h = Num.of_Z 0)
  /\ ((Z.of_nat 2 < 2)%Z -> 1 = length three_slides ->
      Navigation.forward Number_of_digits other_numbers "slide-1/step-2"
        three_slides = Ok None).
Proof.
  apply (forward_next_step_or_slide Number_of_digits other_numbers
           "slide-1/step-2" three_slides 0
           (mkSlide (Some "2") (Some 2) (Some [1%Z; 0%Z])) 2 2).
  - reflexivity.
  - reflexivity.
  - reflexivity.
  - reflexivity.
  - lia.
  - vm_compute. reflexivity.
  - vm_compute. reflexivity.
Defined.

Lemma backward_previous_step_or_slide_witness :
  ((1 <= Z.of_nat 0)%Z -> (1 < 1)%Z ->
     let h := slide_step_hash (pretty (Z.of_nat 1 + 1)%Z) (pretty (1 - 1)%Z) in
     Navigation.backward Number_of_digits other_numbers "slide-2"
       three_slides = Ok (Some h)
     /\ Deck.currentSlide h = Num.of_Z (Z.of_nat 1)
     /\ Deck.currentStep h = Num.of_Z (1 - 2))
  /\ (0 = 0 \/ (1 <= 1)%Z -> forall c' p,
      1 = S c' -> three_slides !! c' = Some p ->
      (Z.of_nat (default 0%nat (steps p)) < 2 ^ 53)%Z ->
      let h := slide_step_hash (pretty (Z.of_nat 1))
                 (pretty (Z.of_nat (default 0%nat (steps p)) + 1)%Z) in
      Navigation.backward Number_of_digits other_numbers "slide-2"
        three_slides = Ok (Some h)
      /\ Deck.currentSlide h = Num.of_Z (Z.of_nat c')
      /\ Deck.currentStep h = Num.of_Z (Z.of_nat (default 0%nat (steps p))))
  /\ (0 = 0 \/ (1 <= 1)%Z -> 1 = 0 ->
      Navigation.backward Number_of_digits other_numbers "slide-2"
        three_slides = Ok None).
Proof.
  apply (backward_previous_step_or_slide Number_of_digits other_numbers
           "slide-2" three_slides 1 (mkSlide None (Some 0) (Some [])) 0 1).
  - reflexivity.
  - reflexivity.
  - reflexivity.
  - reflexivity.
  - vm_compute. reflexivity.
  - vm_compute. discriminate.
Defined.

Lemma navigation_without_slide_witness :
  Navigation.forward Number_of_digits other_numbers (slide_hash "0" +:+ "")
    three_slides
  = Throw TypeError
  /\ Navigation.backward Number_of_digits other_numbers
       (slide_hash "0" +:+ "") three_slides
     = Throw TypeError.
Proof.
  apply (navigation_without_slide Number_of_digits other_numbers "0" ""
           three_slides).
  - reflexivity.
  - discriminate.
  - vm_compute. discriminate.
  - exact Logic.I.
  - left. reflexivity.
Defined.

(** ** A value that did not change *)

Lemma strict_eq_prim_refl (v : value) :
  JS.is_object v = false -> JS.strict_eq_prim v v = true.
Proof.
  destruct v as [| |b|z|s| | | | | | |]; try discriminate; intros _; cbn.
  - reflexivity.
  - reflexivity.
  - now destruct b.
  - apply Z.eqb_refl.
  - apply String.eqb_refl.
Qed.

Lemma getValue_primitive (p : nat) (v : value) :
  JS.is_object v = false ->
  JS.is_object (Lit.getValue p v) = false
  /\ Lit.getValue p v = match v with VNull => VUndefined | _ => v end.
Proof. destruct v; try discriminate; intros _; split; reflexivity. Qed.

(** X13: a [NodePart] that was given a primitive value does nothing when
    it is given the same value again: the second call returns the state
    the first one left, document included. *)
Theorem same_primitive_is_not_rendered_again (fuel : nat) (p : nat)
    (v : value) (st st1 : state)
    (Hv : JS.is_object v = false)
    (H : Lit.setValue fuel p v st = Ok st1) :
  Lit.setValue fuel p v st1 = Ok st1.
Proof.
  destruct fuel as [|fuel]; [discriminate|].
  cbn [Lit.setValue] in *. unfold Lit.setValue_body in *.
  destruct (getValue_primitive p v Hv) as [Hobj _].
  set (v' := Lit.getValue p v) in *. rewrite Hobj in *. cbn [negb] in *.
  apply bind_Ok in H as (np & Hnp & H). pose proof Hnp as Hnp'.
  apply nodePartOf_Ok in Hnp'.
  assert (Hset : Lit._setText p v' st = Ok st1 ->
    nodePartOf st1 p ≫= (fun np =>
      match np_previousValue np with
      | PValue old =>
          if JS.strict_eq_prim v' old then Ok st1 else Lit._setText p v' st1
      | _ => Lit._setText p v' st1
      end) = Ok st1).
  { intros Ht. apply _setText_state in Ht as (d & ->).
    assert (Hp1 :
      parts (set_previousValue p (PValue v') (with_document d st)) !! p
      = Some (NodePart (np_instance np) (np_startNode np) (np_endNode np)
                (PValue v'))).
    { unfold set_previousValue. cbn [parts with_document]. rewrite Hnp'.
      cbn [parts with_parts]. apply list_lookup_insert_eq.
      eapply lookup_lt_Some; eauto. }
    unfold nodePartOf. rewrite Hp1. cbn [mbind res_bind np_previousValue].
    now rewrite strict_eq_prim_refl. }
  destruct (np_previousValue np) as [old| | | |] eqn:Eprev;
    try (now apply Hset).
  destruct (JS.strict_eq_prim v' old) eqn:Eeq; [|now apply Hset].
  injection H as <-. rewrite Hnp. cbn [mbind res_bind].
  now rewrite Eprev, Eeq.
Qed.

Lemma same_primitive_is_not_rendered_again_witness :
  Lit.setValue 1 0 (VStr "y") p_rendered_y = Ok p_rendered_y.
Proof.
  apply (same_primitive_is_not_rendered_again 1 0 (VStr "y") p_rendered_x
           p_rendered_y).
  - reflexivity.
  - vm_compute. reflexivity.
Defined.

(** ** The presenter's timer *)

Lemma length_append (a b : string) :
  String.length (a +:+ b) = String.length a + String.length b.
Proof.
  induction a as [|c a IH]; [now rewrite append_nil_l|].
  rewrite append_cons. cbn [String.length]. now rewrite IH.
Qed.

Lemma length_i (e : Z) :
  (0 <= e < 100)%Z -> String.length (Timer.i e) = 2.
Proof.
  intros He.
  assert (Hall : forallb (fun z => (String.length (Timer.i z) =? 2)%nat)
                   (seqZ 0 100) = true) by (vm_compute; reflexivity).
  rewrite forallb_forall in Hall.
  apply Nat.eqb_eq. apply Hall. apply list_elem_of_In, elem_of_seqZ. lia.
Qed.

(** X14: the timer shows minutes and seconds, two digits each, while
    the hours of the time elapsed are 0, and hours, minutes and seconds,
    two digits each, otherwise: five characters, or eight. *)
Theorem timer_minutes_then_hours (now e : Z)
    (Hvalid : (Z.abs (now - e) <= 8640000000000000)%Z) :
  let t := (now - e)%Z in
  (Timer.getUTCHours t = 0%Z ->
     Timer.l now e
     = Timer.i (Timer.getUTCMinutes t) +:+ ":" +:+ Timer.i (Timer.getUTCSeconds t)
     /\ String.length (Timer.l now e) = 5)
  /\ (Timer.getUTCHours t <> 0%Z ->
      Timer.l now e
      = Timer.i (Timer.getUTCHours t) +:+ ":"
        +:+ Timer.i (Timer.getUTCMinutes t) +:+ ":"
        +:+ Timer.i (Timer.getUTCSeconds t)
      /\ String.length (Timer.l now e) = 8).
Proof.
  intros t. unfold Timer.l, Timer.Date.
  rewrite (proj2 (Z.leb_le _ _) Hvalid). fold t. cbv zeta.
  assert (Hh : (0 <= Timer.getUTCHours t < 100)%Z)
    by (unfold Timer.getUTCHours;
        pose proof (Z.mod_pos_bound (t / 3600000) 24); lia).
  assert (Hm : (0 <= Timer.getUTCMinutes t < 100)%Z)
    by (unfold Timer.getUTCMinutes;
        pose proof (Z.mod_pos_bound (t / 60000) 60); lia).
  assert (Hs : (0 <= Timer.getUTCSeconds t < 100)%Z)
    by (unfold Timer.getUTCSeconds;
        pose proof (Z.mod_pos_bound (t / 1000) 60); lia).
  split.
  - intros ->. cbn [Z.eqb]. rewrite append_nil_l. split; [reflexivity|].
    rewrite !length_append, !length_i by assumption. reflexivity.
  - intros Hne. apply Z.eqb_neq in Hne. rewrite Hne.
    rewrite !append_assoc. split; [reflexivity|].
    rewrite !length_append, !length_i by assumption. reflexivity.
Qed.

Lemma timer_minutes_then_hours_witness :
  let t := (3725000 - 0)%Z in
  (Timer.getUTCHours t = 0%Z ->
     Timer.l 3725000 0
     = Timer.i (Timer.getUTCMinutes t) +:+ ":" +:+ Timer.i (Timer.getUTCSeconds t)
     /\ String.length (Timer.l 3725000 0) = 5)
  /\ (Timer.getUTCHours t <> 0%Z ->
      Timer.l 3725000 0
      = Timer.i (Timer.getUTCHours t) +:+ ":"
        +:+ Timer.i (Timer.getUTCMinutes t) +:+ ":"
        +:+ Timer.i (Timer.getUTCSeconds t)
      /\ String.length (Timer.l 3725000 0) = 8).
Proof.
  apply (timer_minutes_then_hours 3725000 0). vm_compute. discriminate.
Defined.

(** X15: the timer shows hours of the day: a day later it shows what it
    shows now, so that after 24 hours it is back at minutes and seconds. *)
Theorem timer_wraps_after_a_day (now e : Z)
    (Hvalid : (Z.abs (now - e) <= 8640000000000000)%Z)
    (Hlater : (Z.abs (now + 86400000 - e) <= 8640000000000000)%Z) :
  Timer.l (now + 86400000) e = Timer.l now e.
Proof.
  unfold Timer.l, Timer.Date.
  rewrite (proj2 (Z.leb_le _ _) Hvalid), (proj2 (Z.leb_le _ _) Hlater).
  assert (Hh : Timer.getUTCHours (now + 86400000 - e)
               = Timer.getUTCHours (now - e)).
  { unfold Timer.getUTCHours.
    replace (now + 86400000 - e)%Z with (now - e + 24 * 3600000)%Z by lia.
    rewrite Z.div_add by lia. rewrite <- Z.add_mod_idemp_r by lia.
    rewrite Z.mod_same by lia. now rewrite Z.add_0_r. }
  assert (Hm : Timer.getUTCMinutes (now + 86400000 - e)
               = Timer.getUTCMinutes (now - e)).
  { unfold Timer.getUTCMinutes.
    replace (now + 86400000 - e)%Z with (now - e + (24 * 60) * 60000)%Z by lia.
    rewrite Z.div_add by lia.
    replace (24 * 60)%Z with (24 * 60)%Z by reflexivity.
    rewrite <- Z.add_mod_idemp_r by lia.
    replace ((24 * 60) mod 60)%Z with 0%Z by reflexivity.
    now rewrite Z.add_0_r. }
  assert (Hs : Timer.getUTCSeconds (now + 86400000 - e)
               = Timer.getUTCSeconds (now - e)).
  { unfold Timer.getUTCSeconds.
    replace (now + 86400000 - e)%Z with (now - e + 86400 * 1000)%Z by lia.
    rewrite Z.div_add by lia. rewrite <- Z.add_mod_idemp_r by lia.
    replace (86400 mod 60)%Z with 0%Z by reflexivity.
    now rewrite Z.add_0_r. }
  cbv zeta. now rewrite Hh, Hm, Hs.
Qed.

Lemma timer_wraps_after_a_day_witness :
  Timer.l (61000 + 86400000) 0 = Timer.l 61000 0.
Proof.
  apply (timer_wraps_after_a_day 61000 0); vm_compute; discriminate.
Defined.

(** ** GluonElement *)

Lemma lower_not_upper (c : ascii) :
  Gluon.lower c = true -> Gluon.upper c = false.
Proof.
  unfold Gluon.lower, Gluon.upper, Compile.between.
  intros H. apply andb_prop in H as [H1 H2]. apply Nat.leb_le in H1.
  apply andb_false_iff. right. apply Nat.leb_gt. lia.
Qed.

Lemma upper_not_lower (c : ascii) :
  Gluon.upper c = true -> Gluon.lower c = false.
Proof.
  unfold Gluon.lower, Gluon.upper, Compile.between.
  intros H. apply andb_prop in H as [H1 H2]. apply Nat.leb_le in H2.
  apply andb_false_iff. left. apply Nat.leb_gt. lia.
Qed.

(** [hyphenate] steps over a character that no capital follows. *)
Lemma hyphenate_step (a b : ascii) (t : string) :
  Gluon.upper b = false ->
  Gluon.hyphenate (String a (String b t))
  = String a (Gluon.hyphenate (String b t)).
Proof.
  intros Hb. cbn [Gluon.hyphenate]. rewrite Hb.
  rewrite !andb_false_r. cbn [andb]. now destruct t.
Qed.

Lemma hyphenate_words (ws : list (ascii * string)) :
  Forall is_word ws ->
  forall w, all_lower w = true -> w <> "" ->
    Gluon.hyphenate (w +:+ camelCase ws)
    = w +:+ String.concat "" (map (fun x => "-" +:+ word x) ws).
Proof.
  induction 1 as [|[c u] ws (Hc & Hu0 & Hu) Hws IH]; cbn [fst snd] in *.
  - intros w Hw Hw0. unfold camelCase. cbn [map String.concat].
    rewrite append_empty_r. clear Hw0.
    induction w as [|a w IHw]; [reflexivity|].
    destruct w as [|b w']; [reflexivity|].
    unfold all_lower in Hw. cbn [String.list_ascii_of_string forallb] in Hw.
    apply andb_prop in Hw as [Ha Hw].
    rewrite hyphenate_step.
    + f_equal. apply IHw. exact Hw.
    + apply lower_not_upper. now apply andb_prop in Hw as [Hb _].
  - intros w Hw Hw0.
    assert (Hcamel : camelCase ((c, u) :: ws) = String c (u +:+ camelCase ws)).
    { unfold camelCase. cbn [map]. unfold word at 1. cbn [fst snd].
      destruct ws as [|x ws']; cbn [map String.concat].
      - now rewrite append_empty_r.
      - rewrite append_nil_l. now rewrite append_cons. }
    assert (Hconcat :
      String.concat "" (map (fun x => "-" +:+ word x) ((c, u) :: ws))
      = String "-" (String c (u +:+
          String.concat "" (map (fun x => "-" +:+ word x) ws)))).
    { cbn [map]. unfold word at 1. cbn [fst snd].
      destruct ws as [|x ws']; cbn [map String.concat].
      - rewrite append_empty_r. reflexivity.
      - rewrite append_nil_l. reflexivity. }
    rewrite Hcamel, Hconcat. specialize (IH u Hu Hu0). clear Hcamel Hconcat.
    induction w as [|a w IHw]; [contradiction|].
    unfold all_lower in Hw. cbn [String.list_ascii_of_string forallb] in Hw.
    apply andb_prop in Hw as [Ha Hw].
    destruct w as [|b w'].
    + rewrite !append_cons, !append_nil_l. cbn [Gluon.hyphenate].
      rewrite Ha, Hc. cbn [andb]. now rewrite IH.
    + rewrite !(append_cons a).
      rewrite (append_cons b). rewrite hyphenate_step.
      * f_equal. rewrite <- (append_cons b). apply IHw; [exact Hw|discriminate].
      * apply lower_not_upper.
        cbn [String.list_ascii_of_string forallb] in Hw.
        now apply andb_prop in Hw as [Hb _].
Qed.

Lemma toLowerCase_append (a b : string) :
  Gluon.toLowerCase (a +:+ b) = Gluon.toLowerCase a +:+ Gluon.toLowerCase b.
Proof.
  induction a as [|c a IH]; [now rewrite !append_nil_l|].
  rewrite append_cons. cbn [Gluon.toLowerCase]. now rewrite IH, append_cons.
Qed.

Lemma toLowerCase_lower (w : string) :
  all_lower w = true -> Gluon.toLowerCase w = w.
Proof.
  induction w as [|c w IH]; [reflexivity|].
  unfold all_lower. cbn [String.list_ascii_of_string forallb].
  intros H. apply andb_prop in H as [Hc Hw].
  cbn [Gluon.toLowerCase]. rewrite (IH Hw).
  unfold Gluon.toLowerCase_char. now rewrite (lower_not_upper c Hc).
Qed.

Lemma toLowerCase_words (ws : list (ascii * string)) :
  Forall is_word ws ->
  Gluon.toLowerCase (String.concat "" (map (fun x => "-" +:+ word x) ws))
  = String.concat ""
      (map (fun w => "-" +:+ String (Gluon.toLowerCase_char (fst w)) (snd w))
         ws).
Proof.
  induction 1 as [|[c u] ws (Hc & Hu0 & Hu) Hws IH]; [reflexivity|].
  cbn [fst snd] in *.
  cbn [map]. rewrite !concat_empty_cons, toLowerCase_append, IH.
  f_equal. unfold word. cbn [fst snd].
  rewrite append_cons, append_nil_l. cbn [Gluon.toLowerCase].
  now rewrite (toLowerCase_lower u Hu).
Qed.

Lemma concat_hyphen (x : string) (l : list string) :
  String.concat "-" (x :: l)
  = x +:+ String.concat "" (map (fun y => "-" +:+ y) l).
Proof.
  revert x. induction l as [|y l IH]; intros x.
  - cbn. now rewrite append_empty_r.
  - change (String.concat "-" (x :: y :: l))
      with (x +:+ "-" +:+ String.concat "-" (y :: l)).
    rewrite IH. cbn [map]. rewrite concat_empty_cons.
    now rewrite !append_assoc.
Qed.

(** X16: the tag name of a class whose name is made of capitalised
    words, each a capital and one or more lower-case letters, is the words
    in lower case, joined by hyphens: SlidemDeck gives slidem-deck. *)
Theorem tag_name_of_class_name (ws : list (ascii * string))
    (Hws : Forall is_word ws) :
  Gluon.i (camelCase ws) = kebab_case ws.
Proof.
  destruct Hws as [|[c u] ws (Hc & Hu0 & Hu) Hws]; [reflexivity|].
  cbn [fst snd] in *. unfold Gluon.i, kebab_case. cbn [map fst snd].
  rewrite concat_hyphen, map_map.
  assert (Hcamel : camelCase ((c, u) :: ws) = String c (u +:+ camelCase ws)).
  { unfold camelCase. cbn [map]. unfold word at 1. cbn [fst snd].
    destruct ws as [|x ws']; cbn [map String.concat].
    - now rewrite append_empty_r.
    - rewrite append_nil_l. now rewrite append_cons. }
  rewrite Hcamel.
  assert (Hstep : Gluon.hyphenate (String c (u +:+ camelCase ws))
                  = String c (Gluon.hyphenate (u +:+ camelCase ws))).
  { destruct u as [|b u']; [contradiction|].
    rewrite append_cons. apply hyphenate_step. apply lower_not_upper.
    unfold all_lower in Hu. cbn [String.list_ascii_of_string forallb] in Hu.
    now apply andb_prop in Hu as [Hb _]. }
  rewrite Hstep, (hyphenate_words ws Hws u Hu Hu0).
  cbn [Gluon.toLowerCase]. rewrite append_cons. f_equal.
  rewrite toLowerCase_append, (toLowerCase_lower u Hu).
  now rewrite (toLowerCase_words ws Hws).
Qed.

Lemma tag_name_of_class_name_witness :
  Gluon.i (camelCase [("S"%char, "lidem"); ("D"%char, "eck")])
  = kebab_case [("S"%char, "lidem"); ("D"%char, "eck")].
Proof.
  apply (tag_name_of_class_name [("S"%char, "lidem"); ("D"%char, "eck")]).
  repeat constructor; discriminate.
Defined.

Lemma microtasks_settle (n : nat) (x : Gluon.element) :
  Gluon.microtasks (S n) x
  = Gluon.mkElement false 0
      (Gluon.renders x + if Gluon.needsRender x then 1 else 0).
Proof.
  revert x. induction n as [|n IH]; intros [f w r].
  - cbn. destruct f; cbn; f_equal; lia.
  - change (Gluon.microtasks (S (S n)) (Gluon.mkElement f w r))
      with (Gluon.microtasks (S n)
              (Gluon.flush (Gluon.mkElement f (S n) r))).
    rewrite IH. destruct f; cbn; f_equal; lia.
Qed.

Lemma renders_in_one_turn (calls : list bool) (x : Gluon.element) :
  Gluon.needsRender x = false ->
  let y := foldl (fun x s => Gluon.render s x) x calls in
  Gluon.needsRender y
  = match last calls with Some false => true | _ => false end
  /\ Gluon.waiting y
     = Gluon.waiting x + length (filter (fun s => s = false) calls)
  /\ Gluon.renders y
     = Gluon.renders x + length (filter (fun s => s = true) calls).
Proof.
  intros Hx. induction calls as [|s calls IH] using rev_ind.
  - cbn. rewrite Hx. repeat split; lia.
  - cbv zeta in *. rewrite foldl_app, last_snoc, !filter_app, !length_app.
    cbn [foldl]. destruct IH as (H1 & H2 & H3).
    set (y := foldl _ x calls) in *.
    destruct s.
    + change (filter (fun s : bool => s = false) [true]) with (@nil bool).
      change (filter (fun s : bool => s = true) [true]) with [true].
      cbn [length]. unfold Gluon.render, Gluon.flush.
      cbn [Gluon.needsRender Gluon.waiting Gluon.renders].
      repeat split; lia.
    + change (filter (fun s : bool => s = false) [false]) with [false].
      change (filter (fun s : bool => s = true) [false]) with (@nil bool).
      cbn [length]. unfold Gluon.render.
      cbn [Gluon.needsRender Gluon.waiting Gluon.renders].
      repeat split; lia.
Qed.

(** X17: the calls of [render] on an element in one turn, once the
    calls that wait at [await 0] have gone on, have rendered the template
    once for each synchronous call, and once more when the last call was
    not synchronous; nothing is left waiting. Any number of asynchronous
    calls alone render once. *)
Theorem renders_are_coalesced (calls : list bool) (x : Gluon.element)
    (Hflag : Gluon.needsRender x = false)
    (Hwait : Gluon.waiting x = 0) :
  Gluon.settle (foldl (fun x s => Gluon.render s x) x calls)
  = Gluon.mkElement false 0 (Gluon.renders x + coalesced calls).
Proof.
  destruct (renders_in_one_turn calls x Hflag) as (H1 & H2 & H3).
  set (y := foldl _ x calls) in *. unfold Gluon.settle, coalesced.
  destruct (Gluon.waiting y) as [|n] eqn:Hw.
  - cbn [Gluon.microtasks]. destruct y as [f w r].
    cbn [Gluon.needsRender Gluon.waiting Gluon.renders] in *. subst w.
    assert (Hlast : match last calls with Some false => False | _ => True end).
    { destruct calls as [|s calls] using rev_ind; [exact Logic.I|].
      rewrite last_snoc. destruct s; [exact Logic.I|].
      rewrite filter_app, length_app, filter_cons_True in H2 by reflexivity.
      cbn in H2. lia. }
    destruct (last calls) as [[|]|]; try contradiction; subst f;
      f_equal; lia.
  - rewrite microtasks_settle, H1, H3.
    destruct (last calls) as [[|]|]; f_equal; lia.
Qed.

Lemma renders_are_coalesced_witness :
  Gluon.settle
    (foldl (fun x s => Gluon.render s x) (Gluon.mkElement false 0 0)
       [false; false; false])
  = Gluon.mkElement false 0 (0 + coalesced [false; false; false]).
Proof.
  apply (renders_are_coalesced [false; false; false]
           (Gluon.mkElement false 0 0)); reflexivity.
Defined.

(** ** What rendering never touches *)

Lemma statics_set_previousValue (p : nat) (r : previous) (st : state) :
  statics (set_previousValue p r st) = statics st.
Proof.
  unfold set_previousValue.
  destruct (parts st !! p) as [[|i s e v]|]; reflexivity.
Qed.

Lemma statics_set_endNode (p : nat) (e : option nat) (st : state) :
  statics (set_endNode p e st) = statics st.
Proof.
  unfold set_endNode.
  destruct (parts st !! p) as [[|i s e' v]|]; reflexivity.
Qed.

Lemma clear_statics (p s : nat) (st st' : state) :
  Lit.clear p s st = Ok st' -> statics st' = statics st.
Proof. intros H. apply clear_state in H as (d & ->). reflexivity. Qed.

Lemma _insert_statics (p n : nat) (st st' : state) :
  Lit._insert p n st = Ok st' -> statics st' = statics st.
Proof. intros H. apply _insert_state in H as (d & ->). reflexivity. Qed.

Lemma _setNode_statics (p n : nat) (st st' : state) :
  Lit._setNode p n st = Ok st' -> statics st' = statics st.
Proof.
  intros H. apply _setNode_state in H as (d & ->).
  now rewrite statics_set_previousValue.
Qed.

Lemma _setText_statics (p : nat) (v : value) (st st' : state) :
  Lit._setText p v st = Ok st' -> statics st' = statics st.
Proof.
  intros H. apply _setText_state in H as (d & ->).
  now rewrite statics_set_previousValue.
Qed.

Lemma clone_loop_statics (i root : nat) (tparts : list TemplatePart)
    (fuel : nat) :
  forall (index : Z) (partIndex : nat) (node : option nat) (st st' : state),
    Lit.clone_loop fuel i root tparts index partIndex node st = Ok st' ->
    statics st' = statics st.
Proof.
  induction fuel as [|fuel IH]; intros index partIndex node st st' H;
    [discriminate|].
  cbn [Lit.clone_loop] in H.
  destruct node as [n|]; [|now injection H as <-].
  destruct (tparts !! partIndex) as [tp|]; [|now injection H as <-].
  destruct (decide (index = tp_index tp)).
  - apply bind_Ok in H as (part & _ & H).
    apply bind_Ok in H as (inst & _ & H).
    now apply IH in H.
  - now apply IH in H.
Qed.

Lemma _clone_statics (i : nat) (st st' : state) (fragment : nat) :
  Lit._clone i st = Ok (fragment, st') -> statics st' = statics st.
Proof.
  unfold Lit._clone. intros H.
  apply bind_Ok in H as (inst & _ & H).
  apply bind_Ok in H as (t & _ & H).
  apply bind_Ok in H as ([f d] & _ & H).
  destruct (t_parts t) as [|tp tparts].
  - now injection H as _ <-.
  - apply bind_Ok in H as (st1 & H1 & H). injection H as _ <-.
    now apply clone_loop_statics in H1.
Qed.

Section Statics.

Variable self : nat -> value -> state -> res state.

Hypothesis Hself :
  forall p v st st', self p v st = Ok st' -> statics st' = statics st.

Lemma update_loop_statics (values : list value) (ps : list nat) :
  forall (k : Z) (st st' : state),
    Lit.update_loop self ps values k st = Ok st' -> statics st' = statics st.
Proof.
  induction ps as [|p ps IH]; intros k st st' H.
  - now injection H as <-.
  - cbn [Lit.update_loop] in H. apply bind_Ok in H as (part & _ & H).
    destruct part as [i e n s z|i s e v].
    + apply bind_Ok in H as (st1 & H1 & H).
      unfold Lit.AttributePart_setValue in H1.
      destruct (parts st !! p) as [[| ]|]; try discriminate.
      injection H1 as <-. now apply IH in H.
    + apply bind_Ok in H as (st1 & H1 & H).
      apply Hself in H1. apply IH in H. congruence.
Qed.

Lemma update_statics (i : nat) (values : list value) (st st' : state) :
  Lit.update self i values st = Ok st' -> statics st' = statics st.
Proof.
  unfold Lit.update. intros H. apply bind_Ok in H as (inst & _ & H).
  now apply update_loop_statics in H.
Qed.

Lemma _setTemplateResult_statics (p t : nat) (values : list value)
    (st st' : state) :
  Lit._setTemplateResult self p t values st = Ok st' ->
  statics st' = statics st.
Proof.
  unfold Lit._setTemplateResult. intros H.
  apply bind_Ok in H as (np & _ & H).
  apply bind_Ok in H as ([i st1] & H1 & H).
  apply update_statics in H. rewrite H. clear H.
  destruct (match np_previousValue np with PInstance _ => _ | _ => None end).
  - now injection H1 as _ <-.
  - apply bind_Ok in H1 as (owner & _ & H1).
    unfold Lit.TemplateInstance_new in H1.
    apply bind_Ok in H1 as ([fragment st2] & H2 & H1).
    apply bind_Ok in H1 as (st3 & H3 & H1).
    injection H1 as _ <-.
    rewrite statics_set_previousValue.
    apply _setNode_statics in H3. apply _clone_statics in H2.
    rewrite H3, H2. reflexivity.
Qed.

Lemma items_loop_statics (p a : nat) (items : list value) :
  forall (partIndex n' : nat) (st st' : state),
    Lit.items_loop self p a items partIndex st = Ok (n', st') ->
    statics st' = statics st.
Proof.
  induction items as [|item rest IH]; intros partIndex n' st st' H.
  - now injection H as _ <-.
  - cbn [Lit.items_loop] in H.
    apply bind_Ok in H as (itemParts & _ & H).
    apply bind_Ok in H as ([q st1] & H1 & H).
    apply bind_Ok in H as (st2 & H2 & H).
    apply IH in H. apply Hself in H2. rewrite H, H2. clear H H2.
    destruct (itemParts !! partIndex) as [q'|].
    + now injection H1 as _ <-.
    + apply bind_Ok in H1 as (np & _ & H1).
      apply bind_Ok in H1 as ([itemStart st3] & H3 & H1).
      apply bind_Ok in H1 as (np2 & _ & H1).
      apply bind_Ok in H1 as (l2 & _ & H1).
      injection H1 as _ <-.
      change (statics st3 = statics st).
      destruct partIndex as [|k].
      * now injection H3 as _ <-.
      * apply bind_Ok in H3 as (pp & _ & H3).
        destruct (Dom.createText (document st) "") as [t d].
        apply bind_Ok in H3 as (st4 & H4 & H3).
        injection H3 as _ <-.
        apply _insert_statics in H4. rewrite H4.
        now rewrite statics_set_endNode.
Qed.

Lemma _setIterable_statics (p : nat) (items : list value) (st st' : state) :
  Lit._setIterable self p items st = Ok st' -> statics st' = statics st.
Proof.
  unfold Lit._setIterable. intros H.
  apply bind_Ok in H as (np & _ & H).
  apply bind_Ok in H as ([a st1] & H1 & H).
  apply bind_Ok in H as ([n st2] & H2 & H).
  apply bind_Ok in H as (itemParts & _ & H).
  apply items_loop_statics in H2.
  assert (Hst1 : statics st1 = statics st).
  { destruct (np_previousValue np);
      try (apply bind_Ok in H1 as (st0 & H0 & H1); injection H1 as _ <-;
           apply clear_statics in H0;
           now rewrite statics_set_previousValue).
    now injection H1 as _ <-. }
  rewrite <- Hst1, <- H2. clear Hst1 H2 H1.
  destruct n as [|k].
  - apply bind_Ok in H as (np2 & _ & H).
    apply bind_Ok in H as (st3 & H3 & H). injection H as <-.
    rewrite statics_set_previousValue. now apply clear_statics in H3.
  - destruct (S k <? length itemParts)%nat; [|now injection H as <-].
    apply bind_Ok in H as (lastPart & _ & H).
    apply bind_Ok in H as (lp & _ & H).
    apply bind_Ok in H as (e & _ & H).
    apply bind_Ok in H as (from & _ & H).
    apply bind_Ok in H as (st3 & H3 & H).
    apply bind_Ok in H as (np2 & _ & H). injection H as <-.
    rewrite statics_set_endNode. now apply clear_statics in H3.
Qed.

Lemma setValue_body_statics (p : nat) (v : value) (st st' : state) :
  Lit.setValue_body self p v st = Ok st' -> statics st' = statics st.
Proof.
  unfold Lit.setValue_body. intros H.
  destruct (negb (JS.is_object (Lit.getValue p v))).
  - apply bind_Ok in H as (np & _ & H).
    destruct (np_previousValue np) as [old| | | |];
      try (now apply _setText_statics in H).
    destruct (JS.strict_eq_prim _ old); [now injection H as <-|].
    now apply _setText_statics in H.
  - destruct (Lit.getValue p v);
      try (now apply _setText_statics in H).
    + now apply _setIterable_statics in H.
    + now apply _setIterable_statics in H.
    + now apply _setTemplateResult_statics in H.
    + now apply _setNode_statics in H.
    + unfold Lit._setPromise in H. injection H as <-.
      now rewrite statics_set_previousValue.
Qed.

End Statics.

Lemma setValue_statics (fuel : nat) (p : nat) (v : value) (st st' : state) :
  Lit.setValue fuel p v st = Ok st' -> statics st' = statics st.
Proof.
  revert p v st st'. induction fuel as [|fuel IH]; intros p v st st' H;
    [discriminate|].
  cbn [Lit.setValue] in H. now apply (setValue_body_statics _ IH) in H.
Qed.

Lemma render_instance_of (fuel : nat) (t : nat) (values : list value)
    (container : nat) (pc : partCallback) (st : state) (i : nat) :
  instance_of st container t pc = Some i ->
  Lit.render fuel t values container pc st
  = Lit.TemplateInstance_update fuel i values st.
Proof.
  unfold instance_of, Lit.render.
  destruct (__templateInstance st !! container) as [j|]; [|discriminate].
  cbn [mbind option_bind].
  destruct (instances st !! j) as [inst|]; [|discriminate].
  cbn [mbind option_bind].
  destruct (decide _); [|discriminate]. now intros [= ->].
Qed.

(** X18: [render] into a container that holds no instance of the
    template for the part callback makes a new instance, the next one of
    the heap, and the container holds it from then on: the instances
    there were, the template cache and the other containers are as they
    were, and every later [render] of the same template with the same
    part callback into this container is the [update] of that instance. *)
Theorem first_render_then_update (fuel : nat) (t : nat)
    (values : list value) (container : nat) (pc : partCallback)
    (st st1 : state)
    (Hnone : instance_of st container t pc = None)
    (H : Lit.render fuel t values container pc st = Ok st1) :
  let i := length (instances st) in
  instance_of st1 container t pc = Some i
  /\ __templateInstance st1 = <[container := i]> (__templateInstance st)
  /\ templates st1 = templates st
  /\ templateHeap st1 = templateHeap st
  /\ (forall j, j < i -> instances st1 !! j = instances st !! j)
  /\ (forall fuel' values',
        Lit.render fuel' t values' container pc st1
        = Lit.TemplateInstance_update fuel' i values' st1).
Proof.
  intros i.
  assert (Hslow :
    (let '(i, st) := Lit.TemplateInstance_new t pc st in
     let st :=
       with_templateInstance (<[container := i]> (__templateInstance st)) st in
     '(fragment, st) ← Lit._clone i st;
     st ← Lit.TemplateInstance_update fuel i values st;
     d ← Lit.removeChildren
           (S (length (Dom.children (document st) container)))
           container (document st);
     d ← Dom.appendChild d container fragment;
     Ok (with_document d st)) = Ok st1).
  { unfold Lit.render in H. unfold instance_of in Hnone.
    destruct (__templateInstance st !! container) as [j|]; [|exact H].
    cbn [mbind option_bind] in Hnone.
    destruct (instances st !! j) as [inst|]; [|exact H].
    cbn [mbind option_bind] in Hnone.
    destruct (decide _); [discriminate | exact H]. }
  clear H. unfold Lit.TemplateInstance_new in Hslow. fold i in Hslow.
  set (st_b := with_templateInstance _ _) in Hslow.
  apply bind_Ok in Hslow as ([fragment st_c] & Hclone & H).
  apply bind_Ok in H as (st_d & Hupdate & H).
  apply bind_Ok in H as (d1 & _ & H).
  apply bind_Ok in H as (d2 & _ & H).
  injection H as <-.
  assert (Hi_b : instances st_b !! i = Some (mkInstance [] t pc)).
  { unfold st_b, i. cbn [instances with_instances with_templateInstance].
    now rewrite lookup_app_r, Nat.sub_diag by lia. }
  destruct (_clone_new i st_b st_c _ fragment Hi_b Hclone)
    as (new & Hparts_c & Hnew & Harr_c & Hinst_c).
  cbn [_parts template _partCallback app] in Hinst_c.
  pose proof (_clone_statics _ _ _ _ Hclone) as Hs_c.
  assert (Hlen_b : length (instances st_b) = S i).
  { unfold st_b, i. cbn [instances with_instances with_templateInstance].
    rewrite length_app. cbn. lia. }
  assert (Hi_c : instances st_c !! i
                 = Some (mkInstance (seq (length (parts st_b)) (length new))
                           t pc)).
  { rewrite Hinst_c. apply list_lookup_insert_eq. lia. }
  pose proof Hupdate as Hs_d.
  apply (update_statics _ (setValue_statics fuel)) in Hs_d.
  unfold Lit.TemplateInstance_update, Lit.update in Hupdate.
  rewrite Hi_c in Hupdate. cbn [deref mbind res_bind _parts] in Hupdate.
  assert (Hframe : frame (length (parts st_b)) (length (arrays st_c))
                     (length (instances st_c)) st_c st_d).
  { apply (update_loop_frame _ (setValue_frames fuel) values
             (seq (length (parts st_b)) (length new)) 0 st_c st_d);
      try lia.
    - rewrite Hparts_c, length_app. lia.
    - intros p Hp. apply elem_of_seq in Hp. split; [lia|].
      rewrite Hparts_c. rewrite lookup_app_r by lia.
      destruct (new !! (p - length (parts st_b))) as [x|] eqn:Hx.
      + exists x. split; [reflexivity|].
        rewrite Forall_forall in Hnew. apply Hnew.
        eapply list_elem_of_lookup_2; eauto.
      + apply lookup_ge_None in Hx. lia.
    - apply NoDup_seq.
    - exact Hupdate. }
  destruct Hframe as (_ & _ & Hinst_d & _).
  assert (Hlen_c : length (instances st_c) = S i)
    by (rewrite Hinst_c, length_insert; exact Hlen_b).
  assert (Hstatics : statics st_d = statics st_b) by congruence.
  unfold statics in Hstatics.
  injection Hstatics as Htemplates HtemplateHeap HtemplateInstance.
  cbn [__templateInstance templates templateHeap with_document].
  assert (Hof : instance_of (with_document d2 st_d) container t pc = Some i).
  { unfold instance_of. cbn [__templateInstance with_document].
    rewrite HtemplateInstance. unfold st_b. cbn [__templateInstance with_templateInstance with_instances].
    rewrite lookup_insert_eq. cbn [mbind option_bind].
    cbn [instances with_document]. rewrite Hinst_d by lia. rewrite Hi_c.
    cbn [mbind option_bind template _partCallback].
    destruct (decide (t = t /\ pc = pc)) as [_|Hn]; [reflexivity|].
    exfalso. apply Hn. now split. }
  split; [exact Hof|]. split; [exact HtemplateInstance|].
  split; [exact Htemplates|]. split; [exact HtemplateHeap|]. split.
  - intros j Hj. cbn [instances with_document]. rewrite Hinst_d by lia.
    rewrite Hinst_c, list_lookup_insert_ne by lia.
    unfold st_b. cbn [instances with_instances with_templateInstance].
    now apply lookup_app_l.
  - intros fuel' values'. now apply render_instance_of.
Qed.

Lemma first_render_then_update_witness :
  let i := length (instances p_compiled) in
  instance_of p_rendered_x 0 0 DefaultPartCallback = Some i
  /\ __templateInstance p_rendered_x
     = <[0 := i]> (__templateInstance p_compiled)
  /\ templates p_rendered_x = templates p_compiled
  /\ templateHeap p_rendered_x = templateHeap p_compiled
  /\ (forall j, j < i ->
        instances p_rendered_x !! j = instances p_compiled !! j)
  /\ (forall fuel' values',
        Lit.render fuel' 0 values' 0 DefaultPartCallback p_rendered_x
        = Lit.TemplateInstance_update fuel' i values' p_rendered_x).
Proof.
  apply (first_render_then_update 2 0 [VStr "x"] 0 DefaultPartCallback
           p_compiled p_rendered_x).
  - reflexivity.
  - vm_compute. reflexivity.
Defined.

(** ** The nodes between two markers *)

Lemma lookup_update (d : DOM) (n m : nat) (f : node -> node) :
  Dom.update d n f !! m = if decide (m = n) then f <$> d !! m else d !! m.
Proof.
  unfold Dom.update, Dom.get, Dom.put.
  destruct (decide (m = n)) as [->|Hne].
  - destruct (d !! n) as [x|] eqn:E.
    + now rewrite list_lookup_insert_eq by (eapply lookup_lt_Some; eauto).
    + now rewrite E.
  - destruct (d !! n); [now rewrite list_lookup_insert_ne|reflexivity].
Qed.

Lemma length_update (d : DOM) (n : nat) (f : node -> node) :
  length (Dom.update d n f) = length d.
Proof.
  unfold Dom.update, Dom.get, Dom.put.
  destruct (d !! n); [apply length_insert | reflexivity].
Qed.

Lemma after_middle (s : nat) (pre rest : list nat) :
  s ∉ pre -> Dom.after s (pre ++ s :: rest) = head rest.
Proof.
  induction pre as [|a pre IH]; intros H; cbn [app Dom.after].
  - now destruct (decide (s = s)).
  - apply not_elem_of_cons in H as [Hne H].
    destruct (decide (a = s)); [congruence | now apply IH].
Qed.

Lemma before_middle (x e : nat) (pre post : list nat) :
  e ∉ pre -> e <> x -> Dom.before e (pre ++ x :: e :: post) = Some x.
Proof.
  induction pre as [|a pre IH]; intros H Hx.
  - cbn. now destruct (decide (e = e)).
  - apply not_elem_of_cons in H as [Hne H].
    change ((a :: pre) ++ x :: e :: post) with (a :: (pre ++ x :: e :: post)).
    cbn [Dom.before]. specialize (IH H Hx).
    destruct pre as [|b pre'].
    + cbn [app] in *. destruct (decide (x = e)); [congruence | exact IH].
    + cbn [app] in *. apply not_elem_of_cons in H as [Hb _].
      destruct (decide (b = e)); [congruence | exact IH].
Qed.

Lemma insert_before_middle (new : list nat) (e : nat) (pre post : list nat) :
  e ∉ pre ->
  Dom.insert_before new (Some e) (pre ++ e :: post) = pre ++ new ++ e :: post.
Proof.
  induction pre as [|a pre IH]; intros H; cbn [app Dom.insert_before].
  - now destruct (decide (e = e)).
  - apply not_elem_of_cons in H as [Hne H].
    destruct (decide (a = e)); [congruence|]. now rewrite IH.
Qed.

Lemma remove_from_middle (m : nat) (l1 l2 : list nat) :
  NoDup (l1 ++ m :: l2) -> Dom.remove_from m (l1 ++ m :: l2) = l1 ++ l2.
Proof.
  intros H. apply NoDup_app in H as (_ & H1 & H2).
  apply NoDup_cons in H2 as [H2 _].
  unfold Dom.remove_from. rewrite filter_app, filter_cons_False by auto.
  assert (Hf : forall l : list nat, m ∉ l -> filter (fun x => x <> m) l = l).
  { induction l as [|x l IH]; [reflexivity|].
    rewrite not_elem_of_cons. intros [Hne Hl].
    rewrite filter_cons_True by congruence. now rewrite IH. }
  rewrite !Hf; [reflexivity | exact H2 |].
  intros Hm. apply (H1 m Hm). left.
Qed.

(** [detach] of a child [m] of [P]. *)
Lemma lookup_detach (d : DOM) (P m n : nat) :
  Dom.parent d m = Some P -> m <> P ->
  Dom.detach d m !! n
  = if decide (n = m) then Dom.set_parent None <$> d !! n
    else if decide (n = P)
         then (fun x => Dom.set_children
                          (Dom.remove_from m (childNodes x)) x) <$> d !! n
         else d !! n.
Proof.
  intros Hp Hne. unfold Dom.detach. rewrite Hp. rewrite !lookup_update.
  destruct (decide (n = m)) as [->|Hn].
  - now destruct (decide (m = P)).
  - reflexivity.
Qed.

Lemma parent_lookup (d d' : DOM) (n : nat) :
  parentNode <$> d' !! n = parentNode <$> d !! n ->
  Dom.parent d' n = Dom.parent d n.
Proof.
  unfold Dom.parent, Dom.get. intros H.
  destruct (d' !! n), (d !! n); cbn in *; congruence.
Qed.

Lemma children_lookup (d d' : DOM) (n : nat) :
  childNodes <$> d' !! n = childNodes <$> d !! n ->
  Dom.children d' n = Dom.children d n.
Proof.
  unfold Dom.children, Dom.get. intros H.
  destruct (d' !! n), (d !! n); cbn in *; congruence.
Qed.

Lemma children_Some (d : DOM) (P : nat) (l : list nat) :
  Dom.children d P = l -> l <> [] ->
  exists x, d !! P = Some x /\ childNodes x = l.
Proof.
  unfold Dom.children, Dom.get. intros H Hl.
  destruct (d !! P) as [x|]; [now exists x | congruence].
Qed.

Lemma parent_Some (d : DOM) (n P : nat) :
  Dom.parent d n = Some P -> exists x, d !! n = Some x /\ parentNode x = Some P.
Proof.
  unfold Dom.parent, Dom.get. destruct (d !! n) as [x|]; [|discriminate].
  cbn. intros H. now exists x.
Qed.

(** What removing the first node after [s] does. *)
Lemma detach_between (d : DOM) (P : nat) (pre : list nat) (s m : nat)
    (mid rest : list nat) :
  between_markers d P pre s (m :: mid) rest ->
  between_markers (Dom.detach d m) P pre s mid rest
  /\ Dom.parent (Dom.detach d m) m = None
  /\ length (Dom.detach d m) = length d
  /\ (forall n, n <> m -> Dom.parent (Dom.detach d m) n = Dom.parent d n)
  /\ (forall n, n <> P -> n <> m -> Dom.detach d m !! n = d !! n)
  /\ (forall n, content <$> Dom.detach d m !! n = content <$> d !! n).
Proof.
  intros (Hc & Hnd & Hpar & HP).
  assert (Hm : Dom.parent d m = Some P)
    by (apply Hpar; right; left).
  assert (HmP : m <> P) by (intros ->; apply HP; left).
  pose proof (lookup_detach d P m) as Hl.
  assert (Hparent : forall n, n <> m ->
            Dom.parent (Dom.detach d m) n = Dom.parent d n).
  { intros n Hn. apply parent_lookup. rewrite (Hl n Hm HmP).
    destruct (decide (n = m)); [contradiction|].
    destruct (decide (n = P)); [|reflexivity].
    now destruct (d !! n). }
  split; [|split; [|split; [|split; [exact Hparent|split]]]].
  - split; [|split; [|split]].
    + destruct (children_Some d P _ Hc) as (x & Hx & Hcx);
        [now destruct pre|].
      unfold Dom.children, Dom.get. rewrite (Hl P Hm HmP).
      destruct (decide (P = m)); [congruence|].
      destruct (decide (P = P)); [|contradiction].
      rewrite Hx. cbn. rewrite Hcx.
      replace (pre ++ s :: (m :: mid) ++ rest)
        with ((pre ++ [s]) ++ m :: (mid ++ rest))
        by (now rewrite <- app_assoc).
      rewrite remove_from_middle.
      * now rewrite <- app_assoc.
      * now rewrite <- app_assoc.
    + replace (pre ++ s :: (m :: mid) ++ rest)
        with ((pre ++ [s]) ++ m :: (mid ++ rest)) in Hnd
        by (now rewrite <- app_assoc).
      apply NoDup_app in Hnd as (H1 & H2 & H3).
      apply NoDup_cons in H3 as [H3 H4].
      replace (pre ++ s :: mid ++ rest) with ((pre ++ [s]) ++ mid ++ rest)
        by (now rewrite <- app_assoc).
      apply NoDup_app. split; [exact H1|]. split; [|exact H4].
      intros x Hx Hx'. apply (H2 x Hx). now right.
    + intros n Hn. rewrite Hparent.
      * apply Hpar. rewrite !elem_of_cons in *. tauto.
      * intros ->.
        replace (pre ++ s :: (m :: mid) ++ rest)
          with ((pre ++ [s]) ++ m :: (mid ++ rest)) in Hnd
          by (now rewrite <- app_assoc).
        apply NoDup_app in Hnd as (H1 & H2 & H3).
        apply NoDup_cons in H3 as [H3 H4].
        apply elem_of_cons in Hn as [->|Hn].
        -- apply (H2 s); [apply elem_of_app; right; left | left].
        -- apply H3. apply elem_of_app. now left.
    + intros H. apply HP. now right.
  - unfold Dom.parent, Dom.get. rewrite (Hl m Hm HmP).
    destruct (decide (m = m)); [|contradiction].
    now destruct (d !! m).
  - unfold Dom.detach. rewrite Hm. now rewrite !length_update.
  - intros n HnP Hnm. rewrite (Hl n Hm HmP).
    destruct (decide (n = m)); [contradiction|].
    now destruct (decide (n = P)).
  - intros n. rewrite (Hl n Hm HmP).
    destruct (decide (n = m)); [now destruct (d !! n)|].
    destruct (decide (n = P)); [now destruct (d !! n)|reflexivity].
Qed.

Lemma nextSibling_between (d : DOM) (P : nat) (pre : list nat) (s : nat)
    (mid rest : list nat) :
  between_markers d P pre s mid rest ->
  Dom.nextSibling d s = head (mid ++ rest).
Proof.
  intros (Hc & Hnd & Hpar & _). unfold Dom.nextSibling.
  rewrite (Hpar s) by left. cbn [mbind option_bind]. rewrite Hc.
  apply after_middle. apply NoDup_app in Hnd as (_ & H & _).
  intros Hs. apply (H s Hs). left.
Qed.

(** The loop of [clear] removes the nodes [mid], one after the other. *)
Lemma clear_loop_between (endNode : option nat) (P : nat) (pre : list nat)
    (s : nat) (rest : list nat) (mid : list nat) :
  forall (d : DOM) (fuel : nat),
    between_markers d P pre s mid rest ->
    (forall m, m ∈ mid -> endNode <> Some m) ->
    exists d',
      Lit.clear_loop (length mid + fuel) s endNode d
      = Lit.clear_loop fuel s endNode d'
      /\ between_markers d' P pre s [] rest
      /\ length d' = length d
      /\ (forall m, m ∈ mid -> Dom.parent d' m = None)
      /\ (forall n, n ∉ mid -> Dom.parent d' n = Dom.parent d n)
      /\ (forall n, n <> P -> n ∉ mid -> d' !! n = d !! n)
      /\ (forall n, content <$> d' !! n = content <$> d !! n).
Proof.
  induction mid as [|m mid IH]; intros d fuel Hb Hend.
  - exists d. repeat split; try apply Hb; auto.
    intros m Hm. inversion Hm.
  - destruct (detach_between d P pre s m mid rest Hb)
      as (Hb1 & Hm1 & Hlen1 & Hpar1 & Hsame1 & Hcont1).
    destruct (IH (Dom.detach d m) fuel Hb1) as
      (d' & Hrun & Hb' & Hlen' & Hgone & Hpar' & Hsame' & Hcont').
    { intros x Hx. apply Hend. now right. }
    assert (Hnd : NoDup (m :: mid)).
    { destruct Hb as (_ & Hnd & _).
      apply NoDup_app in Hnd as (_ & _ & Hnd).
      apply NoDup_cons in Hnd as [_ Hnd].
      now apply NoDup_app in Hnd as (Hnd & _). }
    apply NoDup_cons in Hnd as [Hm_mid _].
    exists d'. split; [|split; [exact Hb'|split; [congruence|split; [|split; [|split]]]]].
    + cbn [length Nat.add Lit.clear_loop].
      rewrite (nextSibling_between d P pre s (m :: mid) rest Hb).
      cbn [app head].
      destruct (decide (Some m = endNode)) as [E|_].
      { exfalso. apply (Hend m); [left | now symmetry]. }
      cbn [deref mbind res_bind].
      destruct Hb as (_ & _ & Hpar & _).
      rewrite (Hpar m) by (right; left). cbn [deref mbind res_bind].
      unfold Dom.removeChild. rewrite (Hpar m) by (right; left).
      destruct (decide (Some P = Some P)); [|contradiction].
      cbn [mbind res_bind]. exact Hrun.
    + intros x Hx. apply elem_of_cons in Hx as [->|Hx].
      * rewrite Hpar' by exact Hm_mid. exact Hm1.
      * now apply Hgone.
    + intros n Hn. apply not_elem_of_cons in Hn as [Hnm Hn].
      rewrite Hpar' by exact Hn. now apply Hpar1.
    + intros n HnP Hn. apply not_elem_of_cons in Hn as [Hnm Hn].
      rewrite Hsame' by assumption. now apply Hsame1.
    + intros n. now rewrite Hcont', Hcont1.
Qed.

Lemma NoDup_length_below (l : list nat) (n : nat) :
  NoDup l -> (forall x, x ∈ l -> x < n) -> length l <= n.
Proof.
  intros Hnd Hlt.
  assert (H : length l <= length (seq 0 n)).
  { apply submseteq_length, NoDup_submseteq; [exact Hnd|].
    intros x Hx. apply elem_of_seq. specialize (Hlt x Hx). lia. }
  now rewrite length_seq in H.
Qed.

Lemma between_length (d : DOM) (P : nat) (pre : list nat) (s : nat)
    (mid rest : list nat) :
  between_markers d P pre s mid rest -> length mid <= length d.
Proof.
  intros (_ & Hnd & Hpar & _). apply NoDup_length_below.
  - apply NoDup_app in Hnd as (_ & _ & Hnd).
    apply NoDup_cons in Hnd as [_ Hnd].
    now apply NoDup_app in Hnd as (Hnd & _).
  - intros x Hx.
    destruct (parent_Some d x P) as (y & Hy & _); [apply Hpar; now right|].
    eapply lookup_lt_Some; eauto.
Qed.

Lemma clear_loop_markers (d : DOM) (P : nat) (pre : list nat) (s e : nat)
    (mid post : list nat) (fuel : nat) :
  between_markers d P pre s mid (e :: post) ->
  length mid < fuel ->
  exists d',
    Lit.clear_loop fuel s (Some e) d = Ok d'
    /\ between_markers d' P pre s [] (e :: post)
    /\ length d' = length d
    /\ (forall m, m ∈ mid -> Dom.parent d' m = None)
    /\ (forall n, n ∉ mid -> Dom.parent d' n = Dom.parent d n)
    /\ (forall n, n <> P -> n ∉ mid -> d' !! n = d !! n)
    /\ (forall n, content <$> d' !! n = content <$> d !! n).
Proof.
  intros Hb Hfuel.
  destruct (clear_loop_between (Some e) P pre s (e :: post) mid d
              (fuel - length mid) Hb)
    as (d' & Hrun & Hb' & Hrest).
  { intros m Hm [= ->]. destruct Hb as (_ & Hnd & _).
    apply NoDup_app in Hnd as (_ & _ & Hnd).
    apply NoDup_cons in Hnd as [_ Hnd].
    apply NoDup_app in Hnd as (_ & Hnd & _). apply (Hnd m Hm). left. }
  exists d'. split; [|split; [exact Hb'|exact Hrest]].
  replace (length mid + (fuel - length mid)) with fuel in Hrun by lia.
  rewrite Hrun.
  destruct (fuel - length mid) as [|k] eqn:E; [lia|].
  cbn [Lit.clear_loop].
  rewrite (nextSibling_between d' P pre s [] (e :: post) Hb').
  cbn [app head]. now destruct (decide (Some e = Some e)).
Qed.

(** The two conditions, checked on a given document. *)
Lemma between_markers_check (d : DOM) (P : nat) (pre : list nat) (s : nat)
    (mid rest : list nat) :
  Dom.children d P = pre ++ s :: mid ++ rest ->
  bool_decide (NoDup (pre ++ s :: mid ++ rest)) = true ->
  forallb (fun m => bool_decide (Dom.parent d m = Some P)) (s :: mid) = true ->
  bool_decide (P ∈ mid) = false ->
  between_markers d P pre s mid rest.
Proof.
  intros Hc Hnd Hpar HP. split; [exact Hc|split; [|split]].
  - now apply bool_decide_eq_true in Hnd.
  - intros m Hm. rewrite forallb_forall in Hpar.
    apply list_elem_of_In, Hpar in Hm. now apply bool_decide_eq_true in Hm.
  - now apply bool_decide_eq_false in HP.
Qed.

Lemma parents_inside_check (d : DOM) :
  forallb (fun x : node =>
             match parentNode x with
             | Some q => bool_decide (q < length d)
             | None => true
             end) d = true ->
  parents_inside d.
Proof.
  intros H n q Hq. destruct (parent_Some _ _ _ Hq) as (x & Hx & Hxq).
  rewrite forallb_forall in H.
  apply list_elem_of_lookup_2, list_elem_of_In, H in Hx.
  rewrite Hxq in Hx. now apply bool_decide_eq_true in Hx.
Qed.

(** X19: [clear(startNode)] on a [NodePart] whose end marker [e] comes
    after [startNode] among the children of one node: it returns, the
    nodes that were between the two are no longer children of the node and
    have no parent, the other children stay in their order, and nothing
    else changes in the document: no other node, no parent of another
    node, no character data or attribute. *)
Theorem clear_removes_between_markers (st : state) (p i s0 e : nat)
    (w : previous) (P : nat) (pre : list nat) (s : nat) (mid post : list nat)
    (Hp : parts st !! p = Some (NodePart i s0 (Some e) w))
    (Hb : between_markers (document st) P pre s mid (e :: post)) :
  exists d',
    Lit.clear p s st = Ok (with_document d' st)
    /\ Dom.children d' P = pre ++ s :: e :: post
    /\ (forall m, m ∈ mid -> Dom.parent d' m = None)
    /\ (forall n, n ∉ mid -> Dom.parent d' n = Dom.parent (document st) n)
    /\ (forall n, n <> P -> n ∉ mid -> d' !! n = document st !! n)
    /\ (forall n, content <$> d' !! n = content <$> document st !! n).
Proof.
  destruct (clear_loop_markers (document st) P pre s e mid post
              (S (length (document st))) Hb)
    as (d' & Hrun & (Hc & _) & _ & Hrest).
  { apply between_length in Hb. lia. }
  exists d'. split; [|split; [exact Hc | exact Hrest]].
  unfold Lit.clear, nodePartOf. rewrite Hp.
  cbn [mbind res_bind np_endNode]. now rewrite Hrun.
Qed.

Lemma clear_removes_between_markers_witness :
  exists d',
    Lit.clear 0 3 p_rendered_x = Ok (with_document d' p_rendered_x)
    /\ Dom.children d' 2 = [] ++ 3 :: 4 :: []
    /\ (forall m, m ∈ [5] -> Dom.parent d' m = None)
    /\ (forall n, n ∉ [5]
          -> Dom.parent d' n = Dom.parent (document p_rendered_x) n)
    /\ (forall n, n <> 2 -> n ∉ [5] -> d' !! n = document p_rendered_x !! n)
    /\ (forall n, content <$> d' !! n
                  = content <$> document p_rendered_x !! n).
Proof.
  apply (clear_removes_between_markers p_rendered_x 0 0 3 4
           (PValue (VStr "x")) 2 [] 3 [5] []).
  - reflexivity.
  - apply between_markers_check; reflexivity.
Defined.

(** X20: [clear(startNode)] on a [NodePart] whose end marker [e] does
    not come after [startNode] throws a TypeError, be it that [startNode]
    is in no node any more, or that [e] is not among the nodes that follow
    it: the loop removes every node after [startNode] and then reads the
    parent of [null]. *)
Theorem clear_without_end_marker_throws (st : state) (p i s0 e : nat)
    (w : previous) (s : nat)
    (Hp : parts st !! p = Some (NodePart i s0 (Some e) w))
    (Hs : Dom.parent (document st) s = None
          \/ exists P pre mid,
               between_markers (document st) P pre s mid [] /\ e ∉ mid) :
  Lit.clear p s st = Throw TypeError.
Proof.
  unfold Lit.clear, nodePartOf. rewrite Hp.
  cbn [mbind res_bind np_endNode].
  destruct Hs as [Hs|(P & pre & mid & Hb & He)].
  - cbn [Lit.clear_loop]. unfold Dom.nextSibling. rewrite Hs.
    cbn [mbind option_bind].
    destruct (decide (None = Some e)); [discriminate | reflexivity].
  - pose proof (between_length _ _ _ _ _ _ Hb) as Hlen.
    destruct (clear_loop_between (Some e) P pre s [] mid (document st)
                (S (length (document st)) - length mid) Hb)
      as (d' & Hrun & Hb' & _).
    { intros m Hm [= ->]. contradiction. }
    replace (length mid + (S (length (document st)) - length mid))
      with (S (length (document st))) in Hrun by lia.
    rewrite Hrun.
    destruct (S (length (document st)) - length mid) as [|k] eqn:E; [lia|].
    cbn [Lit.clear_loop].
    rewrite (nextSibling_between d' P pre s [] [] Hb').
    cbn [app head]. destruct (decide (None = Some e)); [discriminate|].
    reflexivity.
Qed.

Lemma clear_without_end_marker_throws_witness :
  Lit.clear 0 4 p_rendered_x = Throw TypeError.
Proof.
  apply (clear_without_end_marker_throws p_rendered_x 0 0 3 4
           (PValue (VStr "x")) 4).
  - reflexivity.
  - right. exists 2, [3; 5], []. split.
    + apply between_markers_check; reflexivity.
    + intros H. inversion H.
Defined.

(** A new node does not change what is known of the others. *)
Lemma lookup_alloc (d : DOM) (x : node) (n : nat) :
  n < length d -> (d ++ [x]) !! n = d !! n.
Proof. intros H. now apply lookup_app_l. Qed.

Lemma between_alloc (d : DOM) (x : node) (P : nat) (pre : list nat)
    (s : nat) (mid rest : list nat) :
  between_markers d P pre s mid rest ->
  between_markers (d ++ [x]) P pre s mid rest.
Proof.
  intros (Hc & Hnd & Hpar & HP).
  destruct (children_Some d P _ Hc) as (y & Hy & Hcy); [now destruct pre|].
  split; [|split; [exact Hnd|split; [|exact HP]]].
  - rewrite <- Hc. apply children_lookup.
    rewrite lookup_alloc; [reflexivity | eapply lookup_lt_Some; eauto].
  - intros m Hm. rewrite <- (Hpar m Hm). apply parent_lookup.
    destruct (parent_Some d m P (Hpar m Hm)) as (z & Hz & _).
    rewrite lookup_alloc; [reflexivity | eapply lookup_lt_Some; eauto].
Qed.

Lemma is_ancestor_go_outside (d : DOM) (N a : nat) (fuel : nat) :
  (forall n q, n < N -> Dom.parent d n = Some q -> q < N) ->
  N <= a ->
  forall n, n < N -> Dom.is_ancestor_go fuel d a n = false.
Proof.
  intros Hin Ha. induction fuel as [|fuel IH]; intros n Hn;
    cbn [Dom.is_ancestor_go];
    (destruct (decide (a = n)); [lia|]); [reflexivity|].
  destruct (Dom.parent d n) as [q|] eqn:E; [|reflexivity].
  apply IH. eapply Hin; eauto.
Qed.

Lemma last_split (s : nat) (mid : list nat) :
  exists l x, s :: mid = l ++ [x].
Proof.
  revert s. induction mid as [|m mid IH]; intros s.
  - now exists [], s.
  - destruct (IH m) as (l & x & H). exists (s :: l), x. now rewrite H.
Qed.

Lemma previousSibling_between (d : DOM) (P : nat) (pre : list nat)
    (s e : nat) (mid post l : list nat) (x : nat) :
  between_markers d P pre s mid (e :: post) ->
  Dom.parent d e = Some P ->
  s :: mid = l ++ [x] ->
  Dom.previousSibling d e = Some x.
Proof.
  intros (Hc & Hnd & _) He Hl. unfold Dom.previousSibling. rewrite He.
  cbn [mbind option_bind]. rewrite Hc.
  assert (Heq : pre ++ s :: mid ++ e :: post
                = (pre ++ l) ++ x :: e :: post).
  { change (s :: mid ++ e :: post) with ((s :: mid) ++ e :: post).
    rewrite Hl, <- !app_assoc. reflexivity. }
  rewrite Heq in *. apply NoDup_app in Hnd as (_ & H1 & H2).
  apply NoDup_cons in H2 as [H2 _].
  apply before_middle.
  - intros H. apply (H1 e H). right. left.
  - intros ->. apply H2. left.
Qed.

(** What [_insert] of a new Text node does once the markers are next to
    each other. *)
Lemma insertBefore_new_text (d : DOM) (P : nat) (pre : list nat) (s e : nat)
    (post : list nat) (t : nat) (data : string) :
  between_markers d P pre s [] (e :: post) ->
  Dom.parent d e = Some P ->
  d !! t = Some (mkNode TEXT_NODE "#text" data [] [] None) ->
  (forall n q, n < t -> Dom.parent d n = Some q -> q < t) ->
  P < t -> e < t ->
  exists d',
    Dom.insertBefore d P t (Some e) = Ok d'
    /\ Dom.children d' P = pre ++ s :: t :: e :: post
    /\ Dom.typeOf d' t = Some TEXT_NODE
    /\ Dom.data d' t = Some data
    /\ Dom.parent d' t = Some P
    /\ (forall n, n <> t -> Dom.parent d' n = Dom.parent d n).
Proof.
  intros (Hc & Hnd & Hpar & _) He Ht Hin HP Het.
  destruct (children_Some d P _ Hc) as (xP & HxP & HcP); [now destruct pre|].
  unfold Dom.insertBefore, Dom.is_ancestor.
  rewrite (is_ancestor_go_outside d t t (length d) Hin) by lia.
  rewrite He, bool_decide_eq_true_2 by reflexivity. cbn [negb].
  destruct (decide (Some e = Some t)) as [E|_]; [injection E; lia|].
  unfold Dom.typeOf at 1. unfold Dom.get. rewrite Ht. cbn [fmap option_fmap option_map ntype].
  assert (Hdetach : Dom.detach d t = d).
  { unfold Dom.detach, Dom.parent, Dom.get. now rewrite Ht. }
  rewrite Hdetach.
  eexists. split; [reflexivity|].
  assert (HtP : t <> P) by lia.
  split; [|split; [|split; [|split]]].
  - unfold Dom.children, Dom.get. rewrite !lookup_update.
    destruct (decide (P = P)); [|contradiction].
    destruct (decide (P = t)); [lia|]. rewrite HxP. cbn. rewrite HcP.
    cbn [app].
    replace (pre ++ s :: e :: post) with ((pre ++ [s]) ++ e :: post)
      by (now rewrite <- app_assoc).
    rewrite insert_before_middle.
    + now rewrite <- app_assoc.
    + cbn [app] in Hnd.
      replace (pre ++ s :: e :: post) with ((pre ++ [s]) ++ e :: post) in Hnd
        by (now rewrite <- app_assoc).
      apply NoDup_app in Hnd as (_ & H & _). intros Hin'.
      apply (H e Hin'). left.
  - unfold Dom.typeOf, Dom.get. rewrite !lookup_update.
    destruct (decide (t = P)); [lia|].
    destruct (decide (t = t)); [|contradiction]. now rewrite Ht.
  - unfold Dom.data, Dom.get. rewrite !lookup_update.
    destruct (decide (t = P)); [lia|].
    destruct (decide (t = t)); [|contradiction]. now rewrite Ht.
  - unfold Dom.parent, Dom.get. rewrite !lookup_update.
    destruct (decide (t = P)); [lia|].
    destruct (decide (t = t)); [|contradiction]. now rewrite Ht.
  - intros n Hn. apply parent_lookup. rewrite !lookup_update.
    destruct (decide (n = t)); [contradiction|].
    destruct (decide (n = P)); [|reflexivity]. now destruct (d !! n).
Qed.

(** A [NodePart] whose markers [s] and [e] are children of [P], [s]
    first, with the nodes [mid] between them. *)
Lemma _setNode_new_text (st : state) (p i s e : nat) (w : previous)
    (P : nat) (pre mid post : list nat) (data : string) :
  parts st !! p = Some (NodePart i s (Some e) w) ->
  between_markers (document st) P pre s mid (e :: post) ->
  Dom.parent (document st) e = Some P ->
  parents_inside (document st) ->
  let t := length (document st) in
  let d1 := document st ++ [mkNode TEXT_NODE "#text" data [] [] None] in
  exists d',
    Lit._setNode p t (with_document d1 st)
    = Ok (set_previousValue p (PNode t) (with_document d' st))
    /\ Dom.children d' P = pre ++ s :: t :: e :: post
    /\ Dom.typeOf d' t = Some TEXT_NODE
    /\ Dom.data d' t = Some data
    /\ Dom.parent d' t = Some P
    /\ (forall m, m ∈ mid -> Dom.parent d' m = None).
Proof.
  intros Hp Hb He Hin t d1.
  assert (Hb1 : between_markers d1 P pre s mid (e :: post))
    by now apply between_alloc.
  destruct (parent_Some _ _ _ He) as (xe & Hxe & _).
  assert (Het : e < t) by (eapply lookup_lt_Some; eauto).
  destruct (children_Some (document st) P _ (proj1 Hb)) as (xP & HxP & _);
    [now destruct pre|].
  assert (HPt : P < t) by (eapply lookup_lt_Some; eauto).
  assert (Hmid_t : forall m, m ∈ mid -> m < t).
  { intros m Hm. destruct Hb as (_ & _ & Hpar & _).
    destruct (parent_Some (document st) m P) as (y & Hy & _);
      [apply Hpar; now right|].
    eapply lookup_lt_Some; eauto. }
  assert (He_mid : e ∉ mid).
  { destruct Hb as (_ & Hnd & _). apply NoDup_app in Hnd as (_ & _ & Hnd).
    apply NoDup_cons in Hnd as [_ Hnd].
    apply NoDup_app in Hnd as (_ & Hnd & _).
    intros H. apply (Hnd e H). left. }
  destruct (clear_loop_markers d1 P pre s e mid post (S (length d1)) Hb1)
    as (d2 & Hrun & Hb2 & Hlen2 & Hgone & Hpar2 & Hsame2 & _).
  { apply between_length in Hb1. lia. }
  assert (Hpar1 : forall n, n < t -> Dom.parent d1 n = Dom.parent (document st) n).
  { intros n Hn. apply parent_lookup. unfold d1. now rewrite lookup_alloc. }
  assert (He2 : Dom.parent d2 e = Some P).
  { rewrite Hpar2 by exact He_mid. rewrite Hpar1 by exact Het. exact He. }
  assert (Ht2 : d2 !! t = Some (mkNode TEXT_NODE "#text" data [] [] None)).
  { rewrite Hsame2.
    - unfold d1, t. now rewrite lookup_app_r, Nat.sub_diag by lia.
    - lia.
    - intros H. apply Hmid_t in H. lia. }
  assert (Hin2 : forall n q, n < t -> Dom.parent d2 n = Some q -> q < t).
  { intros n q Hn Hq. destruct (decide (n ∈ mid)) as [Hm|Hm].
    - rewrite (Hgone n Hm) in Hq. discriminate.
    - rewrite Hpar2, Hpar1 in Hq by assumption. eapply Hin; eauto. }
  destruct (insertBefore_new_text d2 P pre s e post t data Hb2 He2 Ht2 Hin2
              HPt Het)
    as (d3 & Hins & Hc3 & Hty3 & Hdata3 & Hpt3 & Hpar3).
  exists d3. split; [|split; [exact Hc3|split; [exact Hty3|split;
    [exact Hdata3|split; [exact Hpt3|]]]]].
  - unfold Lit._setNode, Lit.clear, Lit._insert, nodePartOf.
    cbn [parts document with_document]. rewrite Hp.
    cbn [mbind res_bind np_startNode np_endNode].
    rewrite Hrun. cbn [mbind res_bind parts document with_document].
    rewrite Hp. cbn [mbind res_bind np_endNode deref].
    rewrite He2. cbn [deref mbind res_bind]. rewrite Hins.
    cbn [mbind res_bind]. reflexivity.
  - intros m Hm. rewrite Hpar3.
    + now apply Hgone.
    + intros ->. apply Hmid_t in Hm. lia.
Qed.

Lemma _setText_between (st : state) (p i s e : nat) (w : previous)
    (P : nat) (pre mid post : list nat) (v : value) :
  parts st !! p = Some (NodePart i s (Some e) w) ->
  between_markers (document st) P pre s mid (e :: post) ->
  Dom.parent (document st) e = Some P ->
  parents_inside (document st) ->
  JS.toTextContent v = JS.toData v ->
  exists d' t,
    Lit._setText p v st
    = Ok (set_previousValue p (PValue v) (with_document d' st))
    /\ Dom.children d' P = pre ++ s :: t :: e :: post
    /\ Dom.typeOf d' t = Some TEXT_NODE
    /\ Dom.data d' t = Some (JS.toData v)
    /\ Dom.parent d' t = Some P
    /\ (forall m, m ∈ mid -> m <> t -> Dom.parent d' m = None).
Proof.
  intros Hp Hb He Hin Hdata.
  destruct (_setNode_new_text st p i s e w P pre mid post (JS.toData v)
              Hp Hb He Hin)
    as (d3 & Hnode & Hc3 & Hty3 & Hdata3 & Hpt3 & Hgone3).
  assert (Hnew : exists d' t,
    (let '(t, d) := Dom.createText (document st) (JS.toData v) in
     Lit._setNode p t (with_document d st))
    ≫= (fun st => Ok (set_previousValue p (PValue v) st))
    = Ok (set_previousValue p (PValue v) (with_document d' st))
    /\ Dom.children d' P = pre ++ s :: t :: e :: post
    /\ Dom.typeOf d' t = Some TEXT_NODE
    /\ Dom.data d' t = Some (JS.toData v)
    /\ Dom.parent d' t = Some P
    /\ (forall m, m ∈ mid -> m <> t -> Dom.parent d' m = None)).
  { exists d3, (length (document st)).
    unfold Dom.createText, Dom.alloc. rewrite Hnode.
    cbn [mbind res_bind]. rewrite set_previousValue_twice.
    repeat split; auto. }
  unfold Lit._setText, nodePartOf. rewrite Hp.
  cbn [mbind res_bind np_startNode np_endNode deref].
  rewrite (nextSibling_between _ P pre s mid (e :: post) Hb).
  destruct (last_split s mid) as (l & x & Hl).
  rewrite (previousSibling_between _ P pre s e mid post l x Hb He Hl).
  destruct (decide (head (mid ++ e :: post) = Some x)) as [Heq|_];
    [|exact Hnew].
  destruct (head (mid ++ e :: post)) as [n|] eqn:Hhead; [|discriminate].
  injection Heq as ->. cbn [deref mbind res_bind].
  destruct (decide (Dom.typeOf (document st) x = Some TEXT_NODE))
    as [Hty|_]; [|exact Hnew].
  (* the single Text node between the markers is reused *)
  assert (Hmid : mid = [x]).
  { destruct Hb as (_ & Hnd & _).
    destruct mid as [|m mid'].
    - cbn in Hhead. injection Hhead as <-.
      destruct l as [|a l']; cbn in Hl.
      + injection Hl as ->.
        apply NoDup_app in Hnd as (_ & _ & Hnd).
        apply NoDup_cons in Hnd as [Hnd _]. exfalso. apply Hnd. left.
      + injection Hl as _ Hl. now destruct l'.
    - cbn in Hhead. injection Hhead as ->.
      destruct mid' as [|m2 mid'']; [reflexivity|]. exfalso.
      apply NoDup_app in Hnd as (_ & _ & Hnd).
      apply NoDup_cons in Hnd as [_ Hnd].
      cbn [app] in Hnd. apply NoDup_cons in Hnd as [Hx _].
      apply Hx. change (x ∈ (m2 :: mid'') ++ e :: post).
      apply elem_of_app. left.
      assert (Hlast : last (s :: x :: m2 :: mid'') = Some x)
        by (rewrite Hl; apply last_snoc).
      change (last (s :: x :: m2 :: mid'')) with (last (m2 :: mid'')) in Hlast.
      apply last_Some in Hlast as (l0 & Hl0). rewrite Hl0.
      apply elem_of_app. right. left. }
  subst mid.
  exists (Dom.update (document st) x (Dom.set_value (JS.toData v))), x.
  assert (HxP : x <> P).
  { destruct Hb as (_ & _ & _ & HP). intros ->. apply HP. left. }
  assert (Hpx : Dom.parent (document st) x = Some P).
  { destruct Hb as (_ & _ & Hpar & _). apply Hpar. right. left. }
  destruct (parent_Some _ _ _ Hpx) as (y & Hy & Hyp).
  split; [|split; [|split; [|split; [|split]]]].
  - unfold Dom.set_textContent. now rewrite Hty, Hdata.
  - change (pre ++ s :: x :: e :: post) with (pre ++ s :: [x] ++ e :: post).
    rewrite <- (proj1 Hb). apply children_lookup.
    rewrite lookup_update. destruct (decide (P = x)); congruence.
  - unfold Dom.typeOf, Dom.get in *. rewrite lookup_update.
    destruct (decide (x = x)); [|contradiction].
    rewrite Hy in *. cbn in *. congruence.
  - apply data_update_eq. eauto.
  - rewrite <- Hpx. apply parent_lookup. rewrite lookup_update.
    destruct (decide (x = x)); [|contradiction]. now rewrite Hy.
  - intros m Hm Hne. apply list_elem_of_singleton in Hm. contradiction.
Qed.

(** X21: a [NodePart] whose markers are children of one node, the start
    marker first, in a document where every parent is a node, is given a
    primitive value that is not the one it holds. The call returns; after
    it, exactly one node lies between the markers, a Text node whose data
    is the value as a string, empty for [undefined] and [null]; the nodes
    that were between the markers, if not that one, are in no node any
    more; the children before the start marker and after the end marker
    are the same; and the part holds the value. *)
Theorem text_rendered_between_markers (fuel : nat) (st : state)
    (p i s e : nat) (w : previous) (v : value) (P : nat)
    (pre mid post : list nat)
    (Hp : parts st !! p = Some (NodePart i s (Some e) w))
    (Hb : between_markers (document st) P pre s mid (e :: post))
    (He : Dom.parent (document st) e = Some P)
    (Hin : parents_inside (document st))
    (Hv : JS.is_object v = false)
    (Hnew : forall old,
       w = PValue old -> JS.strict_eq_prim (Lit.getValue p v) old = false) :
  exists st' t,
    Lit.setValue (S fuel) p v st = Ok st'
    /\ Dom.children (document st') P = pre ++ s :: t :: e :: post
    /\ Dom.typeOf (document st') t = Some TEXT_NODE
    /\ Dom.data (document st') t = Some (JS.toData (Lit.getValue p v))
    /\ Dom.parent (document st') t = Some P
    /\ (forall m, m ∈ mid -> m <> t -> Dom.parent (document st') m = None)
    /\ previousValue st' p = Some (PValue (Lit.getValue p v)).
Proof.
  destruct (_setText_between st p i s e w P pre mid post (Lit.getValue p v)
              Hp Hb He Hin (toTextContent_getValue p v))
    as (d' & t & Hset & Hc & Hty & Hdata & Hpt & Hgone).
  assert (Hobj : JS.is_object (Lit.getValue p v) = false)
    by (destruct v; try discriminate; reflexivity).
  exists (set_previousValue p (PValue (Lit.getValue p v))
            (with_document d' st)), t.
  assert (Hdoc : document (set_previousValue p (PValue (Lit.getValue p v))
                             (with_document d' st)) = d').
  { unfold set_previousValue. cbn [parts with_document]. now rewrite Hp. }
  rewrite Hdoc.
  split; [|split; [exact Hc|split; [exact Hty|split; [exact Hdata|split;
    [exact Hpt|split; [exact Hgone|]]]]]].
  - cbn [Lit.setValue]. unfold Lit.setValue_body. rewrite Hobj.
    cbn [negb]. unfold nodePartOf at 1. rewrite Hp.
    cbn [mbind res_bind np_previousValue].
    destruct w as [old| | | |]; try exact Hset.
    now rewrite (Hnew old eq_refl).
  - apply previousValue_set. rewrite previousValue_document.
    unfold previousValue. rewrite Hp. eauto.
Qed.

Lemma text_rendered_between_markers_witness :
  exists st' t,
    Lit.setValue 1 0 (VStr "y") p_rendered_x = Ok st'
    /\ Dom.children (document st') 2 = [] ++ 3 :: t :: 4 :: []
    /\ Dom.typeOf (document st') t = Some TEXT_NODE
    /\ Dom.data (document st') t
       = Some (JS.toData (Lit.getValue 0 (VStr "y")))
    /\ Dom.parent (document st') t = Some 2
    /\ (forall m, m ∈ [5] -> m <> t -> Dom.parent (document st') m = None)
    /\ previousValue st' 0 = Some (PValue (Lit.getValue 0 (VStr "y"))).
Proof.
  apply (text_rendered_between_markers 0 p_rendered_x 0 0 3 4
           (PValue (VStr "x")) (VStr "y") 2 [] [5] []).
  - reflexivity.
  - apply between_markers_check; reflexivity.
  - reflexivity.
  - apply parents_inside_check. reflexivity.
  - reflexivity.
  - intros old [= <-]. reflexivity.
Defined.
